(** * The RTLIL back end of nMigen ([nmigen/back/rtlil.py])

    A shallow embedding of the lowering compiler: the identifier allocator
    [_Namer], the text builders, the value compilers and the recursive
    driver [convert_fragment], followed by the properties of the
    specification that are stated about them.

    Conventions of the embedding
    - a Python [int] is a [Z]; a [str] is a [string];
    - an [io.StringIO] is the list of the chunks written to it, oldest
      first; [getvalue] concatenates them;
    - a [set] of names is a [gset string], a [ValueDict] keyed by signals
      is a [gmap] keyed by the identity of the signal object;
    - a method that mutates [self] is a function in the state-and-exception
      monad [M] over the record that stands for [self]. *)

From Stdlib Require Import ZArith String Ascii DecimalString List Lia.
From stdpp Require Import gmap strings list fin_maps.

Set Warnings "-register-all,-clear-no-such-hyp".

Open Scope Z_scope.


(** ** Python values and formatting *)

Module Py.

Definition chr (n : nat) : string := String (ascii_of_nat n) EmptyString.

(** The three characters that the source writes with an escape. *)
Definition newline : string := chr 10.
Definition quote : string := chr 34.
Definition backslash : string := chr 92.
Definition dollar : string := chr 36.

(** [str(i)] and the [{}] format of an [int]. *)
Definition str_int (z : Z) : string := NilZero.string_of_int (Z.to_int z).

Fixpoint bin_pos (p : positive) : string :=
  match p with
  | xH => "1"
  | xO q => bin_pos q +:+ "0"
  | xI q => bin_pos q +:+ "1"
  end.

(** The [{:b}] format of an [int]: no padding, a minus sign when negative. *)
Definition format_b (z : Z) : string :=
  match z with
  | Z0 => "0"
  | Zpos p => bin_pos p
  | Zneg p => "-" +:+ bin_pos p
  end.

(** [int(b)] of a [bool]. *)
Definition int_of_bool (b : bool) : Z := if b then 1 else 0.

(** [s.replace(c, t)] for a one-character [c]. *)
Fixpoint replace_char (c : ascii) (t : string) (s : string) : string :=
  match s with
  | EmptyString => EmptyString
  | String a s' =>
      if Ascii.eqb a c then t +:+ replace_char c t s'
      else String a (replace_char c t s')
  end.

(** [s.replace] of every quote by a backslash and a quote. *)
Definition escape_quotes (s : string) : string :=
  replace_char (ascii_of_nat 34) (backslash +:+ quote) s.

(** [sep.join(l)]. *)
Definition join (sep : string) (l : list string) : string := String.concat sep l.

(** Truthiness of a [str]. *)
Definition truthy (s : string) : bool :=
  match s with EmptyString => false | _ => true end.

(** The exceptions the back end raises.  [LoopBound] is not a Python
    exception: it marks the exhaustion of the bound that the embedding puts
    on the [while] loop of [_make_name]. *)
Inductive exn : Type :=
| TypeError
| NotImplementedError
| ValueError
| AssertionError
| KeyError
| IndexError
| AttributeError
| LoopBound.

Inductive Result (A : Type) : Type :=
| Ok (a : A)
| Raise (e : exn).
Arguments Ok {A} a.
Arguments Raise {A} e.

(** A method over a mutable [self] of type [S]. *)
Definition M (S A : Type) : Type := S -> Result (A * S).

Definition ret {S A} (a : A) : M S A := fun s => Ok (a, s).
Definition raise {S A} (e : exn) : M S A := fun _ => Raise e.
Definition bind {S A B} (m : M S A) (k : A -> M S B) : M S B :=
  fun s => match m s with
           | Ok (a, s') => k a s'
           | Raise e => Raise e
           end.
Definition get {S} : M S S := fun s => Ok (s, s).
Definition put {S} (s : S) : M S unit := fun _ => Ok (tt, s).
Definition modify {S} (f : S -> S) : M S unit := fun s => Ok (tt, f s).

(** Run a method of a component of [self]. *)
Definition zoom {S T A} (proj : S -> T) (inj : T -> S -> S) (m : M T A) : M S A :=
  fun s => match m (proj s) with
           | Ok (a, t) => Ok (a, inj t s)
           | Raise e => Raise e
           end.

(** Run a method of the first, or of the second, of two objects. *)
Definition on_fst {S T A} (m : M S A) : M (S * T) A :=
  zoom fst (fun s p => (s, snd p)) m.
Definition on_snd {S T A} (m : M T A) : M (S * T) A :=
  zoom snd (fun t p => (fst p, t)) m.

(** [for x in l: body(x)], collecting the results. *)
Definition for_each {S A B} (body : A -> M S B) : list A -> M S (list B) :=
  fix go (l : list A) : M S (list B) :=
    match l with
    | [] => ret []
    | x :: l' => bind (body x) (fun y => bind (go l') (fun ys => ret (y :: ys)))
    end.

(** [for x in l: body(x)], for its effect only. *)
Definition for_ {S A} (body : A -> M S unit) : list A -> M S unit :=
  fix go (l : list A) : M S unit :=
    match l with
    | [] => ret tt
    | x :: l' => bind (body x) (fun _ => go l')
    end.

End Py.
Import Py.

Declare Scope py_scope.
Delimit Scope py_scope with py.
Notation "'let*' x := m 'in' k" := (bind m (fun x => k))
  (at level 10, x name, m at level 200, k at level 200) : py_scope.
Notation "m ;; k" := (bind m (fun _ => k))
  (at level 100, right associativity) : py_scope.
Open Scope py_scope.

(** ** [_Namer]: the identifier allocator *)

Record _Namer : Type := mk_Namer {
  _index : Z;
  _names : gset string
}.

(** [_Namer.__init__]. *)
Definition _Namer_init : _Namer := {| _index := 0; _names := ∅ |}.

(** The loop [while name in self._names: ...] of [_make_name], run for at most
    [fuel] iterations; it returns the index and the name it exits with. *)
Fixpoint _make_name_while (fuel : nat) (names : gset string) (index : Z) (name : string)
  : option (Z * string) :=
  if decide (name ∈ names) then
    match fuel with
    | O => None
    | S fuel' =>
        let index := index + 1 in
        _make_name_while fuel' names index (name +:+ dollar +:+ str_int index)
    end
  else Some (index, name).

(** Whether the character [c] is one of the two escape markers, the
    backslash and the dollar: the test [name[0] in ...] of [_make_name]. *)
Definition is_escape_marker (c : ascii) : bool :=
  Ascii.eqb c (ascii_of_nat 92) || Ascii.eqb c (ascii_of_nat 36).

(** The candidate name before the loop: the first [if]/[elif] of [_make_name]. *)
Definition _make_name_candidate (name : option string) (local : bool) (index : Z)
  : Result (Z * string) :=
  match name with
  | None => let index := index + 1 in Ok (index, dollar +:+ str_int index)
  | Some name =>
      if negb local then
        match name with
        | EmptyString => Raise IndexError
        | String c _ =>
            if negb (is_escape_marker c) then Ok (index, backslash +:+ name)
            else Ok (index, name)
        end
      else Ok (index, name)
  end.

(** [_Namer._make_name].  Every iteration of the loop meets a different
    registered name, so [size names] iterations always suffice
    (see [_make_name_while_terminates]). *)
Definition _make_name (name : option string) (local : bool) : M _Namer string :=
  fun self =>
    match _make_name_candidate name local (_index self) with
    | Raise e => Raise e
    | Ok (index, name) =>
        match _make_name_while (size (_names self)) (_names self) index name with
        | None => Raise LoopBound
        | Some (index, name) =>
            Ok (name, {| _index := index; _names := {[ name ]} ∪ _names self |})
        end
    end.

(** ** [_Bufferer]: the text emitter *)

(** An [io.StringIO]: the chunks written so far. *)
Definition StringIO : Type := list string.

(** [StringIO.getvalue]. *)
Definition getvalue (buffer : StringIO) : string := Py.join "" buffer.

(** [StringIO.write]. *)
Definition write (chunk : string) (buffer : StringIO) : StringIO := buffer ++ [chunk].

(** [str * n]. *)
Definition str_mul (s : string) (n : Z) : string := Py.join "" (replicate (Z.to_nat n) s).

(** The value of an attribute: a [str], or something [int()] accepts. *)
Inductive attr_value : Type :=
| AttrStr (value : string)
| AttrInt (value : Z).

(** The value of a cell parameter.  Every call of [cell] in this file passes
    [int] or [bool] values; the [str] case of [cell] (rendered with [repr])
    is not reached and is not part of the embedding. *)
Inductive param_value : Type :=
| ParamInt (value : Z)
| ParamBool (value : bool).

Definition int_of_param (v : param_value) : Z :=
  match v with
  | ParamInt z => z
  | ParamBool b => int_of_bool b
  end.

(** The chunk written by [_Bufferer._src] for a non-empty [src]. *)
Definition src_text (src : string) : string :=
  "  attribute " +:+ backslash +:+ "src " +:+ quote +:+ escape_quotes src +:+ quote +:+ newline.

(** [_Bufferer._src]: the chunks it writes. *)
Definition _src (src : string) : list string :=
  if truthy src then [src_text src] else [].

(** ** The structural builders: the text of each construct *)

(** The attribute lines of [_ModuleBuilder.__enter__] (no indentation). *)
Definition module_attribute_text (name : string) (value : attr_value) : string :=
  match value with
  | AttrStr v =>
      "attribute " +:+ backslash +:+ name +:+ " " +:+ quote +:+ escape_quotes v +:+ quote +:+ newline
  | AttrInt v =>
      "attribute " +:+ backslash +:+ name +:+ " " +:+ str_int v +:+ newline
  end.

Definition module_text (name : string) : string := "module " +:+ name +:+ newline.
Definition module_end_text : string := "end" +:+ newline.

(** The line of [_ModuleBuilder.attribute]. *)
Definition attribute_text (name : string) (value : attr_value) : string :=
  "  " +:+ module_attribute_text name value.

(** The line of [_ModuleBuilder.wire]. *)
Definition wire_text (width : Z) (port : option (Z * string)) (name : string) : string :=
  match port with
  | None => "  wire width " +:+ str_int width +:+ " " +:+ name +:+ newline
  | Some (port_id, port_kind) =>
      "  wire width " +:+ str_int width +:+ " " +:+ port_kind +:+ " " +:+ str_int port_id
        +:+ " " +:+ name +:+ newline
  end.

Definition connect_text (lhs rhs : string) : string :=
  "  connect " +:+ lhs +:+ " " +:+ rhs +:+ newline.

Definition parameter_text (p : string * param_value) : string :=
  "    parameter " +:+ backslash +:+ fst p +:+ " " +:+ str_int (int_of_param (snd p)) +:+ newline.

Definition cell_connect_text (p : string * string) : string :=
  "    connect " +:+ fst p +:+ " " +:+ snd p +:+ newline.

(** The chunks that [_ModuleBuilder.cell] writes once the name is chosen. *)
Definition cell_text (kind name : string) (params : list (string * param_value))
    (ports : list (string * string)) : list string :=
  [ "  cell " +:+ kind +:+ " " +:+ name +:+ newline ]
    ++ map parameter_text params
    ++ map cell_connect_text ports
    ++ [ "  end" +:+ newline ].

Definition process_text (name : string) : string := "  process " +:+ name +:+ newline.
Definition process_end_text : string := "  end" +:+ newline.

Definition assign_text (indent : Z) (lhs rhs : string) : string :=
  str_mul "  " indent +:+ "assign " +:+ lhs +:+ " " +:+ rhs +:+ newline.

Definition switch_text (indent : Z) (cond : string) : string :=
  str_mul "  " indent +:+ "switch " +:+ cond +:+ newline.

Definition switch_end_text (indent : Z) : string :=
  str_mul "  " indent +:+ "end" +:+ newline.

(** The line of [_SwitchBuilder.case]: [None] is the default branch. *)
Definition case_text (indent : Z) (value : option string) : string :=
  match value with
  | None => str_mul "  " (indent + 1) +:+ "case" +:+ newline
  | Some value =>
      str_mul "  " (indent + 1) +:+ "case " +:+ str_int (Z.of_nat (String.length value))
        +:+ "'" +:+ value +:+ newline
  end.

(** The line of [_SyncBuilder.__enter__]. *)
Definition sync_text (kind : string) (cond : option string) : string :=
  match cond with
  | None => "    sync " +:+ kind +:+ newline
  | Some cond => "    sync " +:+ kind +:+ " " +:+ cond +:+ newline
  end.

(** The [{}] format of a value that may be [None]. *)
Definition str_opt (o : option string) : string :=
  match o with
  | Some s => s
  | None => "None"
  end.

(** The line of [_SyncBuilder.update]. *)
Definition update_text (lhs : string) (rhs : option string) : string :=
  "      update " +:+ lhs +:+ " " +:+ str_opt rhs +:+ newline.

(** ** Ordered dictionaries *)

(** [d[k] = v] on an insertion-ordered [dict]: an existing key keeps its
    place, a new key goes last. *)
Fixpoint dict_set {V : Type} (k : string) (v : V) (d : list (string * V)) : list (string * V) :=
  match d with
  | [] => [(k, v)]
  | (k', v') :: d' =>
      if String.eqb k k' then (k, v) :: d' else (k', v') :: dict_set k v d'
  end.

(** [d.update(e)]. *)
Definition dict_update {V : Type} (d e : list (string * V)) : list (string * V) :=
  fold_left (fun acc kv => dict_set (fst kv) (snd kv) acc) e d.

(** [d[k]], with [KeyError] for a missing key. *)
Fixpoint dict_get {V : Type} (k : string) (d : list (string * V)) : Result V :=
  match d with
  | [] => Raise KeyError
  | (k', v) :: d' => if String.eqb k k' then Ok v else dict_get k d'
  end.

(** ** [_Builder] and [_ModuleBuilder] *)

Record _Builder : Type := mk_Builder {
  builder_namer : _Namer;
  builder_buffer : StringIO
}.

Definition _Builder_init : _Builder :=
  {| builder_namer := _Namer_init; builder_buffer := [] |}.

Record _ModuleBuilder : Type := mk_ModuleBuilder {
  module_namer : _Namer;
  module_buffer : StringIO;
  module_name : string;
  module_attrs : list (string * attr_value)
}.

Definition set_module_namer (n : _Namer) (m : _ModuleBuilder) : _ModuleBuilder :=
  {| module_namer := n; module_buffer := module_buffer m;
     module_name := module_name m; module_attrs := module_attrs m |}.

Definition set_module_buffer (b : StringIO) (m : _ModuleBuilder) : _ModuleBuilder :=
  {| module_namer := module_namer m; module_buffer := b;
     module_name := module_name m; module_attrs := module_attrs m |}.

(** [_Bufferer._append] on a module, for each chunk of [chunks] in turn. *)
Definition module_append (chunks : list string) : M _ModuleBuilder unit :=
  modify (fun m => set_module_buffer (module_buffer m ++ chunks) m).

(** [self._make_name] on a module. *)
Definition module_make_name (name : option string) (local : bool) : M _ModuleBuilder string :=
  zoom module_namer set_module_namer (_make_name name local).

(** [_Builder.module]: the name is allocated in the builder, and the new
    module starts with its own allocator and buffer. *)
Definition _Builder_module (name : option string) (attrs : list (string * attr_value))
  : M _Builder _ModuleBuilder :=
  let* name := zoom builder_namer
            (fun n b => {| builder_namer := n; builder_buffer := builder_buffer b |})
            (_make_name name false) in
  ret {| module_namer := _Namer_init;
         module_buffer := [];
         module_name := name;
         module_attrs := dict_update [("generator", AttrStr "nMigen")] attrs |}.

(** [_ModuleBuilder.__enter__]. *)
Definition _ModuleBuilder_enter : M _ModuleBuilder unit :=
  let* self := get in
  module_append (map (fun nv => module_attribute_text (fst nv) (snd nv)) (module_attrs self)) ;;
  module_append [module_text (module_name self)].

(** [_ModuleBuilder.__exit__]: closes the module and flushes its text into
    the builder that created it. *)
Definition _ModuleBuilder_exit (self : _ModuleBuilder) : M _Builder unit :=
  let self := set_module_buffer (module_buffer self ++ [module_end_text]) self in
  modify (fun rtlil =>
    {| builder_namer := builder_namer rtlil;
       builder_buffer := write (getvalue (module_buffer self)) (builder_buffer rtlil) |}).

(** [_ModuleBuilder.attribute]. *)
Definition _ModuleBuilder_attribute (name : string) (value : attr_value) : M _ModuleBuilder unit :=
  module_append [attribute_text name value].

(** [_ModuleBuilder.wire].  The assertion on [port_kind] is checked only
    for a port. *)
Definition _ModuleBuilder_wire (width : Z) (port : option (Z * string))
    (name : option string) (src : string) : M _ModuleBuilder string :=
  module_append (_src src) ;;
  let* name := module_make_name name false in
  match port with
  | None => module_append [wire_text width None name]
  | Some (port_id, port_kind) =>
      if existsb (String.eqb port_kind) ["input"; "output"; "inout"]
      then module_append [wire_text width port name]
      else raise AssertionError
  end ;;
  ret name.

(** [_ModuleBuilder.connect]. *)
Definition _ModuleBuilder_connect (lhs rhs : string) : M _ModuleBuilder unit :=
  module_append [connect_text lhs rhs].

(** [_ModuleBuilder.cell]. *)
Definition _ModuleBuilder_cell (kind : string) (name : option string)
    (params : list (string * param_value)) (ports : list (string * string))
    (src : string) : M _ModuleBuilder string :=
  module_append (_src src) ;;
  let* name := module_make_name name true in
  module_append (cell_text kind name params ports) ;;
  ret name.

(** ** [_ProcessBuilder] and the builders of its nested scopes *)

Record _ProcessBuilder : Type := mk_ProcessBuilder {
  process_buffer : StringIO;
  process_name : string;
  process_src : string
}.

(** [_Bufferer._append] on a process. *)
Definition process_append (chunks : list string) : M _ProcessBuilder unit :=
  modify (fun p => {| process_buffer := process_buffer p ++ chunks;
                      process_name := process_name p;
                      process_src := process_src p |}).

(** [_ModuleBuilder.process]. *)
Definition _ModuleBuilder_process (name : option string) (src : string)
  : M _ModuleBuilder _ProcessBuilder :=
  let* name := module_make_name name true in
  ret {| process_buffer := []; process_name := name; process_src := src |}.

(** [_ProcessBuilder.__enter__]. *)
Definition _ProcessBuilder_enter : M _ProcessBuilder unit :=
  let* self := get in
  process_append (_src (process_src self)) ;;
  process_append [process_text (process_name self)].

(** [_ProcessBuilder.__exit__]: closes the process and flushes its text into
    the module that created it. *)
Definition _ProcessBuilder_exit (self : _ProcessBuilder) : M _ModuleBuilder unit :=
  module_append [getvalue (process_buffer self ++ [process_end_text])].

(** [_CaseBuilder.assign]; a case builder is its indentation, the process it
    writes to is the state. *)
Definition _CaseBuilder_assign (indent : Z) (lhs rhs : string) : M _ProcessBuilder unit :=
  process_append [assign_text indent lhs rhs].

(** [_SwitchBuilder.__enter__], [__exit__] and [case]; [case] returns the
    indentation of the nested case builder. *)
Definition _SwitchBuilder_enter (indent : Z) (cond : string) : M _ProcessBuilder unit :=
  process_append [switch_text indent cond].

Definition _SwitchBuilder_exit (indent : Z) : M _ProcessBuilder unit :=
  process_append [switch_end_text indent].

Definition _SwitchBuilder_case (indent : Z) (value : option string) : M _ProcessBuilder Z :=
  process_append [case_text indent value] ;;
  ret (indent + 2).

(** [_SyncBuilder.__enter__] and [update]. *)
Definition _SyncBuilder_enter (kind : string) (cond : option string) : M _ProcessBuilder unit :=
  process_append [sync_text kind cond].

Definition _SyncBuilder_update (lhs : string) (rhs : option string) : M _ProcessBuilder unit :=
  process_append [update_text lhs rhs].

(** ** The design graph ([hdl.ast], [hdl.ir]) *)

Module ast.

(** A signal object.  [sid] stands for the identity of the Python object:
    [ValueDict] compares signals by identity, not by their fields. *)
Record Signal : Type := mkSignal {
  sid : nat;
  name : string;
  nbits : Z;
  signed : bool;
  reset : Z;
  attrs : list (string * attr_value);
  src_loc : string * Z
}.

(** The [value] of a constant: an [int], or the [str] that [on_Const] also
    accepts. *)
Inductive const_value : Type :=
| ConstInt (value : Z)
| ConstStr (value : string).

Inductive Value : Type :=
| Const (value : const_value) (nbits : Z) (signed : bool)
| Sig (signal : Signal)
| ClockSignal (domain : string)
| ResetSignal (domain : string)
| Operator (op : string) (operands : list Value)
| Slice (value : Value) (start stop : Z)
| Part (value offset : Value) (width : Z)
| Cat (operands : list Value)
| Repl (value : Value) (count : Z)
| ArrayProxy (elems : list Value) (index : Value).

Inductive Statement : Type :=
| Assign (lhs rhs : Value)
| Switch (test : Value) (cases : list (option string * list Statement))
| OtherStatement.

End ast.

Module ir.

Record ClockDomain : Type := mkClockDomain {
  clk : ast.Signal;
  rst : option ast.Signal;
  async_reset : bool
}.

(** A fragment, after [prepare].  [ports] and [drivers] are ordered
    dictionaries: no signal is twice a key of [ports], no domain twice a
    key of [drivers] or [domains]. *)
Inductive Fragment : Type := mkFragment {
  ports : list (ast.Signal * string);
  drivers : list (option string * list ast.Signal);
  statements : list ast.Statement;
  domains : list (string * ClockDomain);
  subfragments : list (Fragment * option string)
}.

(** Modelled from the spec: [Fragment.iter_drivers] of the absent [hdl.ir],
    the enumeration of the (domain, signal) driven-records in the order of
    the driven-signal groups. *)
Definition iter_drivers (f : Fragment) : list (option string * ast.Signal) :=
  flat_map (fun ds => map (fun s => (fst ds, s)) (snd ds)) (drivers f).

(** Modelled from the spec: [Fragment.iter_sync] of the absent [hdl.ir],
    the driven-records of the synchronous domains. *)
Definition iter_sync (f : Fragment) : list (string * ast.Signal) :=
  flat_map (fun ds => match fst ds with
                      | Some d => map (fun s => (d, s)) (snd ds)
                      | None => []
                      end) (drivers f).

End ir.

(** What the back end asks of the expression objects of the absent [hdl.ast]. *)
Class Frontend : Type := {
  (** [value.shape()]: the declared width and signedness. *)
  shape : ast.Value -> Z * bool;
  (** [value.src_loc] of an expression object: file and line. *)
  value_src_loc : ast.Value -> string * Z;
  (** The value that [ast.Const(value, (nbits, signed))] stores. *)
  Const_normalize : ast.const_value -> Z -> bool -> ast.const_value;
  (** The signedness that [ast.Const(value, nbits)] picks. *)
  Const_sign : ast.const_value -> bool
}.

(** [src]. *)
Definition src (src_loc : string * Z) : string :=
  fst src_loc +:+ ":" +:+ str_int (snd src_loc).

(** ** [_ValueCompilerState] *)

Record _ValueCompilerState : Type := mk_ValueCompilerState {
  rtlil : _ModuleBuilder;
  wires : gmap nat (string * option string);
  driven : gmap nat bool;
  ports : gmap nat (Z * string);
  sub_name : option string
}.

(** [_ValueCompilerState.__init__]. *)
Definition _ValueCompilerState_init (rtlil : _ModuleBuilder) : _ValueCompilerState :=
  {| rtlil := rtlil; wires := ∅; driven := ∅; ports := ∅; sub_name := None |}.

Definition set_rtlil (m : _ModuleBuilder) (s : _ValueCompilerState) : _ValueCompilerState :=
  {| rtlil := m; wires := wires s; driven := driven s; ports := ports s;
     sub_name := sub_name s |}.

Definition set_wires (w : gmap nat (string * option string)) (s : _ValueCompilerState)
  : _ValueCompilerState :=
  {| rtlil := rtlil s; wires := w; driven := driven s; ports := ports s;
     sub_name := sub_name s |}.

Definition set_driven (d : gmap nat bool) (s : _ValueCompilerState) : _ValueCompilerState :=
  {| rtlil := rtlil s; wires := wires s; driven := d; ports := ports s;
     sub_name := sub_name s |}.

Definition set_ports (p : gmap nat (Z * string)) (s : _ValueCompilerState)
  : _ValueCompilerState :=
  {| rtlil := rtlil s; wires := wires s; driven := driven s; ports := p;
     sub_name := sub_name s |}.

Definition set_sub_name (n : option string) (s : _ValueCompilerState) : _ValueCompilerState :=
  {| rtlil := rtlil s; wires := wires s; driven := driven s; ports := ports s;
     sub_name := n |}.

(** A method of [self.rtlil], called through the compiler state. *)
Definition on_rtlil {A} (m : M _ModuleBuilder A) : M _ValueCompilerState A :=
  zoom rtlil set_rtlil m.

(** [_ValueCompilerState.add_driven]. *)
Definition add_driven (signal : ast.Signal) (sync : bool) : M _ValueCompilerState unit :=
  modify (fun self => set_driven (<[ast.sid signal := sync]> (driven self)) self).

(** [_ValueCompilerState.add_port]. *)
Definition add_port (signal : ast.Signal) (kind : string) : M _ValueCompilerState unit :=
  let* kind := (if String.eqb kind "i" then ret "input"
           else if String.eqb kind "o" then ret "output"
           else if String.eqb kind "io" then ret "inout"
           else raise AssertionError) in
  modify (fun self =>
    set_ports (<[ast.sid signal := (Z.of_nat (size (ports self)), kind)]> (ports self)) self).

(** [_ValueCompilerState.resolve]. *)
Definition resolve (signal : ast.Signal) : M _ValueCompilerState (string * option string) :=
  let* self := get in
  match wires self !! ast.sid signal with
  | Some w => ret w
  | None =>
      let port := ports self !! ast.sid signal in
      let wire_name :=
        match sub_name self with
        | Some sub =>
            if truthy sub then sub +:+ "_" +:+ ast.name signal else ast.name signal
        | None => ast.name signal
        end in
      for_ (fun a => on_rtlil (_ModuleBuilder_attribute (fst a) (snd a))) (ast.attrs signal) ;;
      let* wire_curr := on_rtlil (_ModuleBuilder_wire (ast.nbits signal) port (Some wire_name)
                               (src (ast.src_loc signal))) in
      let* wire_next := match driven self !! ast.sid signal with
                   | Some _ =>
                       let* w := on_rtlil (_ModuleBuilder_wire (ast.nbits signal) None
                                             (Some (wire_curr +:+ dollar +:+ "next"))
                                             (src (ast.src_loc signal))) in
                       ret (Some w)
                   | None => ret None
                   end in
      modify (fun self =>
        set_wires (<[ast.sid signal := (wire_curr, wire_next)]> (wires self)) self) ;;
      ret (wire_curr, wire_next)
  end.

(** [_ValueCompilerState.resolve_curr]. *)
Definition resolve_curr (signal : ast.Signal) : M _ValueCompilerState string :=
  let* w := resolve signal in
  ret (fst w).

(** [_ValueCompilerState.hierarchy], around a body: the prefix is set for
    the body and cleared after it. *)
Definition hierarchy {A} (sub : string) (body : M _ValueCompilerState A)
  : M _ValueCompilerState A :=
  modify (set_sub_name (Some sub)) ;;
  let* r := body in
  modify (set_sub_name None) ;;
  ret r.

(** ** The value compilers *)

(** The port names of the primitive cells. *)
Definition port_A : string := backslash +:+ "A".
Definition port_B : string := backslash +:+ "B".
Definition port_S : string := backslash +:+ "S".
Definition port_Y : string := backslash +:+ "Y".

(** [_RHSValueCompiler.operator_map]. *)
Definition operator_map : list ((Z * string) * string) :=
  [ ((1, "~"), "$not");
    ((1, "-"), "$neg");
    ((1, "b"), "$reduce_bool");
    ((2, "+"), "$add");
    ((2, "-"), "$sub");
    ((2, "*"), "$mul");
    ((2, "/"), "$div");
    ((2, "%"), "$mod");
    ((2, "**"), "$pow");
    ((2, "<<"), "$sshl");
    ((2, ">>"), "$sshr");
    ((2, "&"), "$and");
    ((2, "^"), "$xor");
    ((2, "|"), "$or");
    ((2, "=="), "$eq");
    ((2, "!="), "$ne");
    ((2, "<"), "$lt");
    ((2, "<="), "$le");
    ((2, ">"), "$gt");
    ((2, ">="), "$ge");
    ((3, "m"), "$mux") ].

Section ValueCompiler.

Context `{Frontend}.

(** [len(value)]. *)
Definition len (value : ast.Value) : Z := fst (shape value).

(** [ast.Const(value, (nbits, signed))]. *)
Definition Const_shaped (value : ast.const_value) (nbits : Z) (signed : bool) : ast.Value :=
  ast.Const (Const_normalize value nbits signed) nbits signed.

(** [ast.Const(value, nbits)]. *)
Definition Const_width (value : Z) (nbits : Z) : ast.Value :=
  Const_shaped (ast.ConstInt value) nbits (Const_sign (ast.ConstInt value)).

(** The compilers are written over [self], the dispatching call
    [self(value)] of [AbstractValueTransformer]. *)
Section Methods.

Variable self : ast.Value -> M _ValueCompilerState string.

(** [_ValueCompiler.on_Slice]. *)
Definition on_Slice (value : ast.Value) (start stop : Z) : M _ValueCompilerState string :=
  if (start =? 0) && (stop =? len value) then
    self value
  else if start + 1 =? stop then
    let* w := self value in
    ret (w +:+ " [" +:+ str_int start +:+ "]")
  else
    let* w := self value in
    ret (w +:+ " [" +:+ str_int (stop - 1) +:+ ":" +:+ str_int start +:+ "]").

(** [_ValueCompiler.on_Cat]. *)
Definition on_Cat (operands : list ast.Value) : M _ValueCompilerState string :=
  let* ws := for_each self operands in
  ret ("{ " +:+ Py.join " " (rev ws) +:+ " }").


(** *** [_RHSValueCompiler] *)

(** [_RHSValueCompiler.on_Const]. *)
Definition RHS_on_Const (value : ast.const_value) (nbits : Z) : string :=
  match value with
  | ast.ConstStr v => str_int nbits +:+ "'" +:+ v
  | ast.ConstInt v => str_int nbits +:+ "'" +:+ format_b v
  end.

(** [_RHSValueCompiler.on_Signal]. *)
Definition RHS_on_Signal (value : ast.Signal) : M _ValueCompilerState string :=
  let* w := resolve value in
  ret (fst w).

(** [operator_map[(arity, op)]]. *)
Definition operator_map_get (arity : Z) (op : string) : M _ValueCompilerState string :=
  match find (fun e => (fst (fst e) =? arity) && String.eqb (snd (fst e)) op) operator_map with
  | Some e => ret (snd e)
  | None => raise KeyError
  end.

(** [_RHSValueCompiler.on_Operator_unary]; [value] is the operator node
    and [arg] its only operand. *)
Definition on_Operator_unary (value : ast.Value) (op : string) (arg : ast.Value)
  : M _ValueCompilerState string :=
  let '(arg_bits, arg_sign) := shape arg in
  let '(res_bits, res_sign) := shape value in
  let* res := on_rtlil (_ModuleBuilder_wire res_bits None None "") in
  let* kind := operator_map_get 1 op in
  let* a := self arg in
  on_rtlil (_ModuleBuilder_cell kind None
              [("A_SIGNED", ParamBool arg_sign);
               ("A_WIDTH", ParamInt arg_bits);
               ("Y_WIDTH", ParamInt res_bits)]
              [(port_A, a); (port_Y, res)]
              (src (value_src_loc value))) ;;
  ret res.

(** [_RHSValueCompiler.match_shape].  The two calls of [self] on a node
    built here are written as the method they dispatch to
    (see [rhs_compiler_Const_shaped] and [rhs_compiler_Slice]). *)
Definition match_shape (value : ast.Value) (new_bits : Z) (new_sign : bool)
  : M _ValueCompilerState string :=
  match value with
  | ast.Const v _ _ => ret (RHS_on_Const (Const_normalize v new_bits new_sign) new_bits)
  | _ =>
      let '(value_bits, value_sign) := shape value in
      if new_bits <=? value_bits then
        on_Slice value 0 new_bits
      else
        let* res := on_rtlil (_ModuleBuilder_wire new_bits None None "") in
        let* a := self value in
        on_rtlil (_ModuleBuilder_cell "$pos" None
                    [("A_SIGNED", ParamBool value_sign);
                     ("A_WIDTH", ParamInt value_bits);
                     ("Y_WIDTH", ParamInt new_bits)]
                    [(port_A, a); (port_Y, res)]
                    (src (value_src_loc value))) ;;
        ret res
  end.

(** [_RHSValueCompiler.on_Operator_binary]. *)
Definition on_Operator_binary (value : ast.Value) (op : string) (lhs rhs : ast.Value)
  : M _ValueCompilerState string :=
  let '(lhs_bits, lhs_sign) := shape lhs in
  let '(rhs_bits, rhs_sign) := shape rhs in
  let* operands :=
    (if Bool.eqb lhs_sign rhs_sign then
       let* lhs_wire := self lhs in
       let* rhs_wire := self rhs in
       ret (lhs_bits, lhs_sign, rhs_bits, rhs_sign, lhs_wire, rhs_wire)
     else
       let lhs_sign := true in
       let rhs_sign := true in
       let rhs_bits := Z.max lhs_bits rhs_bits in
       let lhs_bits := rhs_bits in
       let* lhs_wire := match_shape lhs lhs_bits lhs_sign in
       let* rhs_wire := match_shape rhs rhs_bits rhs_sign in
       ret (lhs_bits, lhs_sign, rhs_bits, rhs_sign, lhs_wire, rhs_wire)) in
  let '(lhs_bits, lhs_sign, rhs_bits, rhs_sign, lhs_wire, rhs_wire) := operands in
  let '(res_bits, res_sign) := shape value in
  let* res := on_rtlil (_ModuleBuilder_wire res_bits None None "") in
  let* kind := operator_map_get 2 op in
  on_rtlil (_ModuleBuilder_cell kind None
              [("A_SIGNED", ParamBool lhs_sign);
               ("A_WIDTH", ParamInt lhs_bits);
               ("B_SIGNED", ParamBool rhs_sign);
               ("B_WIDTH", ParamInt rhs_bits);
               ("Y_WIDTH", ParamInt res_bits)]
              [(port_A, lhs_wire); (port_B, rhs_wire); (port_Y, res)]
              (src (value_src_loc value))) ;;
  ret res.

(** [_RHSValueCompiler.on_Operator_mux]. *)
Definition on_Operator_mux (value sel lhs rhs : ast.Value) : M _ValueCompilerState string :=
  let '(lhs_bits, lhs_sign) := shape lhs in
  let '(rhs_bits, rhs_sign) := shape rhs in
  let '(res_bits, res_sign) := shape value in
  let res_bits := Z.max (Z.max lhs_bits rhs_bits) res_bits in
  let rhs_bits := res_bits in
  let lhs_bits := rhs_bits in
  let* lhs_wire := match_shape lhs lhs_bits lhs_sign in
  let* rhs_wire := match_shape rhs rhs_bits rhs_sign in
  let* res := on_rtlil (_ModuleBuilder_wire res_bits None None "") in
  let* s := self sel in
  on_rtlil (_ModuleBuilder_cell "$mux" None
              [("WIDTH", ParamInt res_bits)]
              [(port_A, lhs_wire); (port_B, rhs_wire); (port_S, s); (port_Y, res)]
              (src (value_src_loc value))) ;;
  ret res.

(** [_RHSValueCompiler.on_Operator]. *)
Definition RHS_on_Operator (value : ast.Value) (op : string) (operands : list ast.Value)
  : M _ValueCompilerState string :=
  match operands with
  | [arg] => on_Operator_unary value op arg
  | [lhs; rhs] => on_Operator_binary value op lhs rhs
  | [sel; lhs; rhs] =>
      if String.eqb op "m" then on_Operator_mux value sel lhs rhs
      else raise AssertionError
  | _ => raise TypeError
  end.

(** [_RHSValueCompiler.on_Repl]: the operand is lowered once per copy. *)
Definition RHS_on_Repl (value : ast.Value) (count : Z) : M _ValueCompilerState string :=
  let* ws := for_each (fun _ : unit => self value) (replicate (Z.to_nat count) tt) in
  ret ("{ " +:+ Py.join " " ws +:+ " }").

(** *** [_LHSValueCompiler] *)

(** [_LHSValueCompiler.on_Signal]. *)
Definition LHS_on_Signal (value : ast.Signal) : M _ValueCompilerState string :=
  let* w := resolve value in
  match snd w with
  | None => raise ValueError
  | Some wire_next => ret wire_next
  end.

End Methods.

(** [_RHSValueCompiler.__call__]: the dispatch of
    [AbstractValueTransformer.on_value] on the kind of the node. *)
Fixpoint rhs_compiler (value : ast.Value) {struct value} : M _ValueCompilerState string :=
  match value with
  | ast.Const v nbits _ => ret (RHS_on_Const v nbits)
  | ast.Sig signal => RHS_on_Signal signal
  | ast.ClockSignal _ => raise NotImplementedError
  | ast.ResetSignal _ => raise NotImplementedError
  | ast.Operator op operands => RHS_on_Operator rhs_compiler value op operands
  | ast.Slice v start stop => on_Slice rhs_compiler v start stop
  | ast.Part _ _ _ => raise NotImplementedError
  | ast.Cat operands => on_Cat rhs_compiler operands
  | ast.Repl v count => RHS_on_Repl rhs_compiler v count
  | ast.ArrayProxy _ _ => raise NotImplementedError
  end.

(** [_LHSValueCompiler.__call__]: [on_Slice] and [on_Cat] are inherited from
    [_ValueCompiler]. *)
Fixpoint lhs_compiler (value : ast.Value) {struct value} : M _ValueCompilerState string :=
  match value with
  | ast.Const _ _ _ => raise TypeError
  | ast.Sig signal => LHS_on_Signal signal
  | ast.ClockSignal _ => raise NotImplementedError
  | ast.ResetSignal _ => raise NotImplementedError
  | ast.Operator _ _ => raise TypeError
  | ast.Slice v start stop => on_Slice lhs_compiler v start stop
  | ast.Part _ _ _ => raise NotImplementedError
  | ast.Cat operands => on_Cat lhs_compiler operands
  | ast.Repl _ _ => raise TypeError
  | ast.ArrayProxy _ _ => raise NotImplementedError
  end.

(** [_ValueCompiler.on_unknown] answers [None] for [None] (the reset of a
    domain without reset). *)
Definition rhs_compiler_opt (value : option ast.Signal)
  : M _ValueCompilerState (option string) :=
  match value with
  | None => ret None
  | Some signal => let* w := rhs_compiler (ast.Sig signal) in ret (Some w)
  end.

(** ** [convert_fragment] *)

(** [name or default]. *)
Definition or_default (name : option string) (default : string) : string :=
  match name with
  | Some n => if truthy n then n else default
  | None => default
  end.

(** [fragment.domains[domain]]. *)
Definition domains_get {S} (fragment : ir.Fragment) (domain : string) : M S ir.ClockDomain :=
  fun s => match dict_get domain (ir.domains fragment) with
           | Ok cd => Ok (cd, s)
           | Raise e => Raise e
           end.

(** Lines 454-455: every driven signal is registered. *)
Definition register_drivers (fragment : ir.Fragment) : M _ValueCompilerState unit :=
  for_ (fun ds : option string * ast.Signal =>
          add_driven (snd ds) (match fst ds with Some _ => true | None => false end))
       (ir.iter_drivers fragment).

(** Lines 459-461: the ports are registered and lowered. *)
Definition lower_ports (fragment : ir.Fragment) : M _ValueCompilerState unit :=
  for_ (fun p : ast.Signal * string =>
          add_port (fst p) (snd p) ;;
          let* _ := rhs_compiler (ast.Sig (fst p)) in
          ret tt)
       (ir.ports fragment).

(** Lines 465-468: the clock and the reset of every synchronous driver. *)
Definition lower_clocks (fragment : ir.Fragment) : M _ValueCompilerState unit :=
  for_ (fun ds : string * ast.Signal =>
          let* cd := domains_get fragment (fst ds) in
          let* _ := rhs_compiler (ast.Sig (ir.clk cd)) in
          let* _ := rhs_compiler_opt (ir.rst cd) in
          ret tt)
       (ir.iter_sync fragment).

(** Lines 476-479: the cell that instantiates a converted subfragment. *)
Definition instantiate (sub_name : string) (sub_port_map : list (string * ast.Signal))
  : M _ValueCompilerState unit :=
  hierarchy sub_name
    (let* ports := for_each (fun ps : string * ast.Signal =>
                          let* w := rhs_compiler (ast.Sig (snd ps)) in
                          ret (fst ps, w))
                       sub_port_map in
     let* _ := on_rtlil (_ModuleBuilder_cell sub_name (Some sub_name) []
                      (dict_update [] ports) "") in
     ret tt).

(** The two objects a statement is lowered into: the compiler state (with
    the module) and the process. *)
Definition Scope : Type := (_ValueCompilerState * _ProcessBuilder)%type.

(** Lines 485-490: the default of every driven signal. *)
Definition assign_defaults (indent : Z) (fragment : ir.Fragment) : M Scope unit :=
  for_ (fun ds : option string * ast.Signal =>
          let signal := snd ds in
          let prev_value :=
            match fst ds with
            | None => Const_width (ast.reset signal) (ast.nbits signal)
            | Some _ => ast.Sig signal
            end in
          let* lhs := on_fst (lhs_compiler (ast.Sig signal)) in
          let* rhs := on_fst (rhs_compiler prev_value) in
          on_snd (_CaseBuilder_assign indent lhs rhs))
       (ir.iter_drivers fragment).

(** The body of the loop of [_convert_stmts] (lines 495-513); [indent]
    stands for the case builder. *)
Fixpoint _convert_stmt (indent : Z) (stmt : ast.Statement) {struct stmt} : M Scope unit :=
  match stmt with
  | ast.Assign lhs rhs =>
      let '(lhs_bits, lhs_sign) := shape lhs in
      let '(rhs_bits, rhs_sign) := shape rhs in
      let* rhs_sigspec := (if lhs_bits =? rhs_bits then on_fst (rhs_compiler rhs)
                      else on_fst (match_shape rhs_compiler rhs lhs_bits rhs_sign)) in
      let* lhs_sigspec := on_fst (lhs_compiler lhs) in
      on_snd (_CaseBuilder_assign indent lhs_sigspec rhs_sigspec)
  | ast.Switch test cases =>
      let* cond := on_fst (rhs_compiler test) in
      on_snd (_SwitchBuilder_enter indent cond) ;;
      for_ (fun c : option string * list ast.Statement =>
              let* nested_case := on_snd (_SwitchBuilder_case indent (fst c)) in
              for_ (_convert_stmt nested_case) (snd c))
           cases ;;
      on_snd (_SwitchBuilder_exit indent)
  | ast.OtherStatement => raise TypeError
  end.

(** [_convert_stmts]. *)
Definition _convert_stmts (indent : Z) (stmts : list ast.Statement) : M Scope unit :=
  for_ (_convert_stmt indent) stmts.

(** Lines 519-522: the [init] block. *)
Definition sync_init (fragment : ir.Fragment) : M Scope unit :=
  on_snd (_SyncBuilder_enter "init" None) ;;
  for_ (fun ds : string * ast.Signal =>
          let signal := snd ds in
          let* w := on_fst (resolve signal) in
          let* rhs := on_fst (rhs_compiler (Const_width (ast.reset signal) (ast.nbits signal))) in
          on_snd (_SyncBuilder_update (fst w) (Some rhs)))
       (ir.iter_sync fragment).

(** [resolve_curr] of the reset of a domain.  A domain without reset has
    [rst = None], which has none of the attributes [resolve] reads. *)
Definition resolve_curr_opt (signal : option ast.Signal) : M _ValueCompilerState string :=
  match signal with
  | Some signal => resolve_curr signal
  | None => raise AttributeError
  end.

(** Lines 529-536: the triggers of a domain. *)
Definition triggers_of (fragment : ir.Fragment) (domain : option string)
  : M _ValueCompilerState (list (string * option string)) :=
  match domain with
  | None => ret [("always", None)]
  | Some domain =>
      let* cd := domains_get fragment domain in
      let* clk := resolve_curr (ir.clk cd) in
      if ir.async_reset cd then
        let* rst := resolve_curr_opt (ir.rst cd) in
        ret [("posedge", Some clk); ("posedge", Some rst)]
      else ret [("posedge", Some clk)]
  end.

(** Lines 538-542: one block per trigger. *)
Definition sync_triggers (triggers : list (string * option string))
    (signals : list ast.Signal) : M Scope unit :=
  for_ (fun trigger : string * option string =>
          on_snd (_SyncBuilder_enter (fst trigger) (snd trigger)) ;;
          for_ (fun signal =>
                  let* w := on_fst (resolve signal) in
                  on_snd (_SyncBuilder_update (fst w) (snd w)))
               signals)
       triggers.

(** Lines 528-542: the blocks of every domain. *)
Definition sync_domains (fragment : ir.Fragment) : M Scope unit :=
  for_ (fun ds : option string * list ast.Signal =>
          let* triggers := on_fst (triggers_of fragment (fst ds)) in
          sync_triggers triggers (snd ds))
       (ir.drivers fragment).

(** Lines 481-542: the process of the module. *)
Definition convert_process (fragment : ir.Fragment) : M _ValueCompilerState unit :=
  let* process := on_rtlil (_ModuleBuilder_process None "") in
  fun compiler_state =>
    match (let* _ := on_snd _ProcessBuilder_enter in
           let* _ := assign_defaults 2 fragment in
           let* _ := _convert_stmts 2 (ir.statements fragment) in
           let* _ := sync_init fragment in
           sync_domains fragment) (compiler_state, process) with
    | Ok (_, (compiler_state, process)) =>
        on_rtlil (_ProcessBuilder_exit process) compiler_state
    | Raise e => Raise e
    end.

(** Lines 547-549: the port map. *)
Definition collect_port_map (fragment : ir.Fragment)
  : M _ValueCompilerState (list (string * ast.Signal)) :=
  let* entries := for_each (fun p : ast.Signal * string =>
                         let* w := resolve_curr (fst p) in
                         ret (w, fst p))
                      (ir.ports fragment) in
  ret (dict_update [] entries).

(** Lines 454-542: the body of the [with builder.module(...)] block, over
    the builder and the compiler state of this activation.  [convert_sub]
    is the recursive call of line 475. *)
Definition module_body
    (convert_sub : ir.Fragment * option string ->
                   M _Builder (string * list (string * ast.Signal)))
    (fragment : ir.Fragment) : M (_Builder * _ValueCompilerState) unit :=
  let* _ := on_snd (on_rtlil _ModuleBuilder_enter) in
  let* _ := on_snd (register_drivers fragment) in
  let* _ := on_snd (lower_ports fragment) in
  let* _ := on_snd (lower_clocks fragment) in
  let* _ := for_ (fun sub : ir.Fragment * option string =>
               let* r := on_fst (convert_sub sub) in
               on_snd (instantiate (fst r) (snd r)))
            (ir.subfragments fragment) in
  on_snd (convert_process fragment).

(** [convert_fragment], over the builder that all modules are flushed
    into. *)
Fixpoint convert_fragment (fragment : ir.Fragment) (name : option string) (top : bool)
    {struct fragment} : M _Builder (string * list (string * ast.Signal)) :=
  let* module := _Builder_module (Some (or_default name "anonymous"))
              (if top then [("top", AttrInt 1)] else []) in
  fun builder =>
    match module_body (fun sub => convert_fragment (fst sub) (snd sub) false) fragment
            (builder, _ValueCompilerState_init module) with
    | Ok (_, (builder, compiler_state)) =>
        match _ModuleBuilder_exit (rtlil compiler_state) builder with
        | Ok (_, builder) =>
            match collect_port_map fragment compiler_state with
            | Ok (port_map, _) =>
                Ok ((module_name (rtlil compiler_state), port_map), builder)
            | Raise e => Raise e
            end
        | Raise e => Raise e
        end
    | Raise e => Raise e
    end.


End ValueCompiler.

(** * What the specification states, as predicates on runs *)

(** ** The identifier allocator *)

(** A sequence of [allocate] calls on one scope: each request is the
    requested name, if any, and the [local] flag. *)
Definition allocate_all (requests : list (option string * bool)) : M _Namer (list string) :=
  for_each (fun r => _make_name (fst r) (snd r)) requests.

(** The one request that [_make_name] cannot serve: a non-local empty name,
    whose first character it reads. *)
Definition unindexable (name : option string) (local : bool) : Prop :=
  name = Some EmptyString ∧ local = false.

(** The value a run returns, without the state it leaves. *)
Definition returned {S A} (r : Result (A * S)) : Result A :=
  match r with
  | Ok (a, _) => Ok a
  | Raise e => Raise e
  end.

(** ** The lines of the RTLIL text *)

(** A line of the text: the indentation, the words separated by single
    spaces, the end of the line. *)
Definition rtlil_line (indent : nat) (words : list string) : string :=
  Py.join "" (replicate indent " ") +:+ Py.join " " words +:+ newline.

(** A string between quotes, the quotes it holds escaped. *)
Definition quoted (s : string) : string := quote +:+ escape_quotes s +:+ quote.

(** The line that gives an attribute to the object declared next. *)
Definition attribute_line (indent : nat) (name : string) (value : attr_value) : string :=
  rtlil_line indent
    ["attribute"; backslash +:+ name;
     match value with
     | AttrStr v => quoted v
     | AttrInt v => str_int v
     end].

(** The [src] attribute of an object of a module: the file and the line of
    the design that it comes from. *)
Definition src_line (src_loc : string * Z) : string :=
  attribute_line 2 "src" (AttrStr (fst src_loc +:+ ":" +:+ str_int (snd src_loc))).

(** The declaration of a wire, and of a wire that is a port. *)
Definition wire_line (width : Z) (name : string) : string :=
  rtlil_line 2 ["wire"; "width"; str_int width; name].

Definition port_line (width : Z) (kind : string) (port_id : Z) (name : string) : string :=
  rtlil_line 2 ["wire"; "width"; str_int width; kind; str_int port_id; name].

(** The lines of a cell: its kind and name, its parameters, its
    connections, its end. *)
Definition cell_lines (kind name : string) (params : list (string * Z))
    (connects : list (string * string)) : list string :=
  [rtlil_line 2 ["cell"; kind; name]]
    ++ map (fun p => rtlil_line 4 ["parameter"; backslash +:+ fst p; str_int (snd p)]) params
    ++ map (fun c => rtlil_line 4 ["connect"; fst c; snd c]) connects
    ++ [rtlil_line 2 ["end"]].

(** An assignment in a case, [indent] levels deep. *)
Definition assign_line (indent : Z) (lhs rhs : string) : string :=
  rtlil_line (2 * Z.to_nat indent) ["assign"; lhs; rhs].

(** The head of an edge-triggered block, and an update in it. *)
Definition sync_line (trigger : list string) : string := rtlil_line 4 ("sync" :: trigger).

Definition update_line (wire_curr wire_next : string) : string :=
  rtlil_line 6 ["update"; wire_curr; wire_next].

(** The literal of a constant: the declared width, a quote, and the value,
    in binary digits when it is an integer. *)
Definition literal (value : ast.const_value) (nbits : Z) : string :=
  str_int nbits +:+ "'"
    +:+ match value with
        | ast.ConstInt v => format_b v
        | ast.ConstStr v => v
        end.

(** The select of the bits [start] to [stop - 1] of a reference [width] bits
    wide: the reference itself when these are all of its bits, one index for
    a single bit, a range otherwise. *)
Definition select (reference : string) (width start stop : Z) : string :=
  if (start =? 0) && (stop =? width) then reference
  else if start + 1 =? stop then reference +:+ " [" +:+ str_int start +:+ "]"
  else reference +:+ " [" +:+ str_int (stop - 1) +:+ ":" +:+ str_int start +:+ "]".

(** ** Invariants of a compiler state *)

(** The names registered in the module of a compiler state. *)
Definition names_of (st : _ValueCompilerState) : gset string :=
  _names (module_namer (rtlil st)).

(** The port kinds that [wire] accepts. *)
Definition port_kinds : list string := ["input"; "output"; "inout"].

(** A compiler state as [convert_fragment] keeps it: the wires of the
    resolved signals are registered names, two signals never share a current
    wire, a resolved signal has a next wire exactly when it is registered as
    driven, and every port has one of the three kinds. *)
Record wf_state (st : _ValueCompilerState) : Prop := mk_wf_state {
  wf_registered : forall sid w, wires st !! sid = Some w ->
    fst w ∈ names_of st ∧ (forall n, snd w = Some n -> n ∈ names_of st);
  wf_distinct : forall sid1 sid2 w1 w2,
    wires st !! sid1 = Some w1 -> wires st !! sid2 = Some w2 -> fst w1 = fst w2 -> sid1 = sid2;
  wf_next : forall sid w, wires st !! sid = Some w ->
    (is_Some (snd w) <-> is_Some (driven st !! sid));
  wf_port_kind : forall sid p, ports st !! sid = Some p -> In (snd p) port_kinds
}.

(** A later state of the same activation: every resolved signal keeps its
    wires, the driven signals are the same, names are only added, text is
    only appended. *)
Record extends (st st' : _ValueCompilerState) : Prop := mk_extends {
  ext_wires : wires st ⊆ wires st';
  ext_driven : driven st' = driven st;
  ext_names : names_of st ⊆ names_of st';
  ext_buffer : module_buffer (rtlil st) `prefix_of` module_buffer (rtlil st');
  ext_module_name : module_name (rtlil st') = module_name (rtlil st);
  ext_wf : wf_state st -> wf_state st'
}.

(** A method that only extends the compiler state it runs in. *)
Definition extending {A} (m : M _ValueCompilerState A) : Prop :=
  forall st a st', m st = Ok (a, st') -> extends st st'.

(** A method over a compiler state and a process that only extends the
    compiler state. *)
Definition extending_scope {A} (m : M Scope A) : Prop :=
  forall sc a sc', m sc = Ok (a, sc') -> extends (fst sc) (fst sc').

(** Every signal of every driven group is registered as driven. *)
Definition drivers_registered (fragment : ir.Fragment) (st : _ValueCompilerState) : Prop :=
  forall ds signal, ds ∈ ir.drivers fragment -> signal ∈ snd ds ->
    is_Some (driven st !! ast.sid signal).

(** ** The text of a declaration *)

(** The text that the first [resolve] of a signal writes: its attributes,
    its current wire and, when it has one, its next wire. *)
Definition declaration_text (signal : ast.Signal) (port : option (Z * string))
    (w : string * option string) : list string :=
  map (fun a => attribute_text (fst a) (snd a)) (ast.attrs signal)
    ++ _src (src (ast.src_loc signal)) ++ [wire_text (ast.nbits signal) port (fst w)]
    ++ match snd w with
       | Some wire_next =>
           _src (src (ast.src_loc signal)) ++ [wire_text (ast.nbits signal) None wire_next]
       | None => []
       end.

(** The lines of the declaration of a signal: its attributes, then its
    current wire, a port line when the signal is a port, and its next wire
    when it has one, each behind the [src] attribute of the signal. *)
Definition declaration_lines (signal : ast.Signal) (port : option (Z * string))
    (w : string * option string) : list string :=
  map (fun a => attribute_line 2 (fst a) (snd a)) (ast.attrs signal)
    ++ [src_line (ast.src_loc signal);
        match port with
        | None => wire_line (ast.nbits signal) (fst w)
        | Some (port_id, port_kind) => port_line (ast.nbits signal) port_kind port_id (fst w)
        end]
    ++ match snd w with
       | Some wire_next =>
           [src_line (ast.src_loc signal); wire_line (ast.nbits signal) wire_next]
       | None => []
       end.

(** ** Operators *)

(** The parameters of the cell of a binary operator. *)
Definition binary_params (a_sign : bool) (a_width : Z) (b_sign : bool) (b_width : Z)
    (y_width : Z) : list (string * param_value) :=
  [("A_SIGNED", ParamBool a_sign); ("A_WIDTH", ParamInt a_width);
   ("B_SIGNED", ParamBool b_sign); ("B_WIDTH", ParamInt b_width);
   ("Y_WIDTH", ParamInt y_width)].

(** The module text ends with the cell of a binary operator that declares
    one width and one signedness for both of its operands. *)
Definition binary_operands_agree (st' : _ValueCompilerState) (res : string) : Prop :=
  exists pre kind name sign width y_width a b,
    module_buffer (rtlil st')
    = pre ++ cell_text kind name (binary_params sign width sign width y_width)
               [(port_A, a); (port_B, b); (port_Y, res)].

Section Statements.

Context `{Frontend}.

(** [value] lowered from [st] as a reference [new_bits] bits wide.  A
    constant is written as the literal of its value at the new width and
    signedness.  A value at least as wide is lowered as it is and its low
    [new_bits] bits are selected.  A narrower value is extended: a fresh wire
    [w], [new_bits] bits wide, is declared, the value is lowered, and a
    [$pos] cell takes it at its own width and signedness and drives [w]. *)
Definition coerced (value : ast.Value) (new_bits : Z) (new_sign : bool)
    (st : _ValueCompilerState) (w : string) (st' : _ValueCompilerState) : Prop :=
  match value with
  | ast.Const v _ _ => st' = st ∧ w = literal (Const_normalize v new_bits new_sign) new_bits
  | _ =>
      if new_bits <=? fst (shape value) then
        exists operand,
          rhs_compiler value st = Ok (operand, st')
          ∧ w = select operand (fst (shape value)) 0 new_bits
      else
        exists st1 operand st2 name,
          (w ∉ names_of st)
          ∧ wires st1 = wires st
          ∧ module_buffer (rtlil st1) = module_buffer (rtlil st) ++ [wire_line new_bits w]
          ∧ rhs_compiler value st1 = Ok (operand, st2)
          ∧ module_buffer (rtlil st')
            = module_buffer (rtlil st2) ++ [src_line (value_src_loc value)]
                ++ cell_lines "$pos" name
                     [("A_SIGNED", int_of_bool (snd (shape value)));
                      ("A_WIDTH", fst (shape value));
                      ("Y_WIDTH", new_bits)]
                     [(backslash +:+ "A", operand); (backslash +:+ "Y", w)]
  end.

(** What lowering the binary operator [op] on [lhs] and [rhs] does from
    [st]: operands of one signedness are lowered as they are and keep their
    widths; operands of different signedness are both coerced to the wider
    of their two widths, as signed.  Then the result wire is declared and
    the cell of the operator is written: it declares the shapes [a_*] and
    [b_*] for its operands, which have one signedness, and one width when
    the operands were coerced. *)
Definition binary_operands_matched (op : string) (lhs rhs : ast.Value)
    (st : _ValueCompilerState) (res : string) (st' : _ValueCompilerState) : Prop :=
  let width := Z.max (fst (shape lhs)) (fst (shape rhs)) in
  let res_bits := fst (shape (ast.Operator op [lhs; rhs])) in
  exists a_sign a_width b_sign b_width lhs_wire rhs_wire st1 st2 kind name,
    (if Bool.eqb (snd (shape lhs)) (snd (shape rhs)) then
       rhs_compiler lhs st = Ok (lhs_wire, st1)
       ∧ rhs_compiler rhs st1 = Ok (rhs_wire, st2)
       ∧ (a_sign, a_width) = (snd (shape lhs), fst (shape lhs))
       ∧ (b_sign, b_width) = (snd (shape rhs), fst (shape rhs))
     else
       coerced lhs width true st lhs_wire st1
       ∧ coerced rhs width true st1 rhs_wire st2
       ∧ (a_sign, a_width) = (true, width)
       ∧ (b_sign, b_width) = (true, width))
    ∧ In ((2, op), kind) operator_map
    ∧ module_buffer (rtlil st')
      = module_buffer (rtlil st2)
          ++ [wire_line res_bits res; src_line (value_src_loc (ast.Operator op [lhs; rhs]))]
          ++ cell_lines kind name
               [("A_SIGNED", int_of_bool a_sign); ("A_WIDTH", a_width);
                ("B_SIGNED", int_of_bool b_sign); ("B_WIDTH", b_width);
                ("Y_WIDTH", res_bits)]
               [(backslash +:+ "A", lhs_wire); (backslash +:+ "B", rhs_wire);
                (backslash +:+ "Y", res)]
    ∧ a_sign = b_sign
    ∧ (snd (shape lhs) <> snd (shape rhs) -> a_width = b_width).

(** What lowering the mux of [sel], [lhs] and [rhs] does from [st]: both data
    operands are coerced to one width, the widest of the two operands and the
    result, each with its own signedness; then the result wire is declared at
    that width, the selector is lowered, and the [$mux] cell is written with
    that width. *)
Definition mux_operands_matched (op : string) (sel lhs rhs : ast.Value)
    (st : _ValueCompilerState) (res : string) (st' : _ValueCompilerState) : Prop :=
  let width := Z.max (Z.max (fst (shape lhs)) (fst (shape rhs)))
                     (fst (shape (ast.Operator op [sel; lhs; rhs]))) in
  exists lhs_wire rhs_wire s st1 st2 st3 st4 name,
    coerced lhs width (snd (shape lhs)) st lhs_wire st1
    ∧ coerced rhs width (snd (shape rhs)) st1 rhs_wire st2
    ∧ wires st3 = wires st2
    ∧ module_buffer (rtlil st3) = module_buffer (rtlil st2) ++ [wire_line width res]
    ∧ rhs_compiler sel st3 = Ok (s, st4)
    ∧ module_buffer (rtlil st')
      = module_buffer (rtlil st4)
          ++ [src_line (value_src_loc (ast.Operator op [sel; lhs; rhs]))]
          ++ cell_lines "$mux" name [("WIDTH", width)]
               [(backslash +:+ "A", lhs_wire); (backslash +:+ "B", rhs_wire);
                (backslash +:+ "S", s); (backslash +:+ "Y", res)].

(** An assignment whose right-hand side is coerced to the width of the
    left-hand side with [new_sign] as signedness: the right-hand side is
    coerced first, then the left-hand side is lowered, then the [assign]
    line is written. *)
Definition assign_coerced (new_sign : bool) (indent : Z) (lhs rhs : ast.Value)
    (sc sc' : Scope) : Prop :=
  exists rhs_sigspec st1 lhs_sigspec,
    coerced rhs (fst (shape lhs)) new_sign (fst sc) rhs_sigspec st1
    ∧ lhs_compiler lhs st1 = Ok (lhs_sigspec, fst sc')
    ∧ process_buffer (snd sc')
      = process_buffer (snd sc) ++ [assign_line indent lhs_sigspec rhs_sigspec].

(** An assignment lowered with [new_sign] as the signedness of the coercion:
    the right-hand side goes through [match_shape] at the width of the
    left-hand side, then the left-hand side is lowered, then the [assign]
    line is written. *)
Definition assign_lowered_with (new_sign : bool) (indent : Z) (lhs rhs : ast.Value)
    (sc sc' : Scope) : Prop :=
  exists rhs_sigspec st1 lhs_sigspec,
    match_shape rhs_compiler rhs (fst (shape lhs)) new_sign (fst sc) = Ok (rhs_sigspec, st1)
    ∧ lhs_compiler lhs st1 = Ok (lhs_sigspec, fst sc')
    ∧ process_buffer (snd sc')
      = process_buffer (snd sc) ++ [assign_text indent lhs_sigspec rhs_sigspec].

(** The literal of the reset value of a signal, as line 487 builds it. *)
Definition reset_literal (signal : ast.Signal) : string :=
  RHS_on_Const
    (Const_normalize (ast.ConstInt (ast.reset signal)) (ast.nbits signal)
       (Const_sign (ast.ConstInt (ast.reset signal))))
    (ast.nbits signal).

(** The default of a driven signal: its next wire is assigned the reset
    literal in the combinational domain, its current wire otherwise. *)
Definition default_chunk (indent : Z) (st : _ValueCompilerState)
    (ds : option string * ast.Signal) (chunk : string) : Prop :=
  exists wire_curr wire_next,
    wires st !! ast.sid (snd ds) = Some (wire_curr, Some wire_next)
    ∧ chunk = assign_text indent wire_next
                match fst ds with
                | None => reset_literal (snd ds)
                | Some _ => wire_curr
                end.

End Statements.

(** ** The edge-triggered blocks *)

(** One [update] per signal, from its next wire to its current wire. *)
Definition update_chunks (st : _ValueCompilerState) (signals : list ast.Signal)
    (chunks : list string) : Prop :=
  Forall2 (fun signal chunk =>
             exists wire_curr wire_next,
               wires st !! ast.sid signal = Some (wire_curr, Some wire_next)
               ∧ chunk = update_text wire_curr (Some wire_next))
          signals chunks.

(** The block of a trigger: the [sync] line, then the updates. *)
Definition trigger_block (st : _ValueCompilerState) (signals : list ast.Signal)
    (trigger : string * option string) (block : list string) : Prop :=
  exists updates,
    update_chunks st signals updates
    ∧ block = sync_text (fst trigger) (snd trigger) :: updates.

(** The triggers of a domain: [always] for the combinational domain; the
    positive edge of the clock, and of the reset when it is asynchronous,
    for a synchronous domain. *)
Definition domain_triggers (fragment : ir.Fragment) (st : _ValueCompilerState)
    (domain : option string) (triggers : list (string * option string)) : Prop :=
  match domain with
  | None => triggers = [("always", None)]
  | Some d =>
      exists cd clk clk_next,
        dict_get d (ir.domains fragment) = Ok cd
        ∧ wires st !! ast.sid (ir.clk cd) = Some (clk, clk_next)
        ∧ if ir.async_reset cd then
            exists rst_signal rst rst_next,
              ir.rst cd = Some rst_signal
              ∧ wires st !! ast.sid rst_signal = Some (rst, rst_next)
              ∧ triggers = [("posedge", Some clk); ("posedge", Some rst)]
          else triggers = [("posedge", Some clk)]
  end.

(** The blocks of a domain: one per trigger. *)
Definition domain_blocks (fragment : ir.Fragment) (st : _ValueCompilerState)
    (ds : option string * list ast.Signal) (chunks : list string) : Prop :=
  exists triggers blocks,
    domain_triggers fragment st (fst ds) triggers
    ∧ Forall2 (trigger_block st (snd ds)) triggers blocks
    ∧ chunks = concat blocks.

(** The block of a trigger, as it is written: the [sync] line of the
    trigger, then one [update] line per signal of the group, from its next
    wire to its current wire. *)
Definition sync_block (st : _ValueCompilerState) (signals : list ast.Signal)
    (trigger : list string) (block : list string) : Prop :=
  exists updates,
    Forall2 (fun signal line =>
               exists wire_curr wire_next,
                 wires st !! ast.sid signal = Some (wire_curr, Some wire_next)
                 ∧ line = update_line wire_curr wire_next)
            signals updates
    ∧ block = sync_line trigger :: updates.

(** The blocks of a driven group: one [always] block for the combinational
    domain; for a synchronous domain one block on the positive edge of its
    clock, followed by one on the positive edge of its reset exactly when
    the reset is asynchronous. *)
Definition domain_sync_blocks (fragment : ir.Fragment) (st : _ValueCompilerState)
    (ds : option string * list ast.Signal) (blocks : list (list string)) : Prop :=
  match fst ds with
  | None => exists always, sync_block st (snd ds) ["always"] always ∧ blocks = [always]
  | Some d =>
      exists cd clk clk_next posedge_clk,
        dict_get d (ir.domains fragment) = Ok cd
        ∧ wires st !! ast.sid (ir.clk cd) = Some (clk, clk_next)
        ∧ sync_block st (snd ds) ["posedge"; clk] posedge_clk
        ∧ if ir.async_reset cd then
            exists rst_signal rst rst_next posedge_rst,
              ir.rst cd = Some rst_signal
              ∧ wires st !! ast.sid rst_signal = Some (rst, rst_next)
              ∧ sync_block st (snd ds) ["posedge"; rst] posedge_rst
              ∧ blocks = [posedge_clk; posedge_rst]
          else blocks = [posedge_clk]
  end.

(** The text of a driven group: its blocks, one after the other. *)
Definition domain_sync_text (fragment : ir.Fragment) (st : _ValueCompilerState)
    (ds : option string * list ast.Signal) (text : list string) : Prop :=
  exists blocks, domain_sync_blocks fragment st ds blocks ∧ text = concat blocks.

(** ** The port map *)

(** An entry of the port map: the current wire of the port signal in the
    compiler state, and the signal. *)
Definition port_entry (st : _ValueCompilerState) (p : ast.Signal * string)
    (e : string * ast.Signal) : Prop :=
  snd e = fst p ∧ exists wire_next, wires st !! ast.sid (fst p) = Some (fst e, wire_next).

(** ** Induction principles of the design graph *)

(** Induction on expressions, with the operands of a node as hypotheses. *)
Section ValueInduction.
Variable P : ast.Value -> Prop.
Hypothesis HConst : forall v n s, P (ast.Const v n s).
Hypothesis HSig : forall s, P (ast.Sig s).
Hypothesis HClock : forall d, P (ast.ClockSignal d).
Hypothesis HReset : forall d, P (ast.ResetSignal d).
Hypothesis HOperator : forall op operands, Forall P operands -> P (ast.Operator op operands).
Hypothesis HSlice : forall v start stop, P v -> P (ast.Slice v start stop).
Hypothesis HPart : forall v o w, P v -> P o -> P (ast.Part v o w).
Hypothesis HCat : forall operands, Forall P operands -> P (ast.Cat operands).
Hypothesis HRepl : forall v count, P v -> P (ast.Repl v count).
Hypothesis HArray : forall elems index, Forall P elems -> P index -> P (ast.ArrayProxy elems index).

Fixpoint Value_induction (v : ast.Value) : P v :=
  let all := fix all (l : list ast.Value) : Forall P l :=
    match l with
    | [] => @List.Forall_nil _ P
    | x :: l' => @List.Forall_cons _ P x l' (Value_induction x) (all l')
    end in
  match v with
  | ast.Const c n s => HConst c n s
  | ast.Sig s => HSig s
  | ast.ClockSignal d => HClock d
  | ast.ResetSignal d => HReset d
  | ast.Operator op operands => HOperator op operands (all operands)
  | ast.Slice x start stop => HSlice x start stop (Value_induction x)
  | ast.Part x o w => HPart x o w (Value_induction x) (Value_induction o)
  | ast.Cat operands => HCat operands (all operands)
  | ast.Repl x count => HRepl x count (Value_induction x)
  | ast.ArrayProxy elems index => HArray elems index (all elems) (Value_induction index)
  end.
End ValueInduction.

(** Induction on statements, with the statements of every branch of a
    switch as hypotheses. *)
Section StatementInduction.
Variable P : ast.Statement -> Prop.
Hypothesis HAssign : forall lhs rhs, P (ast.Assign lhs rhs).
Hypothesis HSwitch : forall test cases,
  Forall (fun c => Forall P (snd c)) cases -> P (ast.Switch test cases).
Hypothesis HOther : P ast.OtherStatement.

Fixpoint Statement_induction (stmt : ast.Statement) : P stmt :=
  let all := fix all (l : list ast.Statement) : Forall P l :=
    match l with
    | [] => @List.Forall_nil _ P
    | x :: l' => @List.Forall_cons _ P x l' (Statement_induction x) (all l')
    end in
  let all_cases :=
    fix all_cases (cs : list (option string * list ast.Statement))
      : Forall (fun c => Forall P (snd c)) cs :=
      match cs with
      | [] => @List.Forall_nil _ _
      | c :: cs' => @List.Forall_cons _ (fun c => Forall P (snd c)) c cs'
                      (all (snd c)) (all_cases cs')
      end in
  match stmt with
  | ast.Assign lhs rhs => HAssign lhs rhs
  | ast.Switch test cases => HSwitch test cases (all_cases cases)
  | ast.OtherStatement => HOther
  end.
End StatementInduction.

(** ** A front end for the closed examples *)

(** Modelled from the spec: an instance of the absent [hdl.ast] for the
    closed examples.  A constant and a signal have the width and signedness
    they declare (data model of the spec); a slice has the width of its
    range, a concatenation the sum of the widths of its operands, a
    replication the width of its operand times its count, all unsigned; an
    operator is given the width of its widest operand and is signed when one
    of its operands is.  A constant built at a shape keeps its value modulo
    two to the width, negative when signed with the top bit set. *)
Module Example.

(** Modelled from the spec: [Value.shape] of the absent [hdl.ast], the
    declared width and signedness of an expression. *)
Fixpoint example_shape (value : ast.Value) : Z * bool :=
  match value with
  | ast.Const _ nbits signed => (nbits, signed)
  | ast.Sig signal => (ast.nbits signal, ast.signed signal)
  | ast.ClockSignal _ => (1, false)
  | ast.ResetSignal _ => (1, false)
  | ast.Operator _ operands =>
      fold_right (fun v acc => (Z.max (fst (example_shape v)) (fst acc),
                                snd (example_shape v) || snd acc))
                 (0, false) operands
  | ast.Slice _ start stop => (stop - start, false)
  | ast.Part _ _ width => (width, false)
  | ast.Cat operands =>
      (fold_right (fun v acc => fst (example_shape v) + acc) 0 operands, false)
  | ast.Repl v count => (fst (example_shape v) * count, false)
  | ast.ArrayProxy elems _ =>
      fold_right (fun v acc => (Z.max (fst (example_shape v)) (fst acc),
                                snd (example_shape v) || snd acc))
                 (0, false) elems
  end.

(** Modelled from the spec: the [src_loc] attribute of the absent
    [hdl.ast], the source location passed through to the text. *)
Definition example_src_loc (value : ast.Value) : string * Z :=
  match value with
  | ast.Sig signal => ast.src_loc signal
  | _ => ("design.py", 1)
  end.

(** Modelled from the spec: the value a constant of the absent [hdl.ast]
    holds once it is given a shape, its value modulo two to the width, read
    as negative when the shape is signed and the top bit is set. *)
Definition example_normalize (value : ast.const_value) (nbits : Z) (signed : bool)
  : ast.const_value :=
  match value with
  | ast.ConstStr v => ast.ConstStr v
  | ast.ConstInt v =>
      let v := v mod 2 ^ nbits in
      if signed && (0 <? nbits) && (2 ^ (nbits - 1) <=? v) then ast.ConstInt (v - 2 ^ nbits)
      else ast.ConstInt v
  end.

(** Modelled from the spec: the signedness a constant of the absent
    [hdl.ast] takes when only a width is given, that of its value. *)
Definition example_sign (value : ast.const_value) : bool :=
  match value with
  | ast.ConstInt v => v <? 0
  | ast.ConstStr _ => false
  end.

#[export] Instance frontend : Frontend :=
  {| shape := example_shape;
     value_src_loc := example_src_loc;
     Const_normalize := example_normalize;
     Const_sign := example_sign |}.

(** Unsigned signals without attributes, declared on the line [100 + sid]
    of [design.py]. *)
Definition signal (sid : nat) (name : string) (nbits : Z) (signed : bool) (reset : Z)
  : ast.Signal :=
  {| ast.sid := sid; ast.name := name; ast.nbits := nbits; ast.signed := signed;
     ast.reset := reset; ast.attrs := [];
     ast.src_loc := ("design.py", 100 + Z.of_nat sid) |}.

(** The signals of the examples. *)
Definition S8 : ast.Signal := signal 1 "S" 8 false 5.
Definition a4 : ast.Signal := signal 2 "a" 4 false 0.
Definition b8 : ast.Signal := signal 3 "b" 8 false 0.
Definition c4 : ast.Signal := signal 4 "c" 4 true 0.
Definition s4 : ast.Signal := signal 5 "s" 4 false 0.
Definition P1 : ast.Signal := signal 6 "P" 1 false 0.
Definition clk : ast.Signal := signal 10 "clk" 1 false 0.
Definition rst : ast.Signal := signal 11 "rst" 1 false 0.

Definition t1 : ast.Signal := signal 7 "t" 1 true 0.

(** An unsigned two-bit constant. *)
Definition three : ast.Value := ast.Const (ast.ConstInt 3) 2 false.

(** A module and a process to lower into. *)
Definition top_module : _ModuleBuilder :=
  {| module_namer := _Namer_init; module_buffer := [];
     module_name := backslash +:+ "top"; module_attrs := [] |}.

Definition process0 : _ProcessBuilder :=
  {| process_buffer := []; process_name := "$1"; process_src := "" |}.

(** The compiler state of a fresh module once [signals] are registered as
    driven by the combinational domain. *)
Definition driving (signals : list ast.Signal) : _ValueCompilerState :=
  match for_ (fun s => add_driven s false) signals (_ValueCompilerState_init top_module) with
  | Ok (_, st) => st
  | Raise _ => _ValueCompilerState_init top_module
  end.


(** A fragment with a combinational group and a synchronous group whose
    domain has an asynchronous reset. *)
Definition two_domains : ir.Fragment :=
  {| ir.ports := []; ir.drivers := [(None, [b8]); (Some "sync", [S8; s4])];
     ir.statements := [];
     ir.domains := [("sync", {| ir.clk := clk; ir.rst := Some rst; ir.async_reset := true |})];
     ir.subfragments := [] |}.

(** A fragment whose sole port is the output [P]. *)
Definition sole_port : ir.Fragment :=
  {| ir.ports := [(P1, "o")]; ir.drivers := [(None, [P1])]; ir.statements := [];
     ir.domains := []; ir.subfragments := [] |}.

End Example.

(** * Further predicates *)

(** ** More lines of the text *)

(** The head of a process, of a switch and of a branch of a switch, and the
    [end] line that closes a construct. *)
Definition process_line (name : string) : string := rtlil_line 2 ["process"; name].

Definition end_line (indent : nat) : string := rtlil_line indent ["end"].

Definition switch_line (indent : Z) (cond : string) : string :=
  rtlil_line (2 * Z.to_nat indent) ["switch"; cond].

(** A branch is headed by [case] and the pattern, written as a literal of as
    many bits as it has characters; the default branch has no pattern. *)
Definition case_line (indent : Z) (value : option string) : string :=
  rtlil_line (2 * Z.to_nat (indent + 1))
    ("case" :: match value with
               | Some v => [str_int (Z.of_nat (String.length v)) +:+ "'" +:+ v]
               | None => []
               end).

(** The head of a module. *)
Definition module_line (name : string) : string := rtlil_line 0 ["module"; name].

(** ** Names *)

(** Whether a name starts with one of the two escape markers. *)
Definition starts_with_marker (name : string) : bool :=
  match name with
  | String c _ => is_escape_marker c
  | EmptyString => false
  end.

(** The public form of a name: a name that starts with no marker gets a
    backslash in front. *)
Definition public_name (name : string) : string :=
  if starts_with_marker name then name else backslash +:+ name.

(** The name that [resolve] asks for the current wire of a signal: the name
    of the signal, behind the prefix of the hierarchy when there is one. *)
Definition wire_name (st : _ValueCompilerState) (signal : ast.Signal) : string :=
  match sub_name st with
  | Some sub => if truthy sub then sub +:+ "_" +:+ ast.name signal else ast.name signal
  | None => ast.name signal
  end.

(** ** Ports *)

(** The kind that [add_port] records for a direction, if it accepts it. *)
Definition port_kind_of (direction : string) : option string :=
  if String.eqb direction "i" then Some "input"
  else if String.eqb direction "o" then Some "output"
  else if String.eqb direction "io" then Some "inout"
  else None.

(** ** Binary literals *)

(** The number that a string of binary digits denotes, read from the left
    on top of [acc]; [None] when a character is not a binary digit. *)
Fixpoint int_of_bits (acc : Z) (digits : string) : option Z :=
  match digits with
  | EmptyString => Some acc
  | String c digits' =>
      if Ascii.eqb c "0" then int_of_bits (2 * acc) digits'
      else if Ascii.eqb c "1" then int_of_bits (2 * acc + 1) digits'
      else None
  end.

(** The number that a binary literal denotes: at least one binary digit,
    behind an optional minus sign. *)
Definition binary_value (literal : string) : option Z :=
  match literal with
  | EmptyString => None
  | String c digits =>
      if Ascii.eqb c "-" then
        match digits with
        | EmptyString => None
        | _ => option_map Z.opp (int_of_bits 0 digits)
        end
      else int_of_bits 0 literal
  end.

(** ** What the compilers accept *)

(** A method that returns from some state. *)
Definition succeeds {S A} (m : M S A) : Prop := exists s a s', m s = Ok (a, s').

(** Whether [operator_map] has an entry for the operator [op] at [arity]. *)
Definition known_operator (arity : Z) (op : string) : bool :=
  existsb (fun e => (fst (fst e) =? arity) && String.eqb (snd (fst e)) op) operator_map.

(** The expressions that the read side has a method for, down the operands
    that it lowers: constants, signals, the operators of [operator_map] with
    one or two operands, the mux, slices, concatenations and replications.
    The operand of a replication is not lowered when the count is not
    positive. *)
Fixpoint lowerable (value : ast.Value) : bool :=
  match value with
  | ast.Const _ _ _ => true
  | ast.Sig _ => true
  | ast.ClockSignal _ => false
  | ast.ResetSignal _ => false
  | ast.Operator op operands =>
      match operands with
      | [_] => known_operator 1 op
      | [_; _] => known_operator 2 op
      | [_; _; _] => String.eqb op "m"
      | _ => false
      end && forallb lowerable operands
  | ast.Slice v _ _ => lowerable v
  | ast.Part _ _ _ => false
  | ast.Cat operands => forallb lowerable operands
  | ast.Repl v count => (count <=? 0) || lowerable v
  | ast.ArrayProxy _ _ => false
  end.

(** The expressions that the write side has a method for: signals, and
    slices and concatenations of such expressions. *)
Fixpoint assignable (value : ast.Value) : bool :=
  match value with
  | ast.Sig _ => true
  | ast.Slice v _ _ => assignable v
  | ast.Cat operands => forallb assignable operands
  | _ => false
  end.

(** The signals that an assignment to [value] writes. *)
Fixpoint target_signals (value : ast.Value) : list ast.Signal :=
  match value with
  | ast.Sig signal => [signal]
  | ast.Slice v _ _ => target_signals v
  | ast.Cat operands => flat_map target_signals operands
  | _ => []
  end.

(** The statements that [_convert_stmts] has a branch for, down the
    branches of the switches. *)
Fixpoint convertible (stmt : ast.Statement) : bool :=
  match stmt with
  | ast.Assign lhs rhs => assignable lhs && lowerable rhs
  | ast.Switch test cases =>
      lowerable test && forallb (fun c => forallb convertible (snd c)) cases
  | ast.OtherStatement => false
  end.

(** The signals that a statement assigns, down the branches of the
    switches. *)
Fixpoint assigned_signals (stmt : ast.Statement) : list ast.Signal :=
  match stmt with
  | ast.Assign lhs _ => target_signals lhs
  | ast.Switch _ cases => flat_map (fun c => flat_map assigned_signals (snd c)) cases
  | ast.OtherStatement => []
  end.

Section Accepted.
Context `{Frontend}.

(** The targets of an expression lowered on the write side, from a state of
    [convert_fragment]: each is registered as driven and has its two wires
    in the state the lowering ends in. *)
Definition targets_driven (value : ast.Value) : Prop :=
  forall st r st', wf_state st -> lhs_compiler value st = Ok (r, st') ->
    forall signal, signal ∈ target_signals value ->
      is_Some (driven st !! ast.sid signal)
      ∧ exists wire_curr wire_next,
          wires st' !! ast.sid signal = Some (wire_curr, Some wire_next).

End Accepted.

(** Every signal that a statement assigns, down the branches of the
    switches, is registered as driven in [d]. *)
Definition assigns_driven (d : gmap nat bool) (stmt : ast.Statement) : Prop :=
  forall signal, signal ∈ assigned_signals stmt -> is_Some (d !! ast.sid signal).

(** ** The initial values *)

Section Initial.
Context `{Frontend}.

(** The [update] of the [init] block for a synchronous driven record: the
    current wire of the signal takes the literal of its reset value. *)
Definition init_chunk (st : _ValueCompilerState) (ds : string * ast.Signal) (chunk : string)
  : Prop :=
  exists wire_curr wire_next,
    wires st !! ast.sid (snd ds) = Some (wire_curr, wire_next)
    ∧ chunk = update_line wire_curr
                (literal
                   (Const_normalize (ast.ConstInt (ast.reset (snd ds))) (ast.nbits (snd ds))
                      (Const_sign (ast.ConstInt (ast.reset (snd ds)))))
                   (ast.nbits (snd ds))).

End Initial.

(** ** The text of a switch *)

(** A method over a compiler state and a process that only appends to the
    text of the process. *)
Definition appending {A} (m : M Scope A) : Prop :=
  forall sc a sc', m sc = Ok (a, sc') ->
    process_buffer (snd sc) `prefix_of` process_buffer (snd sc').

Section Switches.
Context `{Frontend}.

(** The block of a branch of a switch: its [case] line, followed by what
    [_convert_stmts] writes for the statements of the branch, two levels
    deeper than the switch. *)
Definition case_block (indent : Z) (c : option string * list ast.Statement)
    (block : list string) : Prop :=
  exists (sc sc' : Scope) (rest : list string),
    _convert_stmts (indent + 2) (snd c) sc = Ok (tt, sc')
    ∧ process_buffer (snd sc') = process_buffer (snd sc) ++ rest
    ∧ block = case_line indent (fst c) :: rest.

End Switches.

(** ** The hierarchy *)

(** The number of fragments of a hierarchy. *)
Fixpoint modules_of (fragment : ir.Fragment) : nat :=
  S (fold_right (fun (sub : ir.Fragment * option string) n => (modules_of (fst sub) + n)%nat)
       0%nat (ir.subfragments fragment)).

(** A later state of a builder: [n] chunks were flushed into it and [n] names
    were registered in it, nothing was taken away. *)
Definition builder_grows (n : nat) (b b' : _Builder) : Prop :=
  (exists chunks, builder_buffer b' = builder_buffer b ++ chunks ∧ length chunks = n)
  ∧ _names (builder_namer b) ⊆ _names (builder_namer b')
  ∧ size (_names (builder_namer b')) = (size (_names (builder_namer b)) + n)%nat.

(** The chunks that [_ModuleBuilder.__enter__] writes. *)
Definition module_header (module : _ModuleBuilder) : list string :=
  map (fun nv => module_attribute_text (fst nv) (snd nv)) (module_attrs module)
    ++ [module_text (module_name module)].

(** Induction on fragments, with the subfragments as hypotheses. *)
Section FragmentInduction.
Variable P : ir.Fragment -> Prop.
Hypothesis HFragment : forall fports fdrivers fstatements fdomains fsubfragments,
  Forall (fun sub : ir.Fragment * option string => P (fst sub)) fsubfragments ->
  P (ir.mkFragment fports fdrivers fstatements fdomains fsubfragments).

Fixpoint Fragment_induction (fragment : ir.Fragment) : P fragment :=
  match fragment with
  | ir.mkFragment fports fdrivers fstatements fdomains fsubfragments =>
      HFragment fports fdrivers fstatements fdomains fsubfragments
        ((fix all (l : list (ir.Fragment * option string))
            : Forall (fun sub => P (fst sub)) l :=
            match l with
            | [] => @List.Forall_nil _ _
            | sub :: l' =>
                @List.Forall_cons _ (fun sub => P (fst sub)) sub l'
                  (Fragment_induction (fst sub)) (all l')
            end) fsubfragments)
  end.
End FragmentInduction.

(** ** More closed examples *)

Module Sample.

(** A fragment with an input port and a driven output port. *)
Definition two_ports : ir.Fragment :=
  {| ir.ports := [(Example.a4, "i"); (Example.P1, "o")];
     ir.drivers := [(None, [Example.P1])]; ir.statements := [];
     ir.domains := []; ir.subfragments := [] |}.

(** A fragment that drives nothing. *)
Definition idle : ir.Fragment :=
  {| ir.ports := []; ir.drivers := []; ir.statements := []; ir.domains := [];
     ir.subfragments := [] |}.

(** A leaf that drives its output port [P] from its input port [a]. *)
Definition child : ir.Fragment :=
  {| ir.ports := [(Example.a4, "i"); (Example.P1, "o")];
     ir.drivers := [(None, [Example.P1])];
     ir.statements :=
       [ast.Switch (ast.Sig Example.a4)
          [(Some "0000", [ast.Assign (ast.Sig Example.P1) (ast.Const (ast.ConstInt 0) 1 false)]);
           (None, [ast.Assign (ast.Sig Example.P1) (ast.Const (ast.ConstInt 1) 1 false)])]];
     ir.domains := []; ir.subfragments := [] |}.

(** A fragment with a register in the domain [sync] and an instance of
    [child]. *)
Definition parent : ir.Fragment :=
  {| ir.ports := [(Example.clk, "i"); (Example.rst, "i")];
     ir.drivers := [(Some "sync", [Example.S8])];
     ir.statements := [ast.Assign (ast.Sig Example.S8) (ast.Sig Example.b8)];
     ir.domains := [("sync", {| ir.clk := Example.clk; ir.rst := Some Example.rst;
                                ir.async_reset := false |})];
     ir.subfragments := [(child, Some "child")] |}.

End Sample.

(** * Properties *)

(** ** Runs in the monad *)

Section MonadFacts.
Context {S A B : Type}.

Lemma bind_Ok (m : M S A) (k : A -> M S B) s r :
  bind m k s = Ok r <-> exists a s', m s = Ok (a, s') /\ k a s' = Ok r.
Proof.
  unfold bind. split.
  - destruct (m s) as [[a s']|e]; [eauto | discriminate].
  - intros (a & s' & -> & Hk). exact Hk.
Qed.

Lemma ret_Ok (a : A) (s : S) r : ret a s = Ok r <-> r = (a, s).
Proof. unfold ret. split; [intros [= <-] | intros ->]; reflexivity. Qed.

Lemma modify_Ok (f : S -> S) (s : S) r : modify f s = Ok r <-> r = (tt, f s).
Proof. unfold modify. split; [intros [= <-] | intros ->]; reflexivity. Qed.

Lemma get_Ok (s : S) r : get s = Ok r <-> r = (s, s).
Proof. unfold get. split; [intros [= <-] | intros ->]; reflexivity. Qed.

Lemma raise_Ok e (s : S) (r : A * S) : raise e s = Ok r <-> False.
Proof. unfold raise. split; [discriminate | tauto]. Qed.

Lemma zoom_Ok {T} (proj : S -> T) (inj : T -> S -> S) (m : M T A) s r :
  zoom proj inj m s = Ok r <-> exists a t, m (proj s) = Ok (a, t) /\ r = (a, inj t s).
Proof.
  unfold zoom. split.
  - destruct (m (proj s)) as [[a t]|e]; [intros [= <-]; eauto | discriminate].
  - intros (a & t & -> & ->). reflexivity.
Qed.
End MonadFacts.

(** ** The lines of the text *)

Lemma append_assoc (s t u : string) : (s +:+ t) +:+ u = s +:+ (t +:+ u).
Proof.
  induction s as [|c s IH]; [reflexivity|].
  change (String c ((s +:+ t) +:+ u) = String c (s +:+ (t +:+ u))). now rewrite IH.
Qed.

Lemma append_empty_r (s : string) : s +:+ "" = s.
Proof.
  induction s as [|c s IH]; [reflexivity|].
  change (String c (s +:+ "") = String c s). now rewrite IH.
Qed.

(** Two texts that differ in the grouping of their parts only. *)
Ltac line_eq :=
  unfold rtlil_line, Py.join; cbn [String.concat replicate Nat.mul Nat.add];
  rewrite ?append_assoc; reflexivity.

Lemma join_empty_cons (x : string) (l : list string) :
  Py.join "" (x :: l) = x +:+ Py.join "" l.
Proof. destruct l; [symmetry; apply append_empty_r | reflexivity]. Qed.

(** [indent] levels of two spaces are twice as many spaces. *)
Lemma str_mul_indent (indent : Z) :
  str_mul "  " indent = Py.join "" (replicate (2 * Z.to_nat indent) " ").
Proof.
  unfold str_mul. induction (Z.to_nat indent) as [|n IH]; [reflexivity|].
  replace (2 * S n)%nat with (S (S (2 * n))) by lia.
  change (replicate (S n) "  ") with ("  " :: replicate n "  ").
  change (replicate (S (S (2 * n))) " ") with (" " :: " " :: replicate (2 * n) " ").
  rewrite !join_empty_cons, IH. reflexivity.
Qed.

Lemma wire_text_line width name : wire_text width None name = wire_line width name.
Proof. unfold wire_text, wire_line. line_eq. Qed.

Lemma wire_text_port width port_id port_kind name :
  wire_text width (Some (port_id, port_kind)) name = port_line width port_kind port_id name.
Proof. unfold wire_text, port_line. line_eq. Qed.

Lemma attribute_text_line name value :
  attribute_text name value = attribute_line 2 name value.
Proof.
  unfold attribute_text, module_attribute_text, attribute_line, quoted.
  destruct value; line_eq.
Qed.

Lemma _src_line src_loc : _src (src src_loc) = [src_line src_loc].
Proof.
  unfold _src. assert (truthy (src src_loc) = true) as ->.
  { unfold src. now destruct (fst src_loc). }
  unfold src_text, src_line, attribute_line, quoted, src. f_equal. line_eq.
Qed.

Lemma cell_text_lines kind name params cports :
  cell_text kind name params cports
  = cell_lines kind name (map (fun p => (fst p, int_of_param (snd p))) params) cports.
Proof.
  unfold cell_text, cell_lines. rewrite map_map.
  assert (Hhead : "  cell " +:+ kind +:+ " " +:+ name +:+ newline
                  = rtlil_line 2 ["cell"; kind; name]) by line_eq.
  assert (Hend : "  end" +:+ newline = rtlil_line 2 ["end"]) by line_eq.
  assert (Hparams : map parameter_text params
                    = map (fun p => rtlil_line 4 ["parameter"; backslash +:+ fst p;
                                                  str_int (int_of_param (snd p))]) params).
  { apply map_ext. intros p. unfold parameter_text. line_eq. }
  assert (Hports : map cell_connect_text cports
                   = map (fun c => rtlil_line 4 ["connect"; fst c; snd c]) cports).
  { apply map_ext. intros c. unfold cell_connect_text. line_eq. }
  rewrite Hhead, Hend, Hparams, Hports. reflexivity.
Qed.

Lemma assign_text_line indent lhs rhs : assign_text indent lhs rhs = assign_line indent lhs rhs.
Proof.
  unfold assign_text, assign_line, rtlil_line. rewrite str_mul_indent. f_equal.
  unfold Py.join. cbn [String.concat]. rewrite ?append_assoc. reflexivity.
Qed.

Lemma sync_text_line kind cond :
  sync_text kind cond = sync_line (kind :: match cond with Some c => [c] | None => [] end).
Proof. unfold sync_text, sync_line. destruct cond; line_eq. Qed.

Lemma update_text_line wire_curr wire_next :
  update_text wire_curr (Some wire_next) = update_line wire_curr wire_next.
Proof. unfold update_text, update_line, str_opt. line_eq. Qed.

Lemma declaration_text_lines signal port w :
  declaration_text signal port w = declaration_lines signal port w.
Proof.
  unfold declaration_text, declaration_lines. rewrite _src_line.
  f_equal; [apply map_ext; intros a; apply attribute_text_line|].
  destruct port as [[port_id port_kind]|], (snd w) as [wire_next|];
    rewrite ?wire_text_line, ?wire_text_port; reflexivity.
Qed.

(** ** The identifier allocator *)

Lemma length_append (s t : string) :
  String.length (s +:+ t) = (String.length s + String.length t)%nat.
Proof. induction s as [|c s IH]; simpl; [reflexivity | now rewrite IH]. Qed.

(** The loop exits with a name that is not registered. *)
Lemma _make_name_while_fresh fuel names : forall index name i n,
  _make_name_while fuel names index name = Some (i, n) ->
  (n ∉ names) ∧ index <= i.
Proof.
  induction fuel as [|fuel IH]; intros index name i n; simpl;
    destruct (decide (name ∈ names)) as [Hin|Hout]; try discriminate.
  - intros [= <- <-]. split; [assumption | lia].
  - intros Hw. apply IH in Hw. split; [tauto | lia].
  - intros [= <- <-]. split; [assumption | lia].
Qed.

(** The loop ends: while it runs, the candidate is a registered name, and it
    is longer at every iteration, so it is a different registered name each
    time.  [X] holds the registered names the candidate can still meet. *)
Lemma _make_name_while_terminates names : forall fuel (X : gset string) index name,
  (forall n, n ∈ names -> (String.length name <= String.length n)%nat -> n ∈ X) ->
  (size X <= fuel)%nat ->
  is_Some (_make_name_while fuel names index name).
Proof.
  induction fuel as [|fuel IH]; intros X index name HX Hsize; simpl;
    destruct (decide (name ∈ names)) as [Hin|Hout]; eauto.
  - exfalso. assert (Hx : name ∈ X) by (apply HX; [assumption | lia]).
    assert (X = ∅) as -> by (apply leibniz_equiv, size_empty_inv; lia).
    set_solver.
  - assert (Hx : name ∈ X) by (apply HX; [assumption | lia]).
    apply (IH (X ∖ {[ name ]})).
    + intros n Hn Hlen. rewrite !length_append in Hlen. simpl in Hlen.
      assert (n ∈ X) by (apply HX; [assumption | lia]).
      assert (n <> name) by (intros ->; lia).
      set_solver.
    + rewrite size_difference by set_solver. rewrite size_singleton. lia.
Qed.

Lemma _make_name_while_total names index name :
  is_Some (_make_name_while (size names) names index name).
Proof. apply (_make_name_while_terminates names _ names); [tauto | lia]. Qed.

(** A collision is resolved by appending the next counter and retrying. *)
Lemma _make_name_while_taken fuel names index name :
  name ∈ names ->
  _make_name_while (S fuel) names index name
  = _make_name_while fuel names (index + 1) (name +:+ dollar +:+ str_int (index + 1)).
Proof. intros Hin. simpl. destruct (decide (name ∈ names)); [reflexivity | contradiction]. Qed.

Lemma _make_name_while_free fuel names index name :
  name ∉ names -> _make_name_while fuel names index name = Some (index, name).
Proof.
  intros Hout. destruct fuel; simpl; destruct (decide (name ∈ names)); try reflexivity;
    contradiction.
Qed.

Lemma _make_name_candidate_Raise name local index e :
  _make_name_candidate name local index = Raise e -> e = IndexError ∧ unindexable name local.
Proof.
  unfold _make_name_candidate, unindexable.
  destruct name as [[|c s]|]; destruct local; simpl;
    try destruct (is_escape_marker c); try discriminate.
  intros [= <-]. tauto.
Qed.

Lemma _make_name_candidate_Ok name local index :
  ¬ unindexable name local -> exists i n, _make_name_candidate name local index = Ok (i, n).
Proof.
  unfold _make_name_candidate, unindexable.
  destruct name as [[|c s]|]; destruct local; simpl;
    try destruct (is_escape_marker c); eauto.
  intros []. tauto.
Qed.

Lemma _make_name_Ok name local self n self' :
  _make_name name local self = Ok (n, self') ->
  (n ∉ _names self) ∧ _names self' = {[ n ]} ∪ _names self ∧ _index self <= _index self'.
Proof.
  unfold _make_name.
  destruct (_make_name_candidate name local (_index self)) as [[i c]|e] eqn:Hc; [|discriminate].
  destruct (_make_name_while _ _ i c) as [[i' n']|] eqn:Hw; [|discriminate].
  intros [= <- <-]. simpl. apply _make_name_while_fresh in Hw as [Hfresh Hi].
  split; [assumption|]. split; [reflexivity|].
  revert Hc. unfold _make_name_candidate.
  destruct name as [s|]; [destruct (negb local); [destruct s as [|a s]; [discriminate|]; destruct (negb (is_escape_marker a))|]|];
    intros [= <- <-]; lia.
Qed.

Lemma _make_name_Raise name local self e :
  _make_name name local self = Raise e -> e = IndexError ∧ unindexable name local.
Proof.
  unfold _make_name.
  destruct (_make_name_candidate name local (_index self)) as [[i c]|e'] eqn:Hc.
  - destruct (_make_name_while_total (_names self) i c) as [[i' n'] ->]. discriminate.
  - intros [= <-]. eapply _make_name_candidate_Raise, Hc.
Qed.

Lemma _make_name_total name local self :
  ¬ unindexable name local -> exists n self', _make_name name local self = Ok (n, self').
Proof.
  intros Hok. destruct (_make_name name local self) as [[n self']|e] eqn:Hm; [eauto|].
  apply _make_name_Raise in Hm. tauto.
Qed.

(** C7.  Every sequence of [allocate] calls on one scope returns names that
    are pairwise distinct and distinct from every name registered before, and
    registers exactly those names; the loop of [_make_name] always ends.  The
    only failure is the [IndexError] of a non-local empty name. *)
Theorem allocate_all_distinct (requests : list (option string * bool)) : forall (self : _Namer),
  match allocate_all requests self with
  | Ok (names, self') =>
      NoDup names ∧ (forall n, n ∈ names -> n ∉ _names self)
      ∧ _names self' = list_to_set names ∪ _names self
  | Raise e =>
      e = IndexError ∧ exists r, r ∈ requests ∧ unindexable (fst r) (snd r)
  end.
Proof.
  induction requests as [|r requests IH]; intros self.
  - simpl. split; [constructor|]. split; [intros n Hn; inversion Hn | set_solver].
  - unfold allocate_all. simpl. unfold bind at 1.
    destruct (_make_name (fst r) (snd r) self) as [[n self1]|e] eqn:Hm.
    + apply _make_name_Ok in Hm as (Hfresh & Hnames & _).
      specialize (IH self1). unfold allocate_all in IH. unfold bind at 1.
      destruct (for_each _ requests self1) as [[names self']|e] eqn:Hrest.
      * simpl. destruct IH as (Hnd & Hnew & Hall). rewrite Hnames in Hnew.
        split; [|split].
        -- constructor; [|assumption]. intros Hin. apply Hnew in Hin. set_solver.
        -- intros x Hx. apply elem_of_cons in Hx as [->|Hx]; [assumption|].
           apply Hnew in Hx. set_solver.
        -- rewrite Hall, Hnames. set_solver.
      * destruct IH as (-> & r' & Hr' & Hbad). split; [reflexivity|].
        exists r'. split; [right; assumption | assumption].
    + apply _make_name_Raise in Hm as (-> & Hbad). split; [reflexivity|].
      exists r. split; [left | assumption].
Qed.

(** ** Invariants of a compiler state *)

Lemma extends_refl st : extends st st.
Proof. constructor; auto; reflexivity. Qed.

Lemma extends_trans st1 st2 st3 : extends st1 st2 -> extends st2 st3 -> extends st1 st3.
Proof.
  intros [] []. constructor; try congruence; try (etransitivity; eassumption); auto.
Qed.

(** A change of the module alone that only registers names and only appends
    text extends the state. *)
Lemma extends_set_rtlil st m :
  _names (module_namer (rtlil st)) ⊆ _names (module_namer m) ->
  module_buffer (rtlil st) `prefix_of` module_buffer m ->
  module_name m = module_name (rtlil st) ->
  extends st (set_rtlil m st).
Proof.
  intros Hn Hb Hname. constructor; simpl; auto.
  intros [Hreg Hdis Hnext Hkind]. constructor; simpl; auto.
  intros sid w Hw. destruct (Hreg sid w Hw) as [Hc Hx]. unfold names_of in *. simpl.
  split; [set_solver|]. intros n Hsome. specialize (Hx n Hsome). set_solver.
Qed.

(** ** The module builder *)

Lemma module_append_Ok chunks m u m' :
  module_append chunks m = Ok (u, m') -> m' = set_module_buffer (module_buffer m ++ chunks) m.
Proof. unfold module_append, modify. now intros [= <-]. Qed.

Lemma module_make_name_Ok name local m n m' :
  module_make_name name local m = Ok (n, m') ->
  (n ∉ _names (module_namer m)) ∧ _names (module_namer m') = {[ n ]} ∪ _names (module_namer m)
  ∧ module_buffer m' = module_buffer m ∧ module_name m' = module_name m
  ∧ module_attrs m' = module_attrs m.
Proof.
  unfold module_make_name. intros (n' & t & Hm & [= <- ->])%zoom_Ok.
  apply _make_name_Ok in Hm as (? & ? & ?). simpl. auto.
Qed.

(** What [wire] does to the module: one fresh name, the [src] attribute and
    the declaration. *)
Lemma wire_Ok width port name src0 m n m' :
  _ModuleBuilder_wire width port name src0 m = Ok (n, m') ->
  (n ∉ _names (module_namer m))
  ∧ _names (module_namer m') = {[ n ]} ∪ _names (module_namer m)
  ∧ module_buffer m' = module_buffer m ++ _src src0 ++ [wire_text width port n]
  ∧ module_name m' = module_name m.
Proof.
  unfold _ModuleBuilder_wire.
  intros ([] & m1 & ->%module_append_Ok & (n1 & m2 & Hn & H2)%bind_Ok)%bind_Ok.
  apply module_make_name_Ok in Hn as (Hfresh & Hnames & Hbuf & Hname & _).
  apply bind_Ok in H2 as ([] & m3 & H3 & [= -> ->]%ret_Ok).
  assert (m3 = set_module_buffer (module_buffer m2 ++ [wire_text width port n1]) m2) as ->.
  { destruct port as [[port_id port_kind]|].
    - destruct (existsb _ _); [|discriminate]. now apply module_append_Ok in H3 as ->.
    - now apply module_append_Ok in H3 as ->. }
  simpl in *. rewrite Hbuf, <- app_assoc. auto.
Qed.

Lemma cell_Ok kind name params cports src0 m n m' :
  _ModuleBuilder_cell kind name params cports src0 m = Ok (n, m') ->
  (n ∉ _names (module_namer m))
  ∧ _names (module_namer m') = {[ n ]} ∪ _names (module_namer m)
  ∧ module_buffer m' = module_buffer m ++ _src src0 ++ cell_text kind n params cports
  ∧ module_name m' = module_name m.
Proof.
  unfold _ModuleBuilder_cell.
  intros ([] & m1 & ->%module_append_Ok & (n1 & m2 & Hn & H2)%bind_Ok)%bind_Ok.
  apply module_make_name_Ok in Hn as (Hfresh & Hnames & Hbuf & Hname & _).
  apply bind_Ok in H2 as ([] & m3 & ->%module_append_Ok & [= -> ->]%ret_Ok).
  simpl in *. rewrite Hbuf, <- app_assoc. auto.
Qed.

(** ** [resolve] *)

Lemma on_rtlil_Ok {A} (m : M _ModuleBuilder A) st a st' :
  on_rtlil m st = Ok (a, st') <-> exists m', m (rtlil st) = Ok (a, m') ∧ st' = set_rtlil m' st.
Proof.
  unfold on_rtlil. rewrite zoom_Ok. split.
  - intros (a' & t & Hm & [= -> ->]). eauto.
  - intros (m' & Hm & ->). eauto.
Qed.

Lemma for_attributes_Ok attrs : forall st u st',
  for_ (fun a => on_rtlil (_ModuleBuilder_attribute (fst a) (snd a))) attrs st = Ok (u, st') ->
  st' = set_rtlil (set_module_buffer
                     (module_buffer (rtlil st)
                        ++ map (fun a => attribute_text (fst a) (snd a)) attrs) (rtlil st)) st.
Proof.
  induction attrs as [|a attrs IH]; intros st u st'; simpl.
  - intros [= -> ->]%ret_Ok. destruct st as [[]]. unfold set_rtlil, set_module_buffer. simpl.
    now rewrite app_nil_r.
  - intros ([] & st1 & (m1 & ->%module_append_Ok & ->)%on_rtlil_Ok & Hrest)%bind_Ok.
    apply IH in Hrest as ->. destruct st as [[]]. unfold set_rtlil, set_module_buffer. simpl.
    now rewrite <- app_assoc.
Qed.

Lemma resolve_cached signal st w :
  wires st !! ast.sid signal = Some w -> resolve signal st = Ok (w, st).
Proof. intros Hw. unfold resolve, bind, get. now rewrite Hw. Qed.

Lemma resolve_first signal st w st' :
  wires st !! ast.sid signal = None ->
  resolve signal st = Ok (w, st') ->
  exists m',
    st' = set_wires (<[ast.sid signal := w]> (wires st)) (set_rtlil m' st)
    ∧ module_buffer m' = module_buffer (rtlil st)
                           ++ declaration_text signal (ports st !! ast.sid signal) w
    ∧ module_name m' = module_name (rtlil st)
    ∧ (fst w ∉ names_of st)
    ∧ (forall n, snd w = Some n -> (n ∉ names_of st) ∧ n <> fst w)
    ∧ _names (module_namer m')
        = match snd w with Some n => {[ n ]} | None => ∅ end ∪ {[ fst w ]} ∪ names_of st
    ∧ (is_Some (snd w) <-> is_Some (driven st !! ast.sid signal)).
Proof.
  intros Hnone. unfold resolve. unfold bind at 1, get. rewrite Hnone.
  intros ([] & st1 & ->%for_attributes_Ok & H1)%bind_Ok.
  apply bind_Ok in H1 as (wire_curr & st2 & (m2 & Hcurr & ->)%on_rtlil_Ok & H2).
  apply wire_Ok in Hcurr as (Hfresh & Hnames & Hbuf & Hname).
  apply bind_Ok in H2 as (wire_next & st3 & Hnext & H3).
  apply bind_Ok in H3 as ([] & st4 & Hmod & [= -> ->]%ret_Ok).
  unfold modify in Hmod. injection Hmod as <-.
  simpl in *. unfold declaration_text, names_of. simpl.
  destruct (driven st !! ast.sid signal) as [sync|] eqn:Hdriven.
  - apply bind_Ok in Hnext as (n & st5 & (m5 & Hn & ->)%on_rtlil_Ok & [= -> ->]%ret_Ok).
    apply wire_Ok in Hn as (Hfresh' & Hnames' & Hbuf' & Hname').
    simpl in *. exists m5. split; [destruct st; reflexivity|].
    split; [rewrite Hbuf', Hbuf; simpl; now rewrite <- !app_assoc|].
    split; [congruence|]. split; [assumption|].
    split; [intros n' [= <-]; rewrite Hnames in Hfresh'; set_solver|].
    split; [rewrite Hnames', Hnames; set_solver|]. split; eauto.
  - apply ret_Ok in Hnext as [= -> ->]. simpl. exists m2.
    split; [destruct st; reflexivity|].
    split; [rewrite Hbuf; simpl; now rewrite <- !app_assoc|].
    split; [assumption|]. split; [assumption|]. split; [discriminate|].
    split; [rewrite Hnames; set_solver|]. split; intros [? [=]].
Qed.

Lemma resolve_extends signal st w st' :
  resolve signal st = Ok (w, st') ->
  extends st st' ∧ wires st' !! ast.sid signal = Some w.
Proof.
  destruct (wires st !! ast.sid signal) as [w0|] eqn:Hw.
  - rewrite (resolve_cached _ _ _ Hw). intros [= -> ->]. split; [apply extends_refl | assumption].
  - intros Hr. destruct (resolve_first _ _ _ _ Hw Hr)
      as (m' & -> & Hbuf & Hname & Hfresh & Hnext & Hnames & Hdriven).
    split; [|simpl; apply lookup_insert_eq].
    constructor; simpl; auto.
    + now apply insert_subseteq.
    + unfold names_of. simpl. rewrite Hnames. set_solver.
    + rewrite Hbuf. now apply prefix_app_r.
    + intros [Hreg Hdis Hnx Hkind]. constructor; simpl; auto.
      * intros sid w'. unfold names_of. simpl. rewrite Hnames. rewrite lookup_insert.
        case_decide.
        -- intros [= <-]. split; [set_solver|]. intros n ->. set_solver.
        -- intros Hw'. destruct (Hreg _ _ Hw') as [Hc Hn]. split; [set_solver|].
           intros n Hs. specialize (Hn n Hs). set_solver.
      * intros sid1 sid2 w1 w2. rewrite !lookup_insert. repeat case_decide; try congruence.
        -- intros [= <-] Hw2 Heq. destruct (Hreg _ _ Hw2) as [Hc _]. congruence.
        -- intros Hw1 [= <-] Heq. destruct (Hreg _ _ Hw1) as [Hc _]. congruence.
        -- apply Hdis.
      * intros sid w'. rewrite lookup_insert. case_decide.
        -- intros [= <-]. now subst.
        -- apply Hnx.
Qed.

(** ** The compilers only extend the state *)

Lemma extending_ret {A} (a : A) : extending (ret a).
Proof. intros st a' st' [= -> ->]%ret_Ok. apply extends_refl. Qed.

Lemma extending_raise {A} e : extending (@raise _ A e).
Proof. intros st a st' []%raise_Ok. Qed.

Lemma extending_bind {A B} (m : M _ValueCompilerState A) (k : A -> M _ValueCompilerState B) :
  extending m -> (forall a, extending (k a)) -> extending (bind m k).
Proof.
  intros Hm Hk st b st' (a & st1 & H1 & H2)%bind_Ok.
  eapply extends_trans; [eapply Hm | eapply Hk]; eassumption.
Qed.

Lemma extending_wire width port name src0 :
  extending (on_rtlil (_ModuleBuilder_wire width port name src0)).
Proof.
  intros st n st' (m' & (Hfresh & Hnames & Hbuf & Hname)%wire_Ok & ->)%on_rtlil_Ok.
  apply extends_set_rtlil; [rewrite Hnames; set_solver | rewrite Hbuf; now apply prefix_app_r | assumption].
Qed.

Lemma extending_cell kind name params cports src0 :
  extending (on_rtlil (_ModuleBuilder_cell kind name params cports src0)).
Proof.
  intros st n st' (m' & (Hfresh & Hnames & Hbuf & Hname)%cell_Ok & ->)%on_rtlil_Ok.
  apply extends_set_rtlil; [rewrite Hnames; set_solver | rewrite Hbuf; now apply prefix_app_r | assumption].
Qed.

Lemma extending_resolve signal : extending (resolve signal).
Proof. intros st w st' Hr. now apply resolve_extends in Hr. Qed.

Lemma extending_for_each {A B} (body : A -> M _ValueCompilerState B) l :
  Forall (fun x => extending (body x)) l -> extending (for_each body l).
Proof.
  induction 1 as [|x l Hx Hl IH]; simpl.
  - apply extending_ret.
  - apply extending_bind; [assumption|]. intros y.
    apply extending_bind; [assumption|]. intros ys. apply extending_ret.
Qed.

Lemma extending_for_ {A} (body : A -> M _ValueCompilerState unit) l :
  Forall (fun x => extending (body x)) l -> extending (for_ body l).
Proof.
  induction 1 as [|x l Hx Hl IH]; simpl.
  - apply extending_ret.
  - apply extending_bind; [assumption|]. intros _. assumption.
Qed.

(** One step of a proof that a method extends the state. *)
Ltac extending_step :=
  first
    [ apply extending_ret | apply extending_raise | apply extending_wire
    | apply extending_cell | apply extending_resolve
    | apply extending_bind; [|intros ?]
    | assumption ].

Section Extending.
Context `{Frontend}.

Lemma extending_operator_map_get arity op : extending (operator_map_get arity op).
Proof. unfold operator_map_get. destruct (find _ _); extending_step. Qed.

Section Methods.
Variable self : ast.Value -> M _ValueCompilerState string.

Lemma extending_on_Slice value start stop :
  extending (self value) -> extending (on_Slice self value start stop).
Proof.
  intros Hv. unfold on_Slice.
  destruct (_ && _); [assumption|]. destruct (_ =? _); repeat extending_step.
Qed.

Lemma extending_match_shape value new_bits new_sign :
  extending (self value) -> extending (match_shape self value new_bits new_sign).
Proof.
  intros Hv. unfold match_shape.
  destruct value; try extending_step;
    destruct (shape _) as [value_bits value_sign];
    (destruct (new_bits <=? value_bits);
     [apply extending_on_Slice; assumption | repeat extending_step]).
Qed.

Lemma extending_RHS_on_Operator value op operands :
  Forall (fun v => extending (self v)) operands ->
  extending (RHS_on_Operator self value op operands).
Proof.
  intros Hops. unfold RHS_on_Operator.
  destruct operands as [|a [|b [|c [|d l]]]]; try extending_step.
  - apply Forall_cons_1 in Hops as [Ha _].
    unfold on_Operator_unary. destruct (shape a), (shape value).
    repeat extending_step. apply extending_operator_map_get.
  - apply Forall_cons_1 in Hops as [Ha [Hb _]%Forall_cons_1].
    unfold on_Operator_binary. destruct (shape a), (shape b).
    apply extending_bind.
    + destruct (Bool.eqb _ _); repeat extending_step;
        apply extending_match_shape; assumption.
    + intros [[[[[lhs_bits lhs_sign] rhs_bits] rhs_sign] lhs_wire] rhs_wire].
      destruct (shape value). repeat extending_step. apply extending_operator_map_get.
  - apply Forall_cons_1 in Hops as [Ha [Hb [Hc _]%Forall_cons_1]%Forall_cons_1].
    destruct (String.eqb op "m"); [|extending_step].
    unfold on_Operator_mux. destruct (shape b), (shape c), (shape value).
    repeat extending_step; apply extending_match_shape; assumption.
Qed.
End Methods.

Lemma extending_rhs_compiler value : extending (rhs_compiler value).
Proof.
  induction value using Value_induction; simpl;
    unfold RHS_on_Signal, on_Cat, RHS_on_Repl; repeat extending_step.
  - now apply extending_RHS_on_Operator.
  - now apply extending_on_Slice.
  - now apply extending_for_each.
  - apply extending_for_each. apply Forall_forall. intros _ _. assumption.
Qed.

Lemma extending_lhs_compiler value : extending (lhs_compiler value).
Proof.
  induction value using Value_induction; simpl;
    unfold LHS_on_Signal, on_Cat; repeat extending_step.
  - destruct (snd _); extending_step.
  - now apply extending_on_Slice.
  - now apply extending_for_each.
Qed.

Lemma extending_rhs_match_shape value new_bits new_sign :
  extending (match_shape rhs_compiler value new_bits new_sign).
Proof. apply extending_match_shape, extending_rhs_compiler. Qed.

End Extending.

(** ** [resolve] succeeds on a named signal *)

Lemma wire_total width port name src0 m :
  name <> EmptyString ->
  (forall p, port = Some p -> In (snd p) port_kinds) ->
  exists n m', _ModuleBuilder_wire width port (Some name) src0 m = Ok (n, m').
Proof.
  intros Hname Hport. unfold _ModuleBuilder_wire, bind at 1, module_append, modify.
  unfold bind at 1.
  destruct (module_make_name (Some name) false _) as [[n m1]|e] eqn:Hn.
  - destruct port as [[port_id port_kind]|].
    + specialize (Hport _ eq_refl). simpl in Hport.
      assert (existsb (String.eqb port_kind) ["input"; "output"; "inout"] = true) as ->.
      { apply existsb_exists. exists port_kind. split; [assumption | apply String.eqb_refl]. }
      unfold bind, modify, ret. eauto.
    + unfold bind, modify, ret. eauto.
  - exfalso. unfold module_make_name, zoom in Hn. simpl in Hn.
    destruct (_make_name (Some name) false _) as [[]|e'] eqn:Hm; [discriminate|].
    apply _make_name_Raise in Hm as (_ & [= ->] & _). congruence.
Qed.

Lemma for_attributes_total attrs : forall st,
  exists st', for_ (fun a => on_rtlil (_ModuleBuilder_attribute (fst a) (snd a))) attrs st
              = Ok (tt, st').
Proof.
  induction attrs as [|a attrs IH]; intros st; simpl; [unfold ret; eauto|].
  unfold bind, on_rtlil, zoom, _ModuleBuilder_attribute, module_append, modify. simpl. apply IH.
Qed.

Lemma append_nonempty s t : t <> EmptyString -> s +:+ t <> EmptyString.
Proof. destruct s; simpl; [tauto | discriminate]. Qed.

Lemma resolve_total signal st :
  wf_state st -> ast.name signal <> EmptyString ->
  exists w st', resolve signal st = Ok (w, st').
Proof.
  intros Hwf Hname.
  destruct (wires st !! ast.sid signal) as [w|] eqn:Hw.
  { rewrite (resolve_cached _ _ _ Hw). eauto. }
  unfold resolve. unfold bind at 1, get. rewrite Hw.
  destruct (for_attributes_total (ast.attrs signal) st) as [st1 H1].
  unfold bind at 1. rewrite H1.
  assert (Hports : ports st1 = ports st ∧ driven st1 = driven st).
  { apply for_attributes_Ok in H1 as ->. now destruct st. }
  unfold bind at 1, on_rtlil at 1, zoom.
  match goal with |- context [_ModuleBuilder_wire ?w ?p (Some ?n) ?s ?m] =>
    destruct (wire_total w p n s m) as (c & m2 & ->) end.
  { destruct (sub_name st) as [sub|]; [destruct (truthy sub)|]; try assumption.
    now apply append_nonempty, append_nonempty. }
  { intros p Hp. eapply wf_port_kind; eassumption. }
  destruct (driven st !! ast.sid signal).
  - unfold bind at 1. unfold bind at 1, on_rtlil at 1, zoom.
    match goal with |- context [_ModuleBuilder_wire ?w ?p (Some ?n) ?s ?m] =>
      destruct (wire_total w p n s m) as (n' & m3 & ->) end.
    { apply append_nonempty. discriminate. }
    { discriminate. }
    unfold ret, bind, modify. eauto.
  - unfold ret, bind, modify. eauto.
Qed.

(** ** Slices, [resolve] and signals as targets *)

Section Resolve.
Context `{Frontend}.

(** The dispatch of [self(...)] on the nodes that [match_shape] builds. *)
Lemma rhs_compiler_Const_shaped v nbits signed :
  rhs_compiler (Const_shaped v nbits signed)
  = ret (RHS_on_Const (Const_normalize v nbits signed) nbits).
Proof. reflexivity. Qed.

Lemma rhs_compiler_Slice value start stop :
  rhs_compiler (ast.Slice value start stop) = on_Slice rhs_compiler value start stop.
Proof. reflexivity. Qed.

(** C9.  Lowering the slice of [x] that starts at bit 0 and spans the width
    of [x] is lowering [x]: the same result and the same state, so no wire
    and no cell besides those of [x]; the same holds on the write side. *)
Theorem slice_identity (x : ast.Value) (st : _ValueCompilerState) :
  rhs_compiler (ast.Slice x 0 (len x)) st = rhs_compiler x st
  ∧ lhs_compiler (ast.Slice x 0 (len x)) st = lhs_compiler x st.
Proof.
  rewrite rhs_compiler_Slice. change (lhs_compiler (ast.Slice x 0 (len x)))
    with (on_Slice lhs_compiler x 0 (len x)).
  unfold on_Slice. rewrite !Z.eqb_refl. split; reflexivity.
Qed.

(** C10.  [resolve] is idempotent.  The first call writes the declaration
    of the signal into the module: the lines of its attributes, the line
    that declares its current wire and, exactly when the signal is
    registered as driven, the line that declares its next wire, each wire
    line behind the [src] attribute of the signal.  Every later [resolve] of
    the signal, in any later state of the activation, returns the same pair
    and leaves the state as it is, so it writes nothing. *)
Theorem resolve_idempotent (signal : ast.Signal) (st st' : _ValueCompilerState)
    (w : string * option string) :
  resolve signal st = Ok (w, st') ->
  (wires st !! ast.sid signal = None ->
     module_buffer (rtlil st')
       = module_buffer (rtlil st) ++ declaration_lines signal (ports st !! ast.sid signal) w
     ∧ (is_Some (snd w) <-> is_Some (driven st !! ast.sid signal)))
  ∧ (forall st'', extends st' st'' -> resolve signal st'' = Ok (w, st'')).
Proof.
  intros Hr. split.
  - intros Hnone. destruct (resolve_first _ _ _ _ Hnone Hr) as (m' & -> & Hbuf & _ & _ & _ & _ & Hd).
    simpl. rewrite <- declaration_text_lines. tauto.
  - intros st'' Hext. apply resolve_cached.
    apply resolve_extends in Hr as [_ Hw].
    eapply lookup_weaken; [exact Hw | apply Hext].
Qed.

(** C5.  In a state of [convert_fragment], lowering a named signal as an
    assignment target raises [ValueError] when the signal is not registered
    as driven, and returns the next wire of the signal when it is. *)
Theorem LHS_on_Signal_driven (signal : ast.Signal) (st : _ValueCompilerState) :
  wf_state st -> ast.name signal <> EmptyString ->
  match driven st !! ast.sid signal with
  | None => lhs_compiler (ast.Sig signal) st = Raise ValueError
  | Some _ =>
      exists wire_curr wire_next st',
        lhs_compiler (ast.Sig signal) st = Ok (wire_next, st')
        ∧ wires st' !! ast.sid signal = Some (wire_curr, Some wire_next)
        ∧ extends st st'
  end.
Proof.
  intros Hwf Hname. destruct (resolve_total signal st Hwf Hname) as ([c n] & st' & Hr).
  destruct (resolve_extends _ _ _ _ Hr) as [Hext Hw].
  assert (Hn : is_Some n <-> is_Some (driven st !! ast.sid signal)).
  { rewrite <- (ext_driven _ _ Hext).
    apply (wf_next _ (ext_wf _ _ Hext Hwf) _ _ Hw). }
  simpl. unfold LHS_on_Signal, bind. rewrite Hr. simpl.
  destruct (driven st !! ast.sid signal) as [sync|].
  - destruct n as [n|]; [eauto 6|]. destruct Hn as [_ Hn]. destruct Hn as [? [=]]. eauto.
  - destruct n as [n|]; [|reflexivity]. destruct Hn as [Hn _]. destruct Hn as [? [=]]. eauto.
Qed.

End Resolve.

(** ** The write-side compiler *)

Section WriteSide.
Context `{Frontend}.

Lemma on_Slice_Raise self value start stop st e :
  on_Slice self value start stop st = Raise e <-> self value st = Raise e.
Proof.
  unfold on_Slice. destruct (_ && _); [tauto|].
  destruct (_ =? _); unfold bind, ret; destruct (self value st) as [[]|]; split; congruence.
Qed.

Lemma on_Slice_Ok self value start stop st w st' :
  self value st = Ok (w, st') -> exists r, on_Slice self value start stop st = Ok (r, st').
Proof.
  intros Hv. unfold on_Slice. destruct (_ && _); [eauto|].
  destruct (_ =? _); unfold bind, ret; rewrite Hv; eauto.
Qed.

(** A slice is lowered to the select of its bits in what its operand is
    lowered to. *)
Lemma on_Slice_select self value start stop st w st' :
  self value st = Ok (w, st') ->
  on_Slice self value start stop st = Ok (select w (len value) start stop, st').
Proof.
  intros Hv. unfold on_Slice, select. destruct (_ && _); [exact Hv|].
  destruct (_ =? _); unfold bind, ret; rewrite Hv; reflexivity.
Qed.

Lemma on_Slice_inv_select self value start stop st r st' :
  on_Slice self value start stop st = Ok (r, st') ->
  exists w, self value st = Ok (w, st') ∧ r = select w (len value) start stop.
Proof.
  unfold on_Slice, select. destruct (_ && _); [eauto|].
  destruct (_ =? _); intros (w & st1 & Hv & [= -> ->]%ret_Ok)%bind_Ok; eauto.
Qed.

(** C3, as amended.  The write-side compiler raises on a constant, an
    operator and a replication ([TypeError]) and on the unsupported nodes
    ([NotImplementedError]).  A slice and a concatenation are lowered by the
    methods inherited from [_ValueCompiler]: they raise exactly when lowering
    an operand as a target raises; otherwise a slice is lowered to the select
    of its bits in what its operand is lowered to as a target, and a
    concatenation to the brace group of what its operands are lowered to as
    targets, the first operand last. *)
Theorem lhs_compiler_non_signal (value : ast.Value) (st : _ValueCompilerState) :
  match value with
  | ast.Sig _ => True
  | ast.Const _ _ _ | ast.Operator _ _ | ast.Repl _ _ =>
      lhs_compiler value st = Raise TypeError
  | ast.ClockSignal _ | ast.ResetSignal _ | ast.Part _ _ _ | ast.ArrayProxy _ _ =>
      lhs_compiler value st = Raise NotImplementedError
  | ast.Slice v start stop =>
      (forall e, lhs_compiler value st = Raise e <-> lhs_compiler v st = Raise e)
      ∧ (forall w st', lhs_compiler v st = Ok (w, st') ->
           lhs_compiler value st = Ok (select w (fst (shape v)) start stop, st'))
  | ast.Cat operands =>
      (forall e, lhs_compiler value st = Raise e
                 <-> for_each lhs_compiler operands st = Raise e)
      ∧ (forall ws st', for_each lhs_compiler operands st = Ok (ws, st') ->
           lhs_compiler value st = Ok ("{ " +:+ Py.join " " (rev ws) +:+ " }", st'))
  end.
Proof.
  destruct value; try reflexivity; try exact I.
  - split; [intros e; apply on_Slice_Raise | intros w st'; apply on_Slice_select].
  - simpl. unfold on_Cat, bind, ret.
    destruct (for_each lhs_compiler operands st) as [[ws st']|e'].
    + split; [split; discriminate | now intros ? ? [= <- <-]].
    + split; [intros e; split; intros [= ->]; reflexivity | discriminate].
Qed.

End WriteSide.

(** C3, counterexample: the slice of bit 0 of the driven signal [S] is
    lowered as a target to a bit of the next wire of [S]. *)
Lemma lhs_slice_lowered :
  returned (lhs_compiler (H := Example.frontend)
              (ast.Slice (ast.Sig Example.S8) 0 1) (Example.driving [Example.S8]))
  = Ok (backslash +:+ "S$next [0]").
Proof. vm_compute. reflexivity. Qed.

(** ** Width/sign matching and the operators *)

Lemma operator_map_get_Ok arity op st kind st' :
  operator_map_get arity op st = Ok (kind, st') ->
  In ((arity, op), kind) operator_map ∧ st' = st.
Proof.
  unfold operator_map_get.
  destruct (find _ operator_map) as [[[arity' op'] kind']|] eqn:Hfind; [|discriminate].
  intros [= -> ->]%ret_Ok. apply find_some in Hfind as [Hin Hcond]. simpl in Hcond.
  apply andb_prop in Hcond as [->%Z.eqb_eq ->%String.eqb_eq]. auto.
Qed.

Lemma RHS_on_Const_literal value nbits : RHS_on_Const value nbits = literal value nbits.
Proof. destruct value; reflexivity. Qed.

Section MatchShape.
Context `{Frontend}.

(** What [match_shape] does: a constant is rendered at the new shape; a value
    at least as wide is sliced down to the new width; a narrower value is
    fed to a [$pos] cell whose result wire has the new width and whose input
    keeps the signedness of the value. *)
Lemma match_shape_cases self value new_bits new_sign st w st' :
  match_shape self value new_bits new_sign st = Ok (w, st') ->
  match value with
  | ast.Const v _ _ =>
      w = RHS_on_Const (Const_normalize v new_bits new_sign) new_bits ∧ st' = st
  | _ =>
      if new_bits <=? fst (shape value) then
        on_Slice self value 0 new_bits st = Ok (w, st')
      else
        exists st1 a st2 name,
          on_rtlil (_ModuleBuilder_wire new_bits None None "") st = Ok (w, st1)
          ∧ module_buffer (rtlil st1) = module_buffer (rtlil st) ++ [wire_text new_bits None w]
          ∧ self value st1 = Ok (a, st2)
          ∧ module_buffer (rtlil st')
            = module_buffer (rtlil st2) ++ _src (src (value_src_loc value))
                ++ cell_text "$pos" name
                     [("A_SIGNED", ParamBool (snd (shape value)));
                      ("A_WIDTH", ParamInt (fst (shape value)));
                      ("Y_WIDTH", ParamInt new_bits)]
                     [(port_A, a); (port_Y, w)]
  end.
Proof.
  assert (Hgen : forall value,
    (let '(value_bits, value_sign) := shape value in
     if new_bits <=? value_bits then on_Slice self value 0 new_bits
     else
       let* res := on_rtlil (_ModuleBuilder_wire new_bits None None "") in
       let* a := self value in
       on_rtlil (_ModuleBuilder_cell "$pos" None
                   [("A_SIGNED", ParamBool value_sign); ("A_WIDTH", ParamInt value_bits);
                    ("Y_WIDTH", ParamInt new_bits)]
                   [(port_A, a); (port_Y, res)] (src (value_src_loc value))) ;;
       ret res) st = Ok (w, st') ->
    if new_bits <=? fst (shape value) then on_Slice self value 0 new_bits st = Ok (w, st')
    else exists st1 a st2 name,
          on_rtlil (_ModuleBuilder_wire new_bits None None "") st = Ok (w, st1)
          ∧ module_buffer (rtlil st1) = module_buffer (rtlil st) ++ [wire_text new_bits None w]
          ∧ self value st1 = Ok (a, st2)
          ∧ module_buffer (rtlil st')
            = module_buffer (rtlil st2) ++ _src (src (value_src_loc value))
                ++ cell_text "$pos" name
                     [("A_SIGNED", ParamBool (snd (shape value)));
                      ("A_WIDTH", ParamInt (fst (shape value)));
                      ("Y_WIDTH", ParamInt new_bits)]
                     [(port_A, a); (port_Y, w)]).
  { intros v. destruct (shape v) as [value_bits value_sign]. simpl.
    destruct (new_bits <=? value_bits); [tauto|].
    intros (res & st1 & Hres & (a & st2 & Ha & (name & st3 & Hcell & [= -> ->]%ret_Ok)%bind_Ok)%bind_Ok)%bind_Ok.
    exists st1, a, st2.
    apply on_rtlil_Ok in Hcell as (m3 & (_ & _ & Hbuf & _)%cell_Ok & ->).
    pose proof Hres as Hres'.
    apply on_rtlil_Ok in Hres' as (m1 & (_ & _ & Hbuf1 & _)%wire_Ok & ->).
    exists name. split; [exact Hres|]. split; [exact Hbuf1|]. split; [exact Ha|]. exact Hbuf. }
  unfold match_shape. destruct value; try apply Hgen.
  intros [= -> ->]%ret_Ok. tauto.
Qed.

(** What [match_shape] returns is the value coerced to the new width. *)
Lemma match_shape_coerced value new_bits new_sign st w st' :
  match_shape rhs_compiler value new_bits new_sign st = Ok (w, st') ->
  coerced value new_bits new_sign st w st'.
Proof.
  assert (Hgen : forall value,
    (let '(value_bits, value_sign) := shape value in
     if new_bits <=? value_bits then on_Slice rhs_compiler value 0 new_bits
     else
       let* res := on_rtlil (_ModuleBuilder_wire new_bits None None "") in
       let* a := rhs_compiler value in
       on_rtlil (_ModuleBuilder_cell "$pos" None
                   [("A_SIGNED", ParamBool value_sign); ("A_WIDTH", ParamInt value_bits);
                    ("Y_WIDTH", ParamInt new_bits)]
                   [(port_A, a); (port_Y, res)] (src (value_src_loc value))) ;;
       ret res) st = Ok (w, st') ->
    if new_bits <=? fst (shape value) then
      exists operand,
        rhs_compiler value st = Ok (operand, st')
        ∧ w = select operand (fst (shape value)) 0 new_bits
    else
      exists st1 operand st2 name,
        (w ∉ names_of st)
        ∧ wires st1 = wires st
        ∧ module_buffer (rtlil st1) = module_buffer (rtlil st) ++ [wire_line new_bits w]
        ∧ rhs_compiler value st1 = Ok (operand, st2)
        ∧ module_buffer (rtlil st')
          = module_buffer (rtlil st2) ++ [src_line (value_src_loc value)]
              ++ cell_lines "$pos" name
                   [("A_SIGNED", int_of_bool (snd (shape value)));
                    ("A_WIDTH", fst (shape value));
                    ("Y_WIDTH", new_bits)]
                   [(backslash +:+ "A", operand); (backslash +:+ "Y", w)]).
  { intros v. destruct (shape v) as [value_bits value_sign] eqn:Hshape. simpl.
    destruct (new_bits <=? value_bits).
    - intros Hslice. apply on_Slice_inv_select in Hslice as (operand & Hv & ->).
      exists operand. unfold len. rewrite Hshape. auto.
    - intros (res & st1 & Hres & (a & st2 & Ha & (name & st3 & Hcell & [= -> ->]%ret_Ok)%bind_Ok)%bind_Ok)%bind_Ok.
      apply on_rtlil_Ok in Hres as (m1 & (Hfresh & _ & Hbuf1 & _)%wire_Ok & ->).
      apply on_rtlil_Ok in Hcell as (m3 & (_ & _ & Hbuf3 & _)%cell_Ok & ->).
      rewrite wire_text_line in Hbuf1. rewrite _src_line, cell_text_lines in Hbuf3.
      exists (set_rtlil m1 st), a, st2, name.
      split; [exact Hfresh|]. split; [reflexivity|]. split; [exact Hbuf1|].
      split; [exact Ha | exact Hbuf3]. }
  unfold match_shape, coerced. destruct value; try apply Hgen.
  intros [= -> ->]%ret_Ok. split; [reflexivity | apply RHS_on_Const_literal].
Qed.

Lemma on_Operator_binary_Ok value op lhs rhs st res st' :
  on_Operator_binary rhs_compiler value op lhs rhs st = Ok (res, st') ->
  exists a_sign a_width b_sign b_width lhs_wire rhs_wire st1 st2 kind name,
    (if Bool.eqb (snd (shape lhs)) (snd (shape rhs)) then
       rhs_compiler lhs st = Ok (lhs_wire, st1)
       ∧ rhs_compiler rhs st1 = Ok (rhs_wire, st2)
       ∧ (a_sign, a_width) = (snd (shape lhs), fst (shape lhs))
       ∧ (b_sign, b_width) = (snd (shape rhs), fst (shape rhs))
     else
       match_shape rhs_compiler lhs (Z.max (fst (shape lhs)) (fst (shape rhs))) true st
         = Ok (lhs_wire, st1)
       ∧ match_shape rhs_compiler rhs (Z.max (fst (shape lhs)) (fst (shape rhs))) true st1
         = Ok (rhs_wire, st2)
       ∧ (a_sign, a_width) = (true, Z.max (fst (shape lhs)) (fst (shape rhs)))
       ∧ (b_sign, b_width) = (true, Z.max (fst (shape lhs)) (fst (shape rhs))))
    ∧ module_buffer (rtlil st')
      = module_buffer (rtlil st2) ++ [wire_text (fst (shape value)) None res]
          ++ _src (src (value_src_loc value))
          ++ cell_text kind name
               (binary_params a_sign a_width b_sign b_width (fst (shape value)))
               [(port_A, lhs_wire); (port_B, rhs_wire); (port_Y, res)]
    ∧ In ((2, op), kind) operator_map.
Proof.
  unfold on_Operator_binary.
  destruct (shape lhs) as [lhs_bits lhs_sign], (shape rhs) as [rhs_bits rhs_sign].
  destruct (shape value) as [res_bits res_sign]. simpl.
  intros ([[[[[a_width a_sign] b_width] b_sign] lhs_wire] rhs_wire] & st2 & Hops & Hrest)%bind_Ok.
  apply bind_Ok in Hrest as (res' & st3 & Hres & (kind & st4 & Hkind & Hcell)%bind_Ok).
  apply bind_Ok in Hcell as (name & st5 & Hcell & [= <- <-]%ret_Ok).
  apply operator_map_get_Ok in Hkind as [Hin ->].
  apply on_rtlil_Ok in Hres as (m3 & (_ & _ & Hbuf3 & _)%wire_Ok & ->).
  apply on_rtlil_Ok in Hcell as (m5 & (_ & _ & Hbuf5 & _)%cell_Ok & ->).
  simpl in Hbuf3, Hbuf5.
  assert (Hbuf : module_buffer m5
                 = module_buffer (rtlil st2) ++ [wire_text res_bits None res]
                     ++ _src (src (value_src_loc value))
                     ++ cell_text kind name
                          (binary_params a_sign a_width b_sign b_width res_bits)
                          [(port_A, lhs_wire); (port_B, rhs_wire); (port_Y, res)]).
  { rewrite Hbuf5, Hbuf3. now rewrite <- !app_assoc. }
  destruct (Bool.eqb lhs_sign rhs_sign).
  - apply bind_Ok in Hops as (lw & st1 & Hl & (rw & st2' & Hr & [= -> -> -> -> -> -> ->]%ret_Ok)%bind_Ok).
    exists lhs_sign, lhs_bits, rhs_sign, rhs_bits, lw, rw, st1, st2', kind, name. simpl. auto.
  - apply bind_Ok in Hops as (lw & st1 & Hl & (rw & st2' & Hr & [= -> -> -> -> -> -> ->]%ret_Ok)%bind_Ok).
    exists true, (Z.max lhs_bits rhs_bits), true, (Z.max lhs_bits rhs_bits), lw, rw, st1, st2', kind, name.
    simpl. auto.
Qed.

End MatchShape.

Section Operators.
Context `{Frontend}.

Lemma on_Operator_mux_Ok value sel lhs rhs st res st' :
  on_Operator_mux rhs_compiler value sel lhs rhs st = Ok (res, st') ->
  let width := Z.max (Z.max (fst (shape lhs)) (fst (shape rhs))) (fst (shape value)) in
  exists lhs_wire rhs_wire s st1 st2 st3 st4 name,
    match_shape rhs_compiler lhs width (snd (shape lhs)) st = Ok (lhs_wire, st1)
    ∧ match_shape rhs_compiler rhs width (snd (shape rhs)) st1 = Ok (rhs_wire, st2)
    ∧ wires st3 = wires st2
    ∧ module_buffer (rtlil st3) = module_buffer (rtlil st2) ++ [wire_text width None res]
    ∧ rhs_compiler sel st3 = Ok (s, st4)
    ∧ module_buffer (rtlil st')
      = module_buffer (rtlil st4) ++ _src (src (value_src_loc value))
          ++ cell_text "$mux" name [("WIDTH", ParamInt width)]
               [(port_A, lhs_wire); (port_B, rhs_wire); (port_S, s); (port_Y, res)].
Proof.
  unfold on_Operator_mux.
  destruct (shape lhs) as [lhs_bits lhs_sign], (shape rhs) as [rhs_bits rhs_sign].
  destruct (shape value) as [res_bits res_sign]. simpl.
  intros (lw & st1 & Hl & (rw & st2 & Hr & (res' & st3 & Hres & Hrest)%bind_Ok)%bind_Ok)%bind_Ok.
  apply bind_Ok in Hrest as (s & st4 & Hs & (name & st5 & Hcell & [= <- <-]%ret_Ok)%bind_Ok).
  apply on_rtlil_Ok in Hres as (m3 & (_ & _ & Hbuf3 & _)%wire_Ok & ->).
  apply on_rtlil_Ok in Hcell as (m5 & (_ & _ & Hbuf5 & _)%cell_Ok & ->).
  exists lw, rw, s, st1, st2, (set_rtlil m3 st2), st4, name.
  split; [exact Hl|]. split; [exact Hr|]. split; [reflexivity|].
  split; [exact Hbuf3|]. split; [exact Hs|]. exact Hbuf5.
Qed.

(** C1, as amended.  The cell of a binary operator declares one signedness
    for its two operands.  Operands of different signedness are both coerced
    to the wider of their two widths, as signed, and the cell declares that
    one width for both; operands of one signedness are lowered as they are,
    and the cell declares for each its own width.  The two data operands of a
    mux are coerced to one common width, the widest of the two operands and
    the result, each with its own signedness; the result wire and the cell
    have that width.  An operand is coerced to a width by writing a constant
    as a literal of that width, by selecting the low bits of a value at least
    as wide, and by extending a narrower value into a fresh wire of that
    width through a [$pos] cell. *)
Theorem operator_operands_matched :
  (forall op lhs rhs st res st',
     rhs_compiler (ast.Operator op [lhs; rhs]) st = Ok (res, st') ->
     binary_operands_matched op lhs rhs st res st')
  ∧ (forall op sel lhs rhs st res st',
       rhs_compiler (ast.Operator op [sel; lhs; rhs]) st = Ok (res, st') ->
       mux_operands_matched op sel lhs rhs st res st').
Proof.
  split.
  - intros op lhs rhs st res st' Hrun. unfold binary_operands_matched.
    change (on_Operator_binary rhs_compiler (ast.Operator op [lhs; rhs]) op lhs rhs st
            = Ok (res, st')) in Hrun.
    apply on_Operator_binary_Ok in Hrun
      as (a_sign & a_width & b_sign & b_width & lw & rw & st1 & st2 & kind & name
          & Hops & Hbuf & Hin).
    exists a_sign, a_width, b_sign, b_width, lw, rw, st1, st2, kind, name.
    rewrite wire_text_line, _src_line, cell_text_lines in Hbuf.
    destruct (Bool.eqb (snd (shape lhs)) (snd (shape rhs))) eqn:Heq.
    + apply Bool.eqb_prop in Heq. destruct Hops as (Hl & Hr & [= -> ->] & [= -> ->]).
      split; [auto|]. split; [exact Hin|]. split; [exact Hbuf|].
      split; [assumption | tauto].
    + destruct Hops as (Hl%match_shape_coerced & Hr%match_shape_coerced & [= -> ->] & [= -> ->]).
      split; [auto|]. split; [exact Hin|]. split; [exact Hbuf|]. split; reflexivity.
  - intros op sel lhs rhs st res st' Hrun. unfold mux_operands_matched. simpl in Hrun.
    destruct (String.eqb op "m"); [|discriminate].
    apply on_Operator_mux_Ok in Hrun
      as (lw & rw & s & st1 & st2 & st3 & st4 & name
          & Hl%match_shape_coerced & Hr%match_shape_coerced & Hw & Hbuf3 & Hs & Hbuf).
    exists lw, rw, s, st1, st2, st3, st4, name.
    rewrite wire_text_line in Hbuf3. rewrite _src_line, cell_text_lines in Hbuf. auto 10.
Qed.

End Operators.

Lemma app_cancel_concrete {A} (pre l k1 k2 : list A) :
  k1 ++ k2 = pre ++ l -> length k2 = length l -> k2 = l.
Proof. intros Heq Hlen. symmetry in Heq. now apply app_inj_2 in Heq as [_ ->]. Qed.

(** C1, counterexample: the sum of the unsigned signals [a], four bits wide,
    and [b], eight bits wide, is lowered to a cell that declares the widths 4
    and 8 for its operands. *)
Lemma binary_widths_differ :
  ¬ (forall res st',
       rhs_compiler (H := Example.frontend)
         (ast.Operator "+" [ast.Sig Example.a4; ast.Sig Example.b8]) (Example.driving []) = Ok (res, st') ->
       binary_operands_agree st' res).
Proof.
  intros Hclaim.
  destruct (rhs_compiler (H := Example.frontend) _ _) as [[res st']|e] eqn:Hrun;
    [|vm_compute in Hrun; discriminate].
  destruct (Hclaim _ _ eq_refl) as (pre & kind & name & sign & width & y_width & a & b & Hbuf).
  assert (Hb : module_buffer (rtlil st')
               = firstn 6 (module_buffer (rtlil st')) ++ skipn 6 (module_buffer (rtlil st')))
    by (symmetry; apply firstn_skipn).
  rewrite Hbuf in Hb at 1. symmetry in Hb. apply app_cancel_concrete in Hb.
  2: { vm_compute in Hrun. injection Hrun as <- <-. reflexivity. }
  assert (Hs : skipn 6 (module_buffer (rtlil st'))
               = cell_text "$add" "$2" (binary_params false 4 false 8 8)
                   [(port_A, backslash +:+ "a"); (port_B, backslash +:+ "b"); (port_Y, "$1")]).
  { vm_compute in Hrun. injection Hrun as <- <-. vm_compute. reflexivity. }
  rewrite Hs in Hb. unfold cell_text, binary_params in Hb. simpl in Hb.
  injection Hb as _ _ HA _ HB _.
  unfold parameter_text in HA, HB. simpl in HA, HB.
  repeat apply String.app_inj in HA. repeat apply String.app_inj in HB.
  rewrite <- HB in HA. vm_compute in HA. discriminate.
Qed.

Lemma on_fst_Ok {S T A} (m : M S A) (sc : S * T) a sc' :
  on_fst m sc = Ok (a, sc') <-> exists s', m (fst sc) = Ok (a, s') ∧ sc' = (s', snd sc).
Proof.
  unfold on_fst. rewrite zoom_Ok. split.
  - intros (a' & t & Hm & [= -> ->]). eauto.
  - intros (s' & Hm & ->). eauto.
Qed.

Lemma on_snd_Ok {S T A} (m : M T A) (sc : S * T) a sc' :
  on_snd m sc = Ok (a, sc') <-> exists t', m (snd sc) = Ok (a, t') ∧ sc' = (fst sc, t').
Proof.
  unfold on_snd. rewrite zoom_Ok. split.
  - intros (a' & t & Hm & [= -> ->]). eauto.
  - intros (s' & Hm & ->). eauto.
Qed.

Lemma process_append_Ok chunks p u p' :
  process_append chunks p = Ok (u, p') ->
  process_buffer p' = process_buffer p ++ chunks
  ∧ process_name p' = process_name p ∧ process_src p' = process_src p.
Proof. unfold process_append, modify. intros [= _ <-]. simpl. auto. Qed.

Section Assign.
Context `{Frontend}.

(** C2, as amended.  An assignment whose two sides differ in width lowers
    the right-hand side first, coerced to the width of the left-hand side
    with the signedness of the right-hand side itself: a constant is written
    as a literal of that width, the low bits of a wider value are selected, a
    narrower value is extended into a fresh wire of that width through a
    [$pos] cell.  Then the left-hand side is lowered and the [assign] line
    is written. *)
Theorem assign_coerces_rhs (indent : Z) (lhs rhs : ast.Value) (sc sc' : Scope) :
  fst (shape lhs) <> fst (shape rhs) ->
  _convert_stmt indent (ast.Assign lhs rhs) sc = Ok (tt, sc') ->
  assign_coerced (snd (shape rhs)) indent lhs rhs sc sc'.
Proof.
  intros Hne. unfold assign_coerced. simpl.
  destruct (shape lhs) as [lhs_bits lhs_sign], (shape rhs) as [rhs_bits rhs_sign]. simpl in *.
  apply Z.eqb_neq in Hne. rewrite Hne.
  intros (r & sc1 & (st1 & Hm & ->)%on_fst_Ok & (l & sc2 & (st2 & Hl & ->)%on_fst_Ok & Ha)%bind_Ok)%bind_Ok.
  apply on_snd_Ok in Ha as (p' & (Hbuf & _)%process_append_Ok & ->). simpl in *.
  apply match_shape_coerced in Hm. rewrite assign_text_line in Hbuf.
  exists r, st1, l. auto.
Qed.
End Assign.

(** C2, counterexample: the unsigned constant 3, two bits wide, assigned to
    the signed signal [t], one bit wide, is rendered at one bit as the
    unsigned constant 1, not as the signed constant that the signedness of
    the destination would give. *)
Lemma assign_not_destination_sign :
  ¬ (forall sc',
       _convert_stmt (H := Example.frontend) 2 (ast.Assign (ast.Sig Example.t1) Example.three)
         (Example.driving [Example.t1], Example.process0) = Ok (tt, sc') ->
       assign_lowered_with (H := Example.frontend)
         (snd (@shape Example.frontend (ast.Sig Example.t1))) 2 (ast.Sig Example.t1)
         Example.three (Example.driving [Example.t1], Example.process0) sc').
Proof.
  intros Hclaim.
  destruct (_convert_stmt (H := Example.frontend) _ _ _) as [[[] sc']|e] eqn:Hrun;
    [|vm_compute in Hrun; discriminate].
  destruct (Hclaim _ eq_refl) as (r & st1 & l & Hm & Hl & Hbuf).
  vm_compute in Hm. injection Hm as <- <-.
  assert (Hp : process_buffer (snd sc') = [assign_text 2 (backslash +:+ "t$next") "1'1"]).
  { vm_compute in Hrun. injection Hrun as <-. vm_compute. reflexivity. }
  assert (Hlv : l = backslash +:+ "t$next").
  { vm_compute in Hl. destruct sc'. simpl in Hl. injection Hl as <- _. reflexivity. }
  rewrite Hp, Hlv in Hbuf. vm_compute in Hbuf. discriminate.
Qed.

(** A loop whose body extends the compiler state and appends a block of
    chunks to the process appends the blocks of all the elements, in order.
    [R] relates an element to its block in the compiler state the loop ends
    in. *)
Lemma for_blocks {A} (body : A -> M Scope unit)
    (I : _ValueCompilerState -> Prop) (R : _ValueCompilerState -> A -> list string -> Prop) :
  (forall st st', extends st st' -> I st -> I st') ->
  (forall st st' x block, extends st st' -> R st x block -> R st' x block) ->
  forall l,
  (forall x sc u sc', x ∈ l -> I (fst sc) -> body x sc = Ok (u, sc') ->
     extends (fst sc) (fst sc')
     ∧ exists block, process_buffer (snd sc') = process_buffer (snd sc) ++ block
                     ∧ R (fst sc') x block) ->
  forall sc u sc', I (fst sc) -> for_ body l sc = Ok (u, sc') ->
    extends (fst sc) (fst sc')
    ∧ exists blocks, process_buffer (snd sc') = process_buffer (snd sc) ++ concat blocks
                     ∧ Forall2 (R (fst sc')) l blocks.
Proof.
  intros HI HR. induction l as [|x l IH]; intros Hbody sc u sc' Hinv; simpl.
  - intros [= -> ->]%ret_Ok. split; [apply extends_refl|].
    exists []. simpl. rewrite app_nil_r. split; [reflexivity | constructor].
  - intros (u1 & sc1 & H1 & H2)%bind_Ok.
    destruct (Hbody x sc u1 sc1) as (Hext1 & block & Hbuf1 & HR1); [left | assumption.. |].
    destruct (IH (fun y sc0 u0 sc0' Hy => Hbody y sc0 u0 sc0' (list_elem_of_further _ _ _ Hy))
                sc1 u sc') as (Hext2 & blocks & Hbuf2 & HR2); [eauto | assumption |].
    split; [eapply extends_trans; eassumption|].
    exists (block :: blocks). simpl. rewrite Hbuf2, Hbuf1, <- app_assoc.
    split; [reflexivity|]. constructor; [eapply HR; eassumption | assumption].
Qed.

Lemma Forall2_singletons {A B} (R : A -> B -> Prop) l blocks :
  Forall2 (fun x block => exists y, block = [y] ∧ R x y) l blocks ->
  exists ys, concat blocks = ys ∧ Forall2 R l ys.
Proof.
  induction 1 as [|x block l blocks (y & -> & Hy) _ (ys & <- & IH)].
  - exists []. split; [reflexivity | constructor].
  - exists (y :: concat blocks). split; [reflexivity | now constructor].
Qed.

Section Defaults.
Context `{Frontend}.

Lemma lhs_signal_Ok signal st l st' :
  lhs_compiler (ast.Sig signal) st = Ok (l, st') ->
  extends st st' ∧ exists c, wires st' !! ast.sid signal = Some (c, Some l).
Proof.
  simpl. unfold LHS_on_Signal.
  intros ([c n] & st1 & [Hext Hw]%resolve_extends & Hn)%bind_Ok. simpl in Hn.
  destruct n as [n|]; [|discriminate]. apply ret_Ok in Hn as [= -> ->]. eauto.
Qed.

Lemma rhs_signal_Ok signal st r st' :
  rhs_compiler (ast.Sig signal) st = Ok (r, st') ->
  extends st st' ∧ exists n, wires st' !! ast.sid signal = Some (r, n).
Proof.
  simpl. unfold RHS_on_Signal.
  intros ([c n] & st1 & [Hext Hw]%resolve_extends & [= -> ->]%ret_Ok)%bind_Ok. eauto.
Qed.

(** The default case: one [assign] line per driven record, in order. *)
Lemma assign_defaults_Ok (indent : Z) (fragment : ir.Fragment) (sc sc' : Scope) u :
  assign_defaults indent fragment sc = Ok (u, sc') ->
  extends (fst sc) (fst sc')
  ∧ exists chunks,
      process_buffer (snd sc') = process_buffer (snd sc) ++ chunks
      ∧ Forall2 (default_chunk indent (fst sc')) (ir.iter_drivers fragment) chunks.
Proof.
  intros Hrun. unfold assign_defaults in Hrun.
  eapply (for_blocks _ (fun _ => True)
            (fun st ds block => exists chunk, block = [chunk] ∧ default_chunk indent st ds chunk))
    in Hrun as (Hext & blocks & Hbuf & HR); [| auto | | | exact I].
  - split; [assumption|]. apply Forall2_singletons in HR as (chunks & <- & HR). eauto.
  - intros st st' ds block Hst (chunk & -> & c & n & Hw & ->).
    exists (assign_text indent n match fst ds with None => reset_literal (snd ds) | Some _ => c end).
    split; [reflexivity|]. exists c, n. split; [|reflexivity].
    eapply lookup_weaken; [exact Hw | apply Hst].
  - intros [domain signal] sc0 u0 sc0' _ _. simpl.
    intros (l & sc1 & (st1 & [Hext1 [c Hw1]]%lhs_signal_Ok & ->)%on_fst_Ok & Hrest)%bind_Ok.
    apply bind_Ok in Hrest as (r & sc2 & (st2 & Hr & ->)%on_fst_Ok & Ha).
    apply on_snd_Ok in Ha as (p' & (Hbuf & _)%process_append_Ok & ->). simpl in *.
    destruct domain as [d|].
    + apply rhs_signal_Ok in Hr as [Hext2 [n Hw2]].
      pose proof (lookup_weaken _ _ _ _ Hw1 (ext_wires _ _ Hext2)) as Hw1'.
      rewrite Hw1' in Hw2. injection Hw2 as <- <-.
      split; [eapply extends_trans; eassumption|].
      eexists. split; [exact Hbuf|]. eexists. split; [reflexivity|].
      exists c, l. auto.
    + apply ret_Ok in Hr as [= -> ->].
      split; [assumption|].
      eexists. split; [exact Hbuf|]. eexists. split; [reflexivity|].
      exists c, l. auto.
Qed.

End Defaults.

Section ResetDefault.
Context `{Frontend}.

End ResetDefault.



(** ** The edge-triggered blocks *)

Lemma update_chunks_extends st st' signals chunks :
  extends st st' -> update_chunks st signals chunks -> update_chunks st' signals chunks.
Proof.
  intros Hext Hups. unfold update_chunks in *. eapply Forall2_impl; [exact Hups|].
  intros s chunk (c & n & Hw & ->). exists c, n. split; [|reflexivity].
  eapply lookup_weaken; [exact Hw | apply Hext].
Qed.

Lemma domains_get_Ok {S} fragment domain (s : S) cd s' :
  domains_get fragment domain s = Ok (cd, s') ->
  dict_get domain (ir.domains fragment) = Ok cd ∧ s' = s.
Proof.
  unfold domains_get. destruct (dict_get _ _); [|discriminate]. now intros [= -> ->].
Qed.

Lemma triggers_of_Ok fragment domain st triggers st' :
  triggers_of fragment domain st = Ok (triggers, st') ->
  extends st st' ∧ domain_triggers fragment st' domain triggers.
Proof.
  unfold triggers_of, domain_triggers. destruct domain as [d|].
  - intros (cd & st0 & [Hcd ->]%domains_get_Ok & (clk & st1 & Hclk & Hrest)%bind_Ok)%bind_Ok.
    unfold resolve_curr in Hclk.
    apply bind_Ok in Hclk as ([c n] & st1' & [Hext1 Hw1]%resolve_extends & [= -> ->]%ret_Ok).
    simpl in *. destruct (ir.async_reset cd) eqn:Hasync.
    + apply bind_Ok in Hrest as (rst & st2 & Hrst & [= -> ->]%ret_Ok).
      unfold resolve_curr_opt in Hrst. destruct (ir.rst cd) as [rst_signal|] eqn:Hr; [|discriminate].
      unfold resolve_curr in Hrst.
      apply bind_Ok in Hrst as ([c2 n2] & st2' & [Hext2 Hw2]%resolve_extends & [= -> ->]%ret_Ok).
      split; [eapply extends_trans; eassumption|].
      exists cd, c, n. split; [assumption|]. rewrite Hasync.
      split; [eapply lookup_weaken; [exact Hw1 | apply Hext2]|].
      exists rst_signal, c2, n2. auto.
    + apply ret_Ok in Hrest as [= -> ->]. split; [assumption|].
      exists cd, c, n. rewrite Hasync. auto.
  - intros [= -> ->]%ret_Ok. split; [apply extends_refl | reflexivity].
Qed.

Lemma sync_triggers_Ok triggers signals sc u sc' :
  wf_state (fst sc) ->
  (forall signal, signal ∈ signals -> is_Some (driven (fst sc) !! ast.sid signal)) ->
  sync_triggers triggers signals sc = Ok (u, sc') ->
  extends (fst sc) (fst sc')
  ∧ exists blocks,
      process_buffer (snd sc') = process_buffer (snd sc) ++ concat blocks
      ∧ Forall2 (trigger_block (fst sc') signals) triggers blocks.
Proof.
  intros Hwf Hreg Hrun. unfold sync_triggers in Hrun.
  set (I := fun st => wf_state st
                      ∧ forall signal, signal ∈ signals -> is_Some (driven st !! ast.sid signal)).
  assert (HI : forall st st', extends st st' -> I st -> I st').
  { intros st st' Hext [Hw Hr]. split; [now apply Hext|].
    intros s Hs. rewrite (ext_driven _ _ Hext). auto. }
  eapply (for_blocks _ I (fun st => trigger_block st signals)) in Hrun; [exact Hrun | exact HI | | | now split].
  - intros st st' trigger block Hext (ups & Hups & ->). exists ups.
    split; [eapply update_chunks_extends; eassumption | reflexivity].
  - intros trigger sc0 u0 sc0' _ Hinv.
    intros ([] & sc1 & (p1 & (Hbuf1 & _)%process_append_Ok & ->)%on_snd_Ok & Hloop)%bind_Ok.
    eapply (for_blocks _ I
              (fun st signal block =>
                 exists chunk, block = [chunk]
                   ∧ exists c n, wires st !! ast.sid signal = Some (c, Some n)
                                 ∧ chunk = update_text c (Some n)))
      in Hloop as (Hext & blocks & Hbuf & HR); [| exact HI | | | exact Hinv].
    + split; [exact Hext|]. apply Forall2_singletons in HR as (ups & <- & HR).
      exists (sync_text (fst trigger) (snd trigger) :: concat blocks).
      split; [|exists (concat blocks); split; [exact HR | reflexivity]].
      rewrite Hbuf. simpl. rewrite Hbuf1, <- app_assoc. reflexivity.
    + intros st st' s block Hext (chunk & -> & c & n & Hw & ->).
      eexists. split; [reflexivity|]. exists c, n. split; [|reflexivity].
      eapply lookup_weaken; [exact Hw | apply Hext].
    + intros s sc2 u2 sc2' Hs [Hwf2 Hreg2].
      intros ([c n] & sc3 & (st3 & Hres & ->)%on_fst_Ok & Hupd)%bind_Ok.
      apply on_snd_Ok in Hupd as (p3 & (Hbuf3 & _)%process_append_Ok & ->). simpl in *.
      destruct (resolve_extends _ _ _ _ Hres) as [Hext3 Hw3].
      split; [exact Hext3|]. eexists. split; [exact Hbuf3|].
      assert (Hn : is_Some n).
      { apply (wf_next _ (ext_wf _ _ Hext3 Hwf2) _ _ Hw3).
        rewrite (ext_driven _ _ Hext3). auto. }
      destruct Hn as [n' ->]. eexists. split; [reflexivity|]. eauto.
Qed.

(** The blocks of all the domains, in order. *)
Lemma sync_domains_Ok (fragment : ir.Fragment) (sc sc' : Scope) (u : unit) :
  wf_state (fst sc) ->
  drivers_registered fragment (fst sc) ->
  sync_domains fragment sc = Ok (u, sc') ->
  extends (fst sc) (fst sc')
  ∧ exists blocks,
      process_buffer (snd sc') = process_buffer (snd sc) ++ concat blocks
      ∧ Forall2 (domain_blocks fragment (fst sc')) (ir.drivers fragment) blocks.
Proof.
  intros Hwf Hreg Hrun. unfold sync_domains in Hrun.
  set (I := fun st => wf_state st ∧ drivers_registered fragment st).
  assert (HI : forall st st', extends st st' -> I st -> I st').
  { intros st st' Hext [Hw Hr]. split; [now apply Hext|].
    intros ds s Hds Hs. rewrite (ext_driven _ _ Hext). eauto. }
  eapply (for_blocks _ I (domain_blocks fragment)) in Hrun; [exact Hrun | exact HI | | | now split].
  - intros st st' [domain signals] chunks Hext (triggers & blocks & Htr & Hbl & ->).
    exists triggers, blocks. split; [|split; [|reflexivity]].
    + unfold domain_triggers in *. simpl in *. destruct domain as [d|]; [|assumption].
      destruct Htr as (cd & clk & w & Hcd & Hclk & Hrest). exists cd, clk, w.
      split; [assumption|]. split; [eapply lookup_weaken; [exact Hclk | apply Hext]|].
      destruct (ir.async_reset cd); [|assumption].
      destruct Hrest as (rs & rst & w' & Hrs & Hrst & ->). exists rs, rst, w'.
      split; [assumption|]. split; [eapply lookup_weaken; [exact Hrst | apply Hext] | reflexivity].
    + eapply Forall2_impl; [exact Hbl|]. intros trigger block (ups & Hups & ->).
      exists ups. split; [eapply update_chunks_extends; eassumption | reflexivity].
  - intros [domain signals] sc0 u0 sc0' Hds [Hwf0 Hreg0]. simpl.
    intros (triggers & sc1 & (st1 & [Hext1 Htr]%triggers_of_Ok & ->)%on_fst_Ok & Hsync)%bind_Ok.
    apply sync_triggers_Ok in Hsync as (Hext2 & blocks & Hbuf & Hbl); simpl in *.
    + split; [eapply extends_trans; eassumption|].
      exists (concat blocks). split; [exact Hbuf|].
      exists triggers, blocks. split; [|split; [exact Hbl | reflexivity]].
      unfold domain_triggers in *. simpl. destruct domain as [d|]; [|assumption].
      destruct Htr as (cd & clk & w & Hcd & Hclk & Hrest). exists cd, clk, w.
      split; [assumption|]. split; [eapply lookup_weaken; [exact Hclk | apply Hext2]|].
      destruct (ir.async_reset cd); [|assumption].
      destruct Hrest as (rs & rst & w' & Hrs & Hrst & ->). exists rs, rst, w'.
      split; [assumption|]. split; [eapply lookup_weaken; [exact Hrst | apply Hext2] | reflexivity].
    + now apply Hext1.
    + intros s Hs. rewrite (ext_driven _ _ Hext1). eapply Hreg0; [exact Hds | exact Hs].
Qed.

(** The blocks as they are written. *)
Lemma trigger_block_sync st signals kind cond block :
  trigger_block st signals (kind, cond) block ->
  sync_block st signals (kind :: match cond with Some c => [c] | None => [] end) block.
Proof.
  intros (updates & Hups & ->). exists updates. split.
  - eapply Forall2_impl; [exact Hups|]. intros signal chunk (c & n & Hw & ->).
    exists c, n. split; [exact Hw | apply update_text_line].
  - simpl. now rewrite sync_text_line.
Qed.

Lemma domain_blocks_text fragment st ds chunks :
  domain_blocks fragment st ds chunks -> domain_sync_text fragment st ds chunks.
Proof.
  intros (triggers & blocks & Htr & Hbl & ->). exists blocks. split; [|reflexivity].
  unfold domain_sync_blocks, domain_triggers in *. destruct (fst ds) as [d|].
  - destruct Htr as (cd & clk & clk_next & Hcd & Hclk & Hrest).
    exists cd, clk, clk_next. destruct (ir.async_reset cd).
    + destruct Hrest as (rs & rst & rst_next & Hrs & Hrst & ->).
      apply Forall2_cons_inv_l in Hbl as (b1 & blocks1 & H1%trigger_block_sync & Hbl & ->).
      apply Forall2_cons_inv_l in Hbl as (b2 & blocks2 & H2%trigger_block_sync & Hbl & ->).
      apply Forall2_nil_inv_l in Hbl as ->.
      exists b1. split; [exact Hcd|]. split; [exact Hclk|]. split; [exact H1|].
      exists rs, rst, rst_next, b2. auto.
    + subst triggers.
      apply Forall2_cons_inv_l in Hbl as (b1 & blocks1 & H1%trigger_block_sync & Hbl & ->).
      apply Forall2_nil_inv_l in Hbl as ->.
      exists b1. auto.
  - subst triggers.
    apply Forall2_cons_inv_l in Hbl as (b1 & blocks1 & H1%trigger_block_sync & Hbl & ->).
    apply Forall2_nil_inv_l in Hbl as ->.
    exists b1. auto.
Qed.

(** C6.  In a state of [convert_fragment] where the drivers are registered,
    the text written for the domains is, for every driven group in order:
    one block headed [sync always] for the combinational domain; for a
    synchronous domain one block headed [sync posedge] and the wire of its
    clock, followed by one headed [sync posedge] and the wire of its reset
    exactly when the reset is asynchronous; and every block holds, after its
    head, one [update] line per signal of the group, in order, that names the
    current wire of the signal and then its next wire. *)
Theorem sync_domains_blocks (fragment : ir.Fragment) (sc sc' : Scope) (u : unit) :
  wf_state (fst sc) ->
  drivers_registered fragment (fst sc) ->
  sync_domains fragment sc = Ok (u, sc') ->
  extends (fst sc) (fst sc')
  ∧ exists texts,
      process_buffer (snd sc') = process_buffer (snd sc) ++ concat texts
      ∧ Forall2 (domain_sync_text fragment (fst sc')) (ir.drivers fragment) texts.
Proof.
  intros Hwf Hreg Hrun.
  apply sync_domains_Ok in Hrun as (Hext & blocks & Hbuf & Hall); [|assumption..].
  split; [exact Hext|]. exists blocks. split; [exact Hbuf|].
  eapply Forall2_impl; [exact Hall|]. intros ds chunks. apply domain_blocks_text.
Qed.



Lemma extending_scope_ret {A} (a : A) : extending_scope (ret a).
Proof. intros sc a' sc' [= -> ->]%ret_Ok. apply extends_refl. Qed.

Lemma extending_scope_raise {A} e : extending_scope (@raise _ A e).
Proof. intros sc a sc' []%raise_Ok. Qed.

Lemma extending_scope_bind {A B} (m : M Scope A) (k : A -> M Scope B) :
  extending_scope m -> (forall a, extending_scope (k a)) -> extending_scope (bind m k).
Proof.
  intros Hm Hk sc b sc' (a & sc1 & H1 & H2)%bind_Ok.
  eapply extends_trans; [eapply Hm | eapply Hk]; eassumption.
Qed.

Lemma extending_scope_on_fst {A} (m : M _ValueCompilerState A) :
  extending m -> extending_scope (on_fst m).
Proof. intros Hm sc a sc' (st' & H1 & ->)%on_fst_Ok. simpl. eapply Hm, H1. Qed.

Lemma extending_scope_on_snd {A} (m : M _ProcessBuilder A) : extending_scope (on_snd m).
Proof. intros sc a sc' (p' & H1 & ->)%on_snd_Ok. simpl. apply extends_refl. Qed.

Lemma extending_scope_for_ {A} (body : A -> M Scope unit) l :
  Forall (fun x => extending_scope (body x)) l -> extending_scope (for_ body l).
Proof.
  induction 1 as [|x l Hx Hl IH]; simpl.
  - apply extending_scope_ret.
  - apply extending_scope_bind; [assumption|]. intros _. assumption.
Qed.

Ltac extending_scope_step :=
  first
    [ apply extending_scope_ret | apply extending_scope_raise
    | apply extending_scope_on_snd
    | apply extending_scope_bind; [|intros ?]
    | assumption ].

Section Process.
Context `{Frontend}.

Lemma extending_convert_stmt stmt : forall indent, extending_scope (_convert_stmt indent stmt).
Proof.
  induction stmt as [lhs rhs|test cases IH|] using Statement_induction; intros indent; simpl.
  - destruct (shape lhs) as [lhs_bits lhs_sign], (shape rhs) as [rhs_bits rhs_sign].
    apply extending_scope_bind.
    + destruct (lhs_bits =? rhs_bits); apply extending_scope_on_fst;
        [apply extending_rhs_compiler | apply extending_rhs_match_shape].
    + intros r. apply extending_scope_bind;
        [apply extending_scope_on_fst, extending_lhs_compiler | intros l; extending_scope_step].
  - apply extending_scope_bind; [apply extending_scope_on_fst, extending_rhs_compiler|].
    intros cond. repeat extending_scope_step.
    apply extending_scope_for_. eapply Forall_impl; [exact IH|].
    intros [value stmts] Hstmts. simpl in *. repeat extending_scope_step.
    apply extending_scope_for_. eapply Forall_impl; [exact Hstmts|]. auto.
  - extending_scope_step.
Qed.

Lemma extending_convert_stmts indent stmts : extending_scope (_convert_stmts indent stmts).
Proof.
  unfold _convert_stmts. apply extending_scope_for_, Forall_forall.
  intros stmt _. apply extending_convert_stmt.
Qed.

Lemma extending_sync_init fragment : extending_scope (sync_init fragment).
Proof.
  unfold sync_init. repeat extending_scope_step.
  apply extending_scope_for_, Forall_forall. intros ds _.
  apply extending_scope_bind; [apply extending_scope_on_fst, extending_resolve|]. intros w.
  apply extending_scope_bind; [apply extending_scope_on_fst, extending_rhs_compiler|]. intros r.
  extending_scope_step.
Qed.

(** The process of a module, phase by phase: each phase runs from the state
    the previous one left, the loop of the edge-triggered blocks starts in a
    state of [convert_fragment] where the drivers are registered, and the
    text of the process is flushed into the module as one chunk. *)
Lemma convert_process_phases fragment st u st' :
  wf_state st -> drivers_registered fragment st ->
  convert_process fragment st = Ok (u, st') ->
  exists sc1 sc2 sc3 sc4 sc5 : Scope,
    extends st (fst sc1)
    ∧ process_buffer (snd sc1) = [process_text (process_name (snd sc1))]
    ∧ assign_defaults 2 fragment sc1 = Ok (tt, sc2)
    ∧ _convert_stmts 2 (ir.statements fragment) sc2 = Ok (tt, sc3)
    ∧ sync_init fragment sc3 = Ok (tt, sc4)
    ∧ wf_state (fst sc4) ∧ drivers_registered fragment (fst sc4)
    ∧ sync_domains fragment sc4 = Ok (tt, sc5)
    ∧ extends st (fst sc5)
    ∧ st' = set_rtlil
              (set_module_buffer
                 (module_buffer (rtlil (fst sc5))
                    ++ [getvalue (process_buffer (snd sc5) ++ [process_end_text])])
                 (rtlil (fst sc5)))
              (fst sc5).
Proof.
  intros Hwf Hreg. unfold convert_process.
  intros (process & st0 & Hp & Hbody)%bind_Ok.
  apply on_rtlil_Ok in Hp as (m0 & Hp & ->).
  unfold _ModuleBuilder_process in Hp.
  apply bind_Ok in Hp as (name & m0' & Hname & [= -> <-]%ret_Ok).
  apply module_make_name_Ok in Hname as (_ & Hnames & Hbuf & Hmn & _).
  assert (Hext0 : extends st (set_rtlil m0 st)).
  { apply extends_set_rtlil; [rewrite Hnames; set_solver | now rewrite Hbuf | assumption]. }
  match type of Hbody with match ?run with _ => _ end = _ =>
    destruct run as [[[] [st5 p5]]|e] eqn:Hrun; [|discriminate] end.
  apply bind_Ok in Hrun as ([] & sc1 & Henter & Hrun).
  apply on_snd_Ok in Henter as (p1 & Henter & ->). simpl in Henter.
  unfold _ProcessBuilder_enter in Henter.
  apply bind_Ok in Henter as (self & p0 & [= -> ->]%get_Ok & Henter).
  apply bind_Ok in Henter as ([] & p0' & H0%process_append_Ok & H1%process_append_Ok).
  simpl in H0, H1. destruct H0 as (Hb0 & Hn0 & _). destruct H1 as (Hb1 & Hn1 & _).
  apply bind_Ok in Hrun as ([] & sc2 & Hdef & Hrun).
  apply bind_Ok in Hrun as ([] & sc3 & Hstmts & Hrun).
  apply bind_Ok in Hrun as ([] & sc4 & Hinit & Hsync).
  pose proof (proj1 (assign_defaults_Ok _ _ _ _ _ Hdef)) as Hext2.
  pose proof (extending_convert_stmts _ _ _ _ _ Hstmts) as Hext3.
  pose proof (extending_sync_init _ _ _ _ Hinit) as Hext4. simpl in Hext2.
  assert (Hext14 : extends st (fst sc4)).
  { eapply extends_trans; [exact Hext0|]. eapply extends_trans; [exact Hext2|].
    eapply extends_trans; [exact Hext3 | exact Hext4]. }
  assert (Hwf4 : wf_state (fst sc4)) by now apply Hext14.
  assert (Hreg4 : drivers_registered fragment (fst sc4)).
  { intros ds s Hds Hs. rewrite (ext_driven _ _ Hext14). eauto. }
  pose proof (proj1 (sync_domains_Ok _ _ _ _ Hwf4 Hreg4 Hsync)) as Hext5. simpl in Hext5.
  apply on_rtlil_Ok in Hbody as (m6 & ->%module_append_Ok & ->).
  exists (set_rtlil m0 st, p1), sc2, sc3, sc4, (st5, p5). simpl.
  split; [exact Hext0|]. split; [rewrite Hb1, Hb0, Hn1, Hn0; reflexivity|].
  split; [exact Hdef|]. split; [exact Hstmts|]. split; [exact Hinit|].
  split; [exact Hwf4|]. split; [exact Hreg4|]. split; [exact Hsync|].
  split; [eapply extends_trans; eassumption | reflexivity].
Qed.

Lemma convert_process_extends fragment st u st' :
  wf_state st -> drivers_registered fragment st ->
  convert_process fragment st = Ok (u, st') -> extends st st'.
Proof.
  intros Hwf Hreg Hrun.
  destruct (convert_process_phases _ _ _ _ Hwf Hreg Hrun)
    as (sc1 & sc2 & sc3 & sc4 & sc5 & _ & _ & _ & _ & _ & _ & _ & _ & Hext & ->).
  eapply extends_trans; [exact Hext|].
  apply extends_set_rtlil; simpl; [reflexivity | now apply prefix_app_r | reflexivity].
Qed.

End Process.

Lemma wf_state_no_wires st :
  wires st = ∅ ->
  (forall sid p, ports st !! sid = Some p -> In (snd p) port_kinds) ->
  wf_state st.
Proof.
  intros Hw Hp. constructor; try (intros *; rewrite Hw, lookup_empty; discriminate).
  exact Hp.
Qed.

Lemma add_port_extends signal kind : extending (add_port signal kind).
Proof.
  intros st u st'. unfold add_port.
  intros (kind' & st1 & Hkind & Hmod)%bind_Ok.
  assert (In kind' port_kinds ∧ st1 = st) as [Hin ->].
  { unfold port_kinds. simpl.
    destruct (String.eqb kind "i"); [apply ret_Ok in Hkind as [= -> ->]; auto|].
    destruct (String.eqb kind "o"); [apply ret_Ok in Hkind as [= -> ->]; auto|].
    destruct (String.eqb kind "io"); [apply ret_Ok in Hkind as [= -> ->]; auto 6|].
    now apply raise_Ok in Hkind. }
  unfold modify in Hmod. injection Hmod as _ <-.
  constructor; simpl; auto; try reflexivity.
  intros [Hreg Hdis Hnext Hkinds]. constructor; simpl; auto.
  intros sid p. rewrite lookup_insert. case_decide; [intros [= <-]; exact Hin | apply Hkinds].
Qed.

Lemma for_Ok_Forall {S A} (body : A -> M S unit) (R : S -> S -> Prop) :
  (forall s, R s s) -> (forall s1 s2 s3, R s1 s2 -> R s2 s3 -> R s1 s3) ->
  forall l,
  (forall x s u s', x ∈ l -> body x s = Ok (u, s') -> R s s') ->
  forall s u s', for_ body l s = Ok (u, s') -> R s s'.
Proof.
  intros Hrefl Htrans. induction l as [|x l IH]; intros Hbody s u s'; simpl.
  - intros [= -> ->]%ret_Ok. apply Hrefl.
  - intros (u1 & s1 & H1 & H2)%bind_Ok. eapply Htrans.
    + eapply Hbody; [left | exact H1].
    + eapply IH; [|exact H2]. intros y s0 u0 s0' Hy. apply Hbody. now right.
Qed.

Section ModuleBody.
Context `{Frontend}.

Lemma register_drivers_Ok fragment st u st' :
  register_drivers fragment st = Ok (u, st') ->
  wires st' = wires st ∧ ports st' = ports st ∧ rtlil st' = rtlil st
  ∧ drivers_registered fragment st'.
Proof.
  unfold register_drivers, drivers_registered, ir.iter_drivers.
  generalize (ir.drivers fragment). intros drivers.
  assert (Hgen : forall (l : list (option string * ast.Signal)) st u st',
    for_ (fun ds => add_driven (snd ds) (match fst ds with Some _ => true | None => false end))
         l st = Ok (u, st') ->
    wires st' = wires st ∧ ports st' = ports st ∧ rtlil st' = rtlil st
    ∧ (forall sid, is_Some (driven st !! sid) -> is_Some (driven st' !! sid))
    ∧ (forall ds, ds ∈ l -> is_Some (driven st' !! ast.sid (snd ds)))).
  { induction l as [|ds l IH]; intros st0 u0 st0'; simpl.
    - intros [= -> ->]%ret_Ok. repeat split; auto. intros ds Hds. inversion Hds.
    - intros (u1 & st1 & Hadd & Hrest)%bind_Ok. unfold add_driven, modify in Hadd.
      injection Hadd as _ <-. apply IH in Hrest as (Hw & Hp & Hr & Hmono & Hall).
      simpl in *. repeat split; auto.
      + intros sid Hsid. apply Hmono. rewrite lookup_insert. case_decide; eauto.
      + intros ds' [->|Hds]%elem_of_cons; [|auto].
        apply Hmono. rewrite lookup_insert_eq. eauto. }
  intros Hrun. apply Hgen in Hrun as (Hw & Hp & Hr & _ & Hall).
  repeat split; auto. intros ds signal Hds Hs.
  apply (Hall (fst ds, signal)). apply list_elem_of_In, in_flat_map.
  exists ds. split; [now apply list_elem_of_In|].
  apply in_map_iff. exists signal. split; [reflexivity | now apply list_elem_of_In].
Qed.

Lemma lower_ports_Ok fragment st u st' :
  lower_ports fragment st = Ok (u, st') ->
  extends st st'
  ∧ forall p, p ∈ ir.ports fragment -> is_Some (wires st' !! ast.sid (fst p)).
Proof.
  unfold lower_ports. generalize (ir.ports fragment). intros l. revert st u.
  induction l as [|p l IH]; intros st u; simpl.
  - intros [= -> ->]%ret_Ok. split; [apply extends_refl|]. intros p Hp. inversion Hp.
  - intros (u1 & st1 & Hbody & Hrest)%bind_Ok.
    apply bind_Ok in Hbody as (u2 & st2 & Hadd%add_port_extends & Hbody).
    apply bind_Ok in Hbody as (w & st3 & [Hext [n Hw]]%rhs_signal_Ok & [= -> ->]%ret_Ok).
    apply IH in Hrest as [Hext' Hall].
    split; [eapply extends_trans; [exact Hadd|]; eapply extends_trans; eassumption|].
    intros q [->|Hq]%elem_of_cons; [|auto].
    exists (w, n). eapply lookup_weaken; [exact Hw | apply Hext'].
Qed.

Lemma extending_lower_clocks fragment : extending (lower_clocks fragment).
Proof.
  unfold lower_clocks. apply extending_for_, Forall_forall. intros ds _.
  apply extending_bind.
  - intros st cd st' [_ ->]%domains_get_Ok. apply extends_refl.
  - intros cd. apply extending_bind; [apply extending_rhs_compiler|]. intros _.
    apply extending_bind; [|intros _; apply extending_ret].
    unfold rhs_compiler_opt. destruct (ir.rst cd); [|apply extending_ret].
    apply extending_bind; [apply extending_rhs_compiler | intros ?; apply extending_ret].
Qed.

Lemma extends_set_sub_name st n : extends st (set_sub_name n st).
Proof.
  constructor; simpl; auto; try reflexivity.
  intros [Hreg Hdis Hnext Hkinds]. constructor; simpl; auto.
Qed.

Lemma extending_instantiate sub sub_port_map : extending (instantiate sub sub_port_map).
Proof.
  unfold instantiate, hierarchy. apply extending_bind.
  - intros st u st' [= _ <-]. apply extends_set_sub_name.
  - intros _. apply extending_bind.
    + apply extending_bind.
      * apply extending_for_each, Forall_forall. intros ps _.
        apply extending_bind; [apply extending_rhs_compiler | intros ?; apply extending_ret].
      * intros cports. apply extending_bind; [apply extending_cell | intros ?; apply extending_ret].
    + intros r. apply extending_bind; [|intros ?; apply extending_ret].
      intros st u st' [= _ <-]. apply extends_set_sub_name.
Qed.

(** The body of a module reaches its process in a state of
    [convert_fragment]: the drivers are registered and the ports resolved. *)
Lemma module_body_process convert_sub fragment b module u b' st' :
  module_body convert_sub fragment (b, _ValueCompilerState_init module) = Ok (u, (b', st')) ->
  exists st,
    wf_state st
    ∧ drivers_registered fragment st
    ∧ module_name (rtlil st) = module_name module
    ∧ (forall p, p ∈ ir.ports fragment -> is_Some (wires st !! ast.sid (fst p)))
    ∧ convert_process fragment st = Ok (u, st').
Proof.
  unfold module_body.
  intros (u1 & sc1 & (st1 & Henter & ->)%on_snd_Ok & Hrun)%bind_Ok. simpl in *.
  apply on_rtlil_Ok in Henter as (m1 & Henter & ->).
  unfold _ModuleBuilder_enter in Henter.
  apply bind_Ok in Henter as (self & m0 & [= -> ->]%get_Ok & Henter).
  apply bind_Ok in Henter as (u0 & m2 & ->%module_append_Ok & ->%module_append_Ok).
  apply bind_Ok in Hrun as (u2 & sc2 & (st2 & Hreg & ->)%on_snd_Ok & Hrun). simpl in *.
  apply register_drivers_Ok in Hreg as (Hw2 & Hp2 & Hr2 & Hreg2). simpl in *.
  assert (Hwf2 : wf_state st2).
  { apply wf_state_no_wires; [assumption|]. intros sid p. rewrite Hp2, lookup_empty. discriminate. }
  apply bind_Ok in Hrun as (u3 & sc3 & (st3 & [Hext3 Hports]%lower_ports_Ok & ->)%on_snd_Ok & Hrun).
  apply bind_Ok in Hrun as (u4 & sc4 & (st4 & Hext4%extending_lower_clocks & ->)%on_snd_Ok & Hrun).
  apply bind_Ok in Hrun as (u5 & [b5 st5] & Hsubs & (st6 & Hproc & [= -> <-])%on_snd_Ok).
  simpl in *.
  assert (Hext5 : extends st4 st5).
  { change st4 with (snd (b, st4)). change st5 with (snd (b5, st5)).
    eapply (for_Ok_Forall _ (fun s s' => extends (snd s) (snd s'))) in Hsubs;
      [exact Hsubs | intros; apply extends_refl | intros; eapply extends_trans; eassumption |].
    intros sub s v s' _.
    intros (r & s1 & (b1 & _ & ->)%on_fst_Ok & (st1' & Hinst%extending_instantiate & ->)%on_snd_Ok)%bind_Ok.
    exact Hinst. }
  assert (Hext25 : extends st2 st5).
  { eapply extends_trans; [exact Hext3|]. eapply extends_trans; eassumption. }
  exists st5. split; [now apply Hext25|]. split; [|split; [|split; [|exact Hproc]]].
  - intros ds s Hds Hs. rewrite (ext_driven _ _ Hext25). eauto.
  - rewrite (ext_module_name _ _ Hext25), Hr2. reflexivity.
  - intros p Hp. destruct (Hports p Hp) as [w Hw]. exists w.
    eapply lookup_weaken; [exact Hw|]. etransitivity; [apply Hext4 | apply Hext5].
Qed.

(** The state a module body ends in. *)
Lemma module_body_Ok convert_sub fragment b module u b' st' :
  module_body convert_sub fragment (b, _ValueCompilerState_init module) = Ok (u, (b', st')) ->
  wf_state st'
  ∧ module_name (rtlil st') = module_name module
  ∧ (forall p, p ∈ ir.ports fragment -> is_Some (wires st' !! ast.sid (fst p)))
  ∧ drivers_registered fragment st'.
Proof.
  intros (st & Hwf & Hreg & Hname & Hports & Hproc)%module_body_process.
  pose proof (convert_process_extends _ _ _ _ Hwf Hreg Hproc) as Hext.
  split; [now apply Hext|]. split; [|split].
  - rewrite (ext_module_name _ _ Hext). exact Hname.
  - intros p Hp. destruct (Hports p Hp) as [w Hw]. exists w.
    eapply lookup_weaken; [exact Hw | apply Hext].
  - intros ds s Hds Hs. rewrite (ext_driven _ _ Hext). eauto.
Qed.

End ModuleBody.

Lemma dict_set_fresh {V} (k : string) (v : V) d :
  k ∉ map fst d -> dict_set k v d = d ++ [(k, v)].
Proof.
  induction d as [|[k' v'] d IH]; simpl; [reflexivity|]. intros Hk.
  destruct (String.eqb_spec k k') as [->|Hne].
  - exfalso. apply Hk. left.
  - rewrite IH; [reflexivity|]. intros Hin. apply Hk. now right.
Qed.

Lemma dict_update_fresh {V} (e : list (string * V)) : forall d,
  NoDup (map fst (d ++ e)) -> dict_update d e = d ++ e.
Proof.
  unfold dict_update. induction e as [|[k v] e IH]; intros d Hnd; simpl.
  - now rewrite app_nil_r.
  - rewrite dict_set_fresh.
    + rewrite IH; rewrite <- app_assoc; [reflexivity | exact Hnd].
    + rewrite map_app in Hnd. simpl in Hnd. apply NoDup_app in Hnd as (_ & Hdis & _).
      intros Hin. apply (Hdis k Hin). left.
Qed.

Section PortMap.
Context `{Frontend}.

Lemma port_entries_NoDup st (l : list (ast.Signal * string)) entries :
  wf_state st ->
  NoDup (map (fun p => ast.sid (fst p)) l) ->
  Forall2 (port_entry st) l entries ->
  NoDup (map fst entries).
Proof.
  intros Hwf Hnd HF. induction HF as [|p e l entries [He [n Hw]] HF IH]; simpl.
  - constructor.
  - simpl in Hnd. apply NoDup_cons in Hnd as [Hp Hnd]. constructor; [|auto].
    intros Hin. apply Hp. apply list_elem_of_fmap in Hin as (e' & Hk & He').
    apply list_elem_of_lookup in He' as [i Hi].
    destruct (Forall2_lookup_r _ _ _ _ _ HF Hi) as (p' & Hp' & _ & n' & Hw').
    apply list_elem_of_fmap. exists p'. split; [|eapply list_elem_of_lookup_2, Hp'].
    eapply (wf_distinct _ Hwf); [exact Hw | exact Hw' |]. simpl. congruence.
Qed.

Lemma collect_port_map_Ok fragment st pm st' :
  wf_state st ->
  NoDup (map (fun p => ast.sid (fst p)) (ir.ports fragment)) ->
  (forall p, p ∈ ir.ports fragment -> is_Some (wires st !! ast.sid (fst p))) ->
  collect_port_map fragment st = Ok (pm, st') ->
  st' = st ∧ Forall2 (port_entry st) (ir.ports fragment) pm ∧ NoDup (map fst pm).
Proof.
  intros Hwf Hnd Hall. unfold collect_port_map.
  intros (entries & st1 & Hentries & [= -> ->]%ret_Ok)%bind_Ok.
  assert (Hgen : forall l entries st1,
    (forall p, p ∈ l -> is_Some (wires st !! ast.sid (fst p))) ->
    for_each (fun p : ast.Signal * string =>
                let* w := resolve_curr (fst p) in ret (w, fst p)) l st = Ok (entries, st1) ->
    st1 = st ∧ Forall2 (port_entry st) l entries).
  { clear. induction l as [|p l IH]; intros entries st1 Hall; simpl.
    - intros [= -> ->]%ret_Ok. split; [reflexivity | constructor].
    - destruct (Hall p) as [[c n] Hw]; [left|].
      unfold bind at 1. unfold bind at 1. unfold resolve_curr, bind at 1.
      rewrite (resolve_cached _ _ _ Hw). unfold ret at 1. unfold ret at 1.
      intros (es & st2 & Hrest & [= -> ->]%ret_Ok)%bind_Ok.
      apply IH in Hrest as [-> HF]; [|intros q Hq; apply Hall; now right].
      split; [reflexivity|]. constructor; [|assumption]. split; [reflexivity|]. eauto. }
  apply Hgen in Hentries as [-> HF]; [|assumption].
  pose proof (port_entries_NoDup _ _ _ Hwf Hnd HF) as Hkeys.
  rewrite (dict_update_fresh entries []) by exact Hkeys. auto.
Qed.

(** C8.  [convert_fragment] returns a port map with one entry per port
    signal, in port order, under distinct keys: the value of an entry is the
    port signal and its key is the current wire that the signal has in the
    compiler state the activation ends in. *)
Theorem convert_fragment_port_map (fragment : ir.Fragment) (name : option string)
    (top : bool) (builder builder' : _Builder) (module_name' : string)
    (port_map : list (string * ast.Signal)) :
  NoDup (map (fun p => ast.sid (fst p)) (ir.ports fragment)) ->
  convert_fragment fragment name top builder = Ok ((module_name', port_map), builder') ->
  map snd port_map = map fst (ir.ports fragment)
  ∧ NoDup (map fst port_map)
  ∧ exists module builder1 builder2 st,
      _Builder_module (Some (or_default name "anonymous"))
        (if top then [("top", AttrInt 1)] else []) builder = Ok (module, builder1)
      ∧ module_body (fun sub => convert_fragment (fst sub) (snd sub) false) fragment
          (builder1, _ValueCompilerState_init module) = Ok (tt, (builder2, st))
      ∧ module_name' = module_name module
      ∧ Forall2 (port_entry st) (ir.ports fragment) port_map.
Proof.
  intros Hnd Hrun. destruct fragment as [fports fdrivers fstmts fdomains fsubs].
  simpl in Hrun. apply bind_Ok in Hrun as (module & builder1 & Hmod & Hrun).
  match type of Hrun with match ?run with _ => _ end = _ =>
    destruct run as [[[] [builder2 st]]|e] eqn:Hbody; [|discriminate] end.
  match type of Hrun with match ?run with _ => _ end = _ =>
    destruct run as [[pm st']|e] eqn:Hpm; [|discriminate] end.
  injection Hrun as <- <- <-.
  destruct (module_body_Ok _ _ _ _ _ _ _ Hbody) as (Hwf & Hname & Hports & _).
  apply collect_port_map_Ok in Hpm as (-> & HF & Hkeys); [|assumption..].
  split; [|split; [exact Hkeys|]].
  - clear -HF. induction HF as [|p e l es [He _] _ IH]; simpl; [reflexivity|].
    now rewrite He, IH.
  - exists module, builder1, builder2, st. auto.
Qed.

End PortMap.

(** ** The theorems at the examples *)

Lemma driving_no_wires (signals : list ast.Signal) :
  wires (Example.driving signals) = ∅ ∧ ports (Example.driving signals) = ∅.
Proof.
  unfold Example.driving.
  assert (Hgen : forall st0 : _ValueCompilerState, wires st0 = ∅ -> ports st0 = ∅ ->
    forall st, wires st = ∅ -> ports st = ∅ ->
    wires (match for_ (fun s => add_driven s false) signals st with
           | Ok (_, st') => st'
           | Raise _ => st0
           end) = ∅
    ∧ ports (match for_ (fun s => add_driven s false) signals st with
             | Ok (_, st') => st'
             | Raise _ => st0
             end) = ∅).
  { intros st0 Hw0 Hp0. induction signals as [|s signals IH]; intros st Hw Hp; simpl; [auto|].
    unfold bind, add_driven, modify. apply IH; assumption. }
  apply Hgen; reflexivity.
Qed.

Lemma wf_state_driving (signals : list ast.Signal) : wf_state (Example.driving signals).
Proof.
  destruct (driving_no_wires signals) as [Hw Hp].
  apply wf_state_no_wires; [exact Hw|]. intros sid p. rewrite Hp, lookup_empty. discriminate.
Qed.

Lemma allocate_all_distinct_witness :
  exists names self',
    allocate_all [(Some "a", false); (Some "a", false); (None, true); (Some "$1", true)]
      _Namer_init = Ok (names, self')
    ∧ NoDup names.
Proof.
  pose proof (allocate_all_distinct
                [(Some "a", false); (Some "a", false); (None, true); (Some "$1", true)]
                _Namer_init) as Hall.
  destruct (allocate_all _ _) as [[names self']|e] eqn:Hrun; [|vm_compute in Hrun; discriminate].
  exists names, self'. split; [reflexivity | apply Hall].
Defined.

Lemma lhs_compiler_non_signal_witness :
  exists w st',
    lhs_compiler (H := Example.frontend) (ast.Sig Example.S8) (Example.driving [Example.S8])
      = Ok (w, st')
    ∧ lhs_compiler (H := Example.frontend) (ast.Slice (ast.Sig Example.S8) 0 1)
        (Example.driving [Example.S8]) = Ok (w +:+ " [0]", st').
Proof.
  destruct (lhs_compiler (H := Example.frontend) (ast.Sig Example.S8)
              (Example.driving [Example.S8])) as [[w st']|e] eqn:Hrun;
    [|vm_compute in Hrun; discriminate].
  exists w, st'. split; [reflexivity|].
  exact (proj2 (lhs_compiler_non_signal (H := Example.frontend)
                  (ast.Slice (ast.Sig Example.S8) 0 1) (Example.driving [Example.S8]))
           w st' Hrun).
Defined.

Lemma operator_operands_matched_witness :
  exists res st',
    rhs_compiler (H := Example.frontend)
      (ast.Operator "+" [ast.Sig Example.b8; ast.Sig Example.c4]) (Example.driving [])
      = Ok (res, st')
    ∧ binary_operands_matched (H := Example.frontend) "+" (ast.Sig Example.b8)
        (ast.Sig Example.c4) (Example.driving []) res st'.
Proof.
  destruct (rhs_compiler (H := Example.frontend)
              (ast.Operator "+" [ast.Sig Example.b8; ast.Sig Example.c4]) (Example.driving []))
    as [[res st']|e] eqn:Hrun; [|vm_compute in Hrun; discriminate].
  exists res, st'. split; [reflexivity|].
  exact (proj1 (operator_operands_matched (H := Example.frontend)) _ _ _ _ _ _ Hrun).
Defined.

Lemma assign_coerces_rhs_witness :
  exists sc',
    _convert_stmt (H := Example.frontend) 2 (ast.Assign (ast.Sig Example.t1) Example.three)
      (Example.driving [Example.t1], Example.process0) = Ok (tt, sc')
    ∧ assign_coerced (H := Example.frontend)
        (snd (@shape Example.frontend Example.three)) 2 (ast.Sig Example.t1)
        Example.three (Example.driving [Example.t1], Example.process0) sc'.
Proof.
  destruct (_convert_stmt (H := Example.frontend) 2
              (ast.Assign (ast.Sig Example.t1) Example.three)
              (Example.driving [Example.t1], Example.process0))
    as [[[] sc']|e] eqn:Hrun; [|vm_compute in Hrun; discriminate].
  exists sc'. split; [reflexivity|].
  apply (assign_coerces_rhs (H := Example.frontend) 2 (ast.Sig Example.t1) Example.three
           (Example.driving [Example.t1], Example.process0) sc'); [|exact Hrun].
  vm_compute. discriminate.
Defined.

Lemma LHS_on_Signal_driven_witness :
  exists wire_curr wire_next st',
    lhs_compiler (H := Example.frontend) (ast.Sig Example.S8) (Example.driving [Example.S8])
      = Ok (wire_next, st')
    ∧ wires st' !! ast.sid Example.S8 = Some (wire_curr, Some wire_next)
    ∧ extends (Example.driving [Example.S8]) st'.
Proof.
  exact (LHS_on_Signal_driven (H := Example.frontend) Example.S8 (Example.driving [Example.S8])
           (wf_state_driving [Example.S8]) ltac:(discriminate)).
Defined.

Lemma resolve_idempotent_witness :
  exists w st',
    resolve Example.S8 (Example.driving [Example.S8]) = Ok (w, st')
    ∧ module_buffer (rtlil st') = declaration_lines Example.S8 None w
    ∧ forall st'', extends st' st'' -> resolve Example.S8 st'' = Ok (w, st'').
Proof.
  destruct (resolve Example.S8 (Example.driving [Example.S8])) as [[w st']|e] eqn:Hrun;
    [|vm_compute in Hrun; discriminate].
  exists w, st'. split; [reflexivity|].
  destruct (resolve_idempotent Example.S8 _ _ _ Hrun) as [Hfirst Hlater].
  split; [exact (proj1 (Hfirst eq_refl)) | exact Hlater].
Defined.

Lemma sync_domains_blocks_witness :
  exists sc',
    sync_domains Example.two_domains
      (Example.driving [Example.b8; Example.S8; Example.s4], Example.process0) = Ok (tt, sc')
    ∧ exists texts,
        process_buffer (snd sc') = process_buffer Example.process0 ++ concat texts
        ∧ Forall2 (domain_sync_text Example.two_domains (fst sc'))
            (ir.drivers Example.two_domains) texts.
Proof.
  destruct (sync_domains Example.two_domains
              (Example.driving [Example.b8; Example.S8; Example.s4], Example.process0))
    as [[[] sc']|e] eqn:Hrun; [|vm_compute in Hrun; discriminate].
  exists sc'. split; [reflexivity|].
  refine (proj2 (sync_domains_blocks Example.two_domains
                   (Example.driving [Example.b8; Example.S8; Example.s4], Example.process0)
                   sc' tt (wf_state_driving _) _ Hrun)).
  intros ds signal Hds Hs. simpl in Hds.
  repeat (apply elem_of_cons in Hds as [->|Hds]); [| |inversion Hds]; simpl in Hs;
    repeat (apply elem_of_cons in Hs as [->|Hs]); try (inversion Hs; fail);
    vm_compute; eauto.
Defined.

Lemma convert_fragment_port_map_witness :
  exists module_name' port_map builder',
    convert_fragment (H := Example.frontend) Example.sole_port (Some "top") true _Builder_init
      = Ok ((module_name', port_map), builder')
    ∧ map snd port_map = [Example.P1] ∧ NoDup (map fst port_map).
Proof.
  destruct (convert_fragment (H := Example.frontend) Example.sole_port (Some "top") true
              _Builder_init) as [[[mname pm] b']|e] eqn:Hrun;
    [|vm_compute in Hrun; discriminate].
  exists mname, pm, b'. split; [reflexivity|].
  assert (Hnd : NoDup (map (fun p : ast.Signal * string => ast.sid (fst p))
                         (ir.ports Example.sole_port))).
  { simpl. apply NoDup_singleton. }
  destruct (convert_fragment_port_map (H := Example.frontend) Example.sole_port (Some "top") true
              _Builder_init b' mname pm Hnd Hrun) as (Hvalues & Hkeys & _).
  split; [exact Hvalues | exact Hkeys].
Defined.

(** * Further properties of the back end *)

(** ** More lines of the text *)

Lemma process_text_line name : process_text name = process_line name.
Proof. unfold process_text, process_line. line_eq. Qed.

Lemma process_end_text_line : process_end_text = end_line 2.
Proof. unfold process_end_text, end_line. line_eq. Qed.

Lemma switch_text_line indent cond : switch_text indent cond = switch_line indent cond.
Proof.
  unfold switch_text, switch_line, rtlil_line. rewrite str_mul_indent.
  f_equal; unfold Py.join; cbn [String.concat]; rewrite ?append_assoc; reflexivity.
Qed.

Lemma switch_end_text_line indent :
  switch_end_text indent = end_line (2 * Z.to_nat indent).
Proof.
  unfold switch_end_text, end_line, rtlil_line. rewrite str_mul_indent. reflexivity.
Qed.

Lemma case_text_line indent value : case_text indent value = case_line indent value.
Proof.
  unfold case_text, case_line, rtlil_line. destruct value as [v|]; rewrite str_mul_indent;
    f_equal; unfold Py.join; cbn [String.concat]; rewrite ?append_assoc; reflexivity.
Qed.

Lemma module_text_line name : module_text name = module_line name.
Proof. unfold module_text, module_line. line_eq. Qed.

Lemma module_end_text_line : module_end_text = end_line 0.
Proof. unfold module_end_text, end_line. line_eq. Qed.

Lemma module_attribute_text_line name value :
  module_attribute_text name value = attribute_line 0 name value.
Proof.
  unfold module_attribute_text, attribute_line, quoted. destruct value; line_eq.
Qed.

(** ** The names that the allocator returns *)

Lemma starts_with_marker_append s t :
  starts_with_marker s = true -> starts_with_marker (s +:+ t) = true.
Proof. destruct s as [|c s]; [discriminate | intros Hm; exact Hm]. Qed.

Lemma starts_with_marker_public name : starts_with_marker (public_name name) = true.
Proof.
  unfold public_name. destruct (starts_with_marker name) eqn:Hm; [exact Hm | reflexivity].
Qed.

(** The loop only appends to the name it starts from; a free name is kept
    and costs no counter value, a taken one costs at least one. *)
Lemma _make_name_while_suffix fuel names : forall index name i n,
  _make_name_while fuel names index name = Some (i, n) ->
  exists suffix,
    n = name +:+ suffix
    ∧ (name ∉ names -> suffix = "" ∧ i = index)
    ∧ (name ∈ names -> index < i).
Proof.
  induction fuel as [|fuel IH]; intros index name i n; simpl;
    destruct (decide (name ∈ names)) as [Hin|Hout]; try discriminate.
  - intros [= <- <-]. exists "". rewrite append_empty_r. tauto.
  - intros Hrun. pose proof Hrun as Hle. apply _make_name_while_fresh in Hle as [_ Hle].
    apply IH in Hrun as (suffix & -> & _ & _).
    exists (dollar +:+ str_int (index + 1) +:+ suffix).
    rewrite !append_assoc. split; [reflexivity|]. split; [tauto | lia].
  - intros [= <- <-]. exists "". rewrite append_empty_r. tauto.
Qed.

(** The candidate of a named request: the name itself when it is local, its
    public form otherwise. *)
Lemma _make_name_candidate_named name local index i c :
  _make_name_candidate (Some name) local index = Ok (i, c) ->
  i = index ∧ c = (if local then name else public_name name).
Proof.
  unfold _make_name_candidate, public_name, starts_with_marker.
  destruct local; simpl; [now intros [= <- <-]|].
  destruct name as [|a name]; [discriminate|].
  destruct (is_escape_marker a); simpl; now intros [= <- <-].
Qed.

Lemma _make_name_Ok_suffix name local self n self' :
  _make_name name local self = Ok (n, self') ->
  exists index candidate suffix,
    _make_name_candidate name local (_index self) = Ok (index, candidate)
    ∧ n = candidate +:+ suffix
    ∧ (candidate ∉ _names self -> suffix = "" ∧ _index self' = index)
    ∧ (candidate ∈ _names self -> index < _index self').
Proof.
  unfold _make_name.
  destruct (_make_name_candidate name local (_index self)) as [[index candidate]|e];
    [|discriminate].
  destruct (_make_name_while _ _ index candidate) as [[i n']|] eqn:Hloop; [|discriminate].
  intros [= <- <-]. simpl.
  apply _make_name_while_suffix in Hloop as (suffix & -> & Hfree & Htaken).
  exists index, candidate, suffix. auto.
Qed.

(** X1.  An identifier allocated for a public request or for an anonymous
    one starts with a backslash or a dollar. *)
Theorem _make_name_marked (name : option string) (local : bool) (self self' : _Namer)
    (n : string) :
  local = false ∨ name = None ->
  _make_name name local self = Ok (n, self') ->
  starts_with_marker n = true.
Proof.
  intros Hkind Hrun.
  apply _make_name_Ok_suffix in Hrun as (index & candidate & suffix & Hc & -> & _).
  apply starts_with_marker_append.
  destruct name as [name|].
  - destruct Hkind as [-> | Hnone]; [|discriminate].
    apply _make_name_candidate_named in Hc as [_ ->]. apply starts_with_marker_public.
  - simpl in Hc. injection Hc as _ <-. reflexivity.
Qed.

Lemma _make_name_marked_witness :
  exists n self',
    _make_name (Some "top") false _Namer_init = Ok (n, self')
    ∧ starts_with_marker n = true.
Proof.
  destruct (_make_name (Some "top") false _Namer_init) as [[n self']|e] eqn:Hrun;
    [|vm_compute in Hrun; discriminate].
  exists n, self'. split; [reflexivity|].
  exact (_make_name_marked (Some "top") false _Namer_init self' n (or_introl eq_refl) Hrun).
Defined.

(** X2.  The identifier allocated for a named request extends the name asked
    for (in its public form unless the request is local); when that name is
    free it is returned as it is and the counter is left alone, and when it
    is taken the counter advances. *)
Theorem _make_name_extends_request (name : string) (local : bool) (self self' : _Namer)
    (n : string) :
  _make_name (Some name) local self = Ok (n, self') ->
  let candidate := if local then name else public_name name in
  exists suffix,
    n = candidate +:+ suffix
    ∧ (candidate ∉ _names self -> suffix = "" ∧ _index self' = _index self)
    ∧ (candidate ∈ _names self -> _index self < _index self').
Proof.
  intros Hrun.
  apply _make_name_Ok_suffix in Hrun as (index & candidate & suffix & Hc & -> & Hfree & Htaken).
  apply _make_name_candidate_named in Hc as [-> ->]. simpl.
  exists suffix. auto.
Qed.

Lemma _make_name_extends_request_witness :
  exists n self',
    _make_name (Some "x") false {| _index := 3; _names := {[ backslash +:+ "x" ]} |}
      = Ok (n, self')
    ∧ exists suffix, n = public_name "x" +:+ suffix ∧ 3 < _index self'.
Proof.
  destruct (_make_name (Some "x") false {| _index := 3; _names := {[ backslash +:+ "x" ]} |})
    as [[n self']|e] eqn:Hrun; [|vm_compute in Hrun; discriminate].
  exists n, self'. split; [reflexivity|].
  destruct (_make_name_extends_request "x" false _ self' n Hrun) as (suffix & Hn & _ & Htaken).
  exists suffix. split; [exact Hn|]. apply Htaken. simpl. set_solver.
Defined.
(** ** The names of the wires *)

Lemma public_name_marked name : starts_with_marker name = true -> public_name name = name.
Proof. unfold public_name. now intros ->. Qed.

Lemma append_neq_self (s t : string) : t <> "" -> s +:+ t <> s.
Proof.
  intros Ht Heq. apply (f_equal String.length) in Heq. rewrite length_append in Heq.
  destruct t; [contradiction | simpl in Heq; lia].
Qed.

(** The wire that [wire] declares for a requested name extends the public
    form of that name, and is that name when it is free. *)
Lemma wire_Ok_name width port name src0 m n m' :
  _ModuleBuilder_wire width port (Some name) src0 m = Ok (n, m') ->
  exists suffix,
    n = public_name name +:+ suffix
    ∧ (public_name name ∉ _names (module_namer m) -> suffix = "").
Proof.
  unfold _ModuleBuilder_wire.
  intros ([] & m1 & ->%module_append_Ok & (n1 & m2 & Hn & H2)%bind_Ok)%bind_Ok.
  apply bind_Ok in H2 as ([] & m3 & _ & [= -> _]%ret_Ok).
  unfold module_make_name in Hn. apply zoom_Ok in Hn as (n' & t & Hm & [= <- _]).
  apply _make_name_Ok_suffix in Hm as (index & candidate & suffix & Hc & -> & Hfree & _).
  apply _make_name_candidate_named in Hc as [_ ->].
  exists suffix. split; [reflexivity|]. intros Hout. now apply Hfree.
Qed.

(** X3.  The first [resolve] of a signal names its current wire after the
    signal, behind the prefix of the hierarchy if there is one and in public
    form: the wire is that name when it is free in the module and extends it
    otherwise.  The next wire of a driven signal is named after the current
    wire in the same way, with [$next] appended. *)
Theorem resolve_wire_names (signal : ast.Signal) (st st' : _ValueCompilerState)
    (w : string * option string) :
  wires st !! ast.sid signal = None ->
  resolve signal st = Ok (w, st') ->
  (exists suffix,
     fst w = public_name (wire_name st signal) +:+ suffix
     ∧ (public_name (wire_name st signal) ∉ names_of st -> suffix = ""))
  ∧ forall wire_next, snd w = Some wire_next ->
      exists suffix,
        wire_next = (fst w +:+ dollar +:+ "next") +:+ suffix
        ∧ ((fst w +:+ dollar +:+ "next") ∉ names_of st -> suffix = "").
Proof.
  intros Hnone. unfold resolve. unfold bind at 1, get. rewrite Hnone.
  intros ([] & st1 & ->%for_attributes_Ok & H1)%bind_Ok.
  apply bind_Ok in H1 as (wire_curr & st2 & (m2 & Hcurr & ->)%on_rtlil_Ok & H2).
  pose proof Hcurr as Hnames. apply wire_Ok in Hnames as (_ & Hnames & _).
  apply wire_Ok_name in Hcurr as (suffix & Hcurr & Hfree).
  apply bind_Ok in H2 as (wire_next & st3 & Hnext & H3).
  apply bind_Ok in H3 as ([] & st4 & Hmod & [= -> _]%ret_Ok).
  simpl in *. split; [exists suffix; split; [exact Hcurr | exact Hfree]|].
  intros n ->. destruct (driven st !! ast.sid signal); [|now apply ret_Ok in Hnext].
  apply bind_Ok in Hnext as (n' & st5 & (m5 & Hn & ->)%on_rtlil_Ok & [= -> _]%ret_Ok).
  apply wire_Ok_name in Hn as (suffix' & Hn & Hfree').
  assert (Hmarked : starts_with_marker (wire_curr +:+ dollar +:+ "next") = true).
  { rewrite Hcurr. rewrite append_assoc.
    apply starts_with_marker_append, starts_with_marker_public. }
  rewrite (public_name_marked _ Hmarked) in Hn, Hfree'.
  exists suffix'. split; [exact Hn|]. intros Hout. apply Hfree'. simpl. rewrite Hnames.
  unfold names_of in Hout. apply not_elem_of_union. split; [|exact Hout].
  rewrite elem_of_singleton. apply append_neq_self. discriminate.
Qed.

Lemma resolve_wire_names_witness :
  exists w st',
    resolve Example.S8 (Example.driving [Example.S8]) = Ok (w, st')
    ∧ fst w = backslash +:+ "S" ∧ snd w = Some (backslash +:+ "S$next").
Proof.
  destruct (resolve Example.S8 (Example.driving [Example.S8])) as [[w st']|e] eqn:Hrun;
    [|vm_compute in Hrun; discriminate].
  exists w, st'. split; [reflexivity|].
  assert (Hnone : wires (Example.driving [Example.S8]) !! ast.sid Example.S8 = None)
    by reflexivity.
  destruct (resolve_wire_names Example.S8 _ st' w Hnone Hrun)
    as [(suffix & Hcurr & Hfree) Hnext].
  assert (Hw : fst w = backslash +:+ "S").
  { rewrite Hcurr, Hfree; [reflexivity|]. vm_compute. set_solver. }
  split; [exact Hw|].
  destruct w as [wire_curr [wire_next|]]; simpl in *;
    [|vm_compute in Hrun; discriminate].
  destruct (Hnext wire_next eq_refl) as (suffix' & -> & Hfree').
  rewrite Hfree', Hw; [reflexivity|]. rewrite Hw. vm_compute. set_solver.
Defined.

(** ** The failures of [wire] *)

Lemma zoom_Raise {S T A} (proj : S -> T) (inj : T -> S -> S) (m : M T A) s e :
  zoom proj inj m s = Raise e <-> m (proj s) = Raise e.
Proof.
  unfold zoom. destruct (m (proj s)) as [[a t]|e0]; [split; discriminate|].
  split; intros [= ->]; reflexivity.
Qed.

Lemma port_kind_checked kind :
  existsb (String.eqb kind) ["input"; "output"; "inout"] = true <-> In kind port_kinds.
Proof.
  rewrite existsb_exists. unfold port_kinds. split.
  - intros (k & Hin & ->%String.eqb_eq). exact Hin.
  - intros Hin. exists kind. split; [exact Hin | apply String.eqb_refl].
Qed.

(** X4.  [wire] fails in two ways only: with [IndexError] when the name asked
    for is the empty string, and with [AssertionError] when a port is asked
    for with a kind other than [input], [output] and [inout]. *)
Theorem wire_Raise (width : Z) (port : option (Z * string)) (name : option string)
    (src0 : string) (m : _ModuleBuilder) (e : exn) :
  _ModuleBuilder_wire width port name src0 m = Raise e <->
  (name = Some "" ∧ e = IndexError)
  ∨ (name <> Some "" ∧ e = AssertionError
     ∧ exists p, port = Some p ∧ ¬ In (snd p) port_kinds).
Proof.
  unfold _ModuleBuilder_wire. unfold bind at 1, module_append at 1, modify.
  set (m1 := set_module_buffer _ m). unfold bind at 1.
  destruct (module_make_name name false m1) as [[n m2]|e0] eqn:Hn.
  - assert (Hname : name <> Some "").
    { intros ->. unfold module_make_name, zoom in Hn. vm_compute in Hn. discriminate. }
    destruct port as [[port_id port_kind]|]; unfold bind, module_append, modify, ret, raise.
    + destruct (existsb _ _) eqn:Hkind.
      * split; [discriminate|]. intros [[-> _]|(_ & _ & p & [= <-] & Hp)]; [contradiction|].
        apply port_kind_checked in Hkind. contradiction.
      * split.
        -- intros [= <-]. right. split; [exact Hname|]. split; [reflexivity|].
           exists (port_id, port_kind). split; [reflexivity|].
           change (snd (port_id, port_kind)) with port_kind.
           rewrite <- port_kind_checked, Hkind. discriminate.
        -- intros [[-> _]|(_ & -> & _)]; [contradiction | reflexivity].
    + split; [discriminate|]. intros [[-> _]|(_ & _ & p & [=] & _)]. contradiction.
  - unfold module_make_name in Hn. apply zoom_Raise in Hn.
    apply _make_name_Raise in Hn as [-> [-> _]]. split.
    + intros [= <-]. left. auto.
    + intros [[_ ->]|(Hname & _)]; [reflexivity | contradiction].
Qed.
(** ** The declaration of the ports *)

Lemma add_port_Ok signal direction st u st' :
  add_port signal direction st = Ok (u, st') ->
  exists kind,
    port_kind_of direction = Some kind
    ∧ st' = set_ports (<[ast.sid signal := (Z.of_nat (size (ports st)), kind)]> (ports st)) st.
Proof.
  unfold add_port, port_kind_of. intros (kind & st1 & Hkind & Hmod)%bind_Ok.
  unfold modify in Hmod. injection Hmod as _ <-.
  destruct (String.eqb direction "i"); [apply ret_Ok in Hkind as [= -> ->]; eauto|].
  destruct (String.eqb direction "o"); [apply ret_Ok in Hkind as [= -> ->]; eauto|].
  destruct (String.eqb direction "io"); [apply ret_Ok in Hkind as [= -> ->]; eauto|].
  now apply raise_Ok in Hkind.
Qed.

(** The ports of a list, lowered from a state that knows none of them: they
    are numbered from the number of ports registered before, and each is
    declared once, in order. *)
Lemma lower_ports_from `{Frontend} (l : list (ast.Signal * string)) : forall st u st',
  NoDup (map (fun p => ast.sid (fst p)) l) ->
  (forall p, p ∈ l ->
     wires st !! ast.sid (fst p) = None ∧ ports st !! ast.sid (fst p) = None) ->
  for_ (fun p : ast.Signal * string =>
          add_port (fst p) (snd p) ;;
          let* _ := rhs_compiler (ast.Sig (fst p)) in
          ret tt) l st = Ok (u, st') ->
  (forall k, k ∉ map (fun p => ast.sid (fst p)) l ->
     wires st' !! k = wires st !! k ∧ ports st' !! k = ports st !! k)
  ∧ exists blocks,
      module_buffer (rtlil st') = module_buffer (rtlil st) ++ concat blocks
      ∧ length blocks = length l
      ∧ forall i p, l !! i = Some p ->
          exists kind w,
            port_kind_of (snd p) = Some kind
            ∧ ports st' !! ast.sid (fst p) = Some (Z.of_nat (size (ports st) + i), kind)
            ∧ wires st' !! ast.sid (fst p) = Some w
            ∧ blocks !! i
              = Some (declaration_lines (fst p) (Some (Z.of_nat (size (ports st) + i), kind)) w).
Proof.
  induction l as [|p l IH]; intros st u st' Hnd Hnew; simpl.
  - intros [= -> ->]%ret_Ok. split; [auto|]. exists []. simpl. rewrite app_nil_r.
    split; [reflexivity|]. split; [reflexivity|]. intros i p Hp. discriminate.
  - intros (u1 & st3 & Hbody & Hrest)%bind_Ok.
    apply bind_Ok in Hbody as (u2 & st1 & (kind & Hkind & ->)%add_port_Ok & Hbody).
    apply bind_Ok in Hbody as (w0 & st2 & Hres & [= -> ->]%ret_Ok).
    simpl in Hres. unfold RHS_on_Signal in Hres.
    apply bind_Ok in Hres as (w & st2' & Hres & [= -> ->]%ret_Ok).
    destruct (Hnew p) as [Hwp Hpp]; [left|].
    apply resolve_first in Hres as (m' & -> & Hbuf & _); [|exact Hwp].
    simpl in Hbuf. rewrite lookup_insert_eq, declaration_text_lines in Hbuf.
    apply NoDup_cons in Hnd as [Hp Hnd].
    apply IH in Hrest as (Hframe & blocks & Hbuf' & Hlen & Hall); [|exact Hnd|].
    + simpl in *. split.
      * intros k Hk. apply not_elem_of_cons in Hk as [Hne Hk].
        destruct (Hframe k Hk) as [-> ->]. rewrite !lookup_insert_ne by congruence. auto.
      * exists (declaration_lines (fst p) (Some (Z.of_nat (size (ports st)), kind)) w :: blocks).
        simpl. rewrite Hbuf', Hbuf, <- app_assoc.
        split; [reflexivity|]. split; [now rewrite Hlen|].
        intros [|i] q Hq; simpl in Hq.
        -- injection Hq as <-. exists kind, w. rewrite Nat.add_0_r.
           destruct (Hframe (ast.sid (fst p)) Hp) as [-> ->].
           rewrite !lookup_insert_eq. auto.
        -- destruct (Hall i q Hq) as (kind' & w' & Hk' & Hp' & Hw' & Hb').
           rewrite map_size_insert_None in Hp', Hb' by exact Hpp.
           exists kind', w'. replace (size (ports st) + S i)%nat with (S (size (ports st)) + i)%nat by lia.
           auto.
    + intros q Hq. simpl.
      assert (Hne : ast.sid (fst p) <> ast.sid (fst q)).
      { intros Heq. apply Hp. rewrite Heq. apply list_elem_of_fmap. eauto. }
      rewrite !lookup_insert_ne by exact Hne. apply Hnew. now right.
Qed.

(** X5.  In a module that has no port and no wire yet, the ports of a
    fragment are numbered from 0 in their order, recorded with the kind of
    their direction, and declared in that order, each by the attributes and
    the wire line of its first [resolve]. *)
Theorem lower_ports_declares `{Frontend} (fragment : ir.Fragment)
    (st st' : _ValueCompilerState) (u : unit) :
  wires st = ∅ -> ports st = ∅ ->
  NoDup (map (fun p => ast.sid (fst p)) (ir.ports fragment)) ->
  lower_ports fragment st = Ok (u, st') ->
  exists blocks,
    module_buffer (rtlil st') = module_buffer (rtlil st) ++ concat blocks
    ∧ length blocks = length (ir.ports fragment)
    ∧ forall i p, ir.ports fragment !! i = Some p ->
        exists kind w,
          port_kind_of (snd p) = Some kind
          ∧ ports st' !! ast.sid (fst p) = Some (Z.of_nat i, kind)
          ∧ wires st' !! ast.sid (fst p) = Some w
          ∧ blocks !! i = Some (declaration_lines (fst p) (Some (Z.of_nat i, kind)) w).
Proof.
  intros Hw Hp Hnd Hrun. unfold lower_ports in Hrun.
  apply lower_ports_from in Hrun as (_ & blocks & Hbuf & Hlen & Hall); [|exact Hnd|].
  - exists blocks. split; [exact Hbuf|]. split; [exact Hlen|].
    intros i p Hi. destruct (Hall i p Hi) as (kind & w & Hk & Hport & Hwire & Hblock).
    rewrite Hp, map_size_empty in Hport, Hblock. simpl in Hport, Hblock. eauto 8.
  - intros p _. rewrite Hw, Hp, !lookup_empty. auto.
Qed.

Lemma lower_ports_declares_witness :
  exists st',
    lower_ports (H := Example.frontend) Sample.two_ports (Example.driving [Example.P1])
      = Ok (tt, st')
    ∧ ports st' !! ast.sid Example.P1 = Some (1, "output").
Proof.
  destruct (lower_ports (H := Example.frontend) Sample.two_ports (Example.driving [Example.P1]))
    as [[[] st']|e] eqn:Hrun; [|vm_compute in Hrun; discriminate].
  exists st'. split; [reflexivity|].
  destruct (driving_no_wires [Example.P1]) as [Hw Hp].
  assert (Hnd : NoDup (map (fun p : ast.Signal * string => ast.sid (fst p))
                         (ir.ports Sample.two_ports))).
  { simpl. apply NoDup_cons. split; [set_solver | apply NoDup_singleton]. }
  destruct (lower_ports_declares (H := Example.frontend) Sample.two_ports _ st' tt Hw Hp Hnd Hrun)
    as (blocks & _ & _ & Hall).
  destruct (Hall 1%nat (Example.P1, "o") eq_refl) as (kind & w & Hkind & Hport & _).
  vm_compute in Hkind. injection Hkind as <-. exact Hport.
Defined.
(** ** The literal of a constant *)

Lemma int_of_bits_app (s t : string) : forall acc,
  int_of_bits acc (s +:+ t)
  = match int_of_bits acc s with
    | Some a => int_of_bits a t
    | None => None
    end.
Proof.
  induction s as [|c s IH]; intros acc; [reflexivity|].
  change (String c s +:+ t) with (String c (s +:+ t)). simpl.
  destruct (Ascii.eqb c "0"); [apply IH|]. destruct (Ascii.eqb c "1"); [apply IH | reflexivity].
Qed.

Lemma int_of_bits_bin_pos (p : positive) : int_of_bits 0 (bin_pos p) = Some (Zpos p).
Proof.
  induction p as [p IH|p IH|]; simpl; [| |reflexivity];
    rewrite int_of_bits_app, IH; reflexivity.
Qed.

Lemma bin_pos_first (p : positive) : exists rest, bin_pos p = String "1" rest.
Proof.
  induction p as [p [rest IH]|p [rest IH]|]; simpl; [| |eauto]; rewrite IH; eauto.
Qed.

Lemma length_bin_pos (p : positive) :
  Z.of_nat (String.length (bin_pos p)) = Z.log2 (Zpos p) + 1.
Proof.
  induction p as [p IH|p IH|]; simpl bin_pos; [| |reflexivity]; rewrite length_append.
  - change (Zpos p~1) with (2 * Zpos p + 1). rewrite Z.log2_succ_double by lia.
    simpl String.length. lia.
  - change (Zpos p~0) with (2 * Zpos p). rewrite Z.log2_double by lia.
    simpl String.length. lia.
Qed.

Lemma binary_value_format_b (v : Z) : binary_value (format_b v) = Some v.
Proof.
  destruct v as [|p|p]; simpl; [reflexivity| |].
  - destruct (bin_pos_first p) as [rest Hp]. pose proof (int_of_bits_bin_pos p) as Hv.
    rewrite Hp in *. exact Hv.
  - change ("-" +:+ bin_pos p) with (String "-" (bin_pos p)). simpl.
    destruct (bin_pos_first p) as [rest Hp]. pose proof (int_of_bits_bin_pos p) as Hv.
    rewrite Hp in *. change ("" +:+ String "1" rest) with (String "1" rest).
    rewrite Hv. reflexivity.
Qed.

(** X6.  The literal of an integer constant is its declared width, a quote
    and the binary digits of its value: the digits denote the value, and they
    are never padded.  A positive value is written with as many digits as it
    needs, which is the declared width only when the value has the top bit
    of that width set. *)
Theorem on_Const_digits (v nbits : Z) :
  exists digits,
    RHS_on_Const (ast.ConstInt v) nbits = str_int nbits +:+ "'" +:+ digits
    ∧ binary_value digits = Some v
    ∧ (0 < v -> Z.of_nat (String.length digits) = Z.log2 v + 1)
    ∧ (0 < v ->
       (Z.of_nat (String.length digits) = nbits <-> 2 ^ (nbits - 1) <= v < 2 ^ nbits)).
Proof.
  exists (format_b v). split; [reflexivity|]. split; [apply binary_value_format_b|].
  assert (Hlen : 0 < v -> Z.of_nat (String.length (format_b v)) = Z.log2 v + 1).
  { destruct v as [|p|p]; try lia. intros _. apply length_bin_pos. }
  split; [exact Hlen|]. intros Hv. rewrite (Hlen Hv). split.
  - intros Hn. pose proof (Z.log2_spec v Hv) as Hspec.
    replace (nbits - 1) with (Z.log2 v) by lia.
    replace nbits with (Z.succ (Z.log2 v)) by lia. exact Hspec.
  - intros Hrange. destruct (Z.le_gt_cases 1 nbits) as [Hpos|Hneg].
    + rewrite (Z.log2_unique v (nbits - 1)); [lia | lia |].
      replace (Z.succ (nbits - 1)) with nbits by lia. exact Hrange.
    + assert (2 ^ nbits <= 1); [|lia].
      destruct (Z.eq_dec nbits 0) as [->|Hne]; [reflexivity|].
      rewrite Z.pow_neg_r by lia. lia.
Qed.
(** ** Replications and concatenations of signals *)

Section Signals.
Context `{Frontend}.

Lemma for_each_cons {S A B} (body : A -> M S B) (x : A) (l : list A) :
  for_each body (x :: l)
  = bind (body x) (fun y => bind (for_each body l) (fun ys => ret (y :: ys))).
Proof. reflexivity. Qed.

Lemma for_each_cached signal st w : forall n,
  wires st !! ast.sid signal = Some w ->
  for_each (fun _ : unit => rhs_compiler (ast.Sig signal)) (replicate n tt) st
  = Ok (replicate n (fst w), st).
Proof.
  intros n Hw. induction n as [|n IH]; [reflexivity|].
  change (replicate (S n) tt) with (tt :: replicate n tt). rewrite for_each_cons.
  unfold bind at 1. cbv beta.
  change (rhs_compiler (ast.Sig signal) st) with (RHS_on_Signal signal st).
  unfold RHS_on_Signal, bind at 1.
  rewrite (resolve_cached _ _ _ Hw). unfold ret at 1. unfold bind at 1. rewrite IH.
  reflexivity.
Qed.

(** X7.  A replication of a signal resolves the signal once, whatever the
    count, and writes its current wire once per copy; a count of zero or
    less resolves nothing and writes empty braces. *)
Theorem Repl_signal (signal : ast.Signal) (count : Z) (st st' : _ValueCompilerState)
    (r : string) :
  rhs_compiler (ast.Repl (ast.Sig signal) count) st = Ok (r, st') ->
  if 0 <? count then
    exists w,
      resolve signal st = Ok (w, st')
      ∧ r = "{ " +:+ Py.join " " (replicate (Z.to_nat count) (fst w)) +:+ " }"
  else st' = st ∧ r = "{  }".
Proof.
  change (rhs_compiler (ast.Repl (ast.Sig signal) count))
    with (RHS_on_Repl rhs_compiler (ast.Sig signal) count).
  unfold RHS_on_Repl. intros (ws & st1 & Hws & [= -> ->]%ret_Ok)%bind_Ok.
  destruct (0 <? count) eqn:Hcount.
  - apply Z.ltb_lt in Hcount. destruct (Z.to_nat count) as [|n] eqn:Hn; [lia|].
    change (replicate (S n) tt) with (tt :: replicate n tt) in Hws.
    rewrite for_each_cons in Hws. apply bind_Ok in Hws as (w1 & st2 & Hfirst & Hrest).
    apply bind_Ok in Hrest as (ws' & st3 & Hrest & [= -> ->]%ret_Ok).
    change (RHS_on_Signal signal st = Ok (w1, st2)) in Hfirst. unfold RHS_on_Signal in Hfirst.
    apply bind_Ok in Hfirst as (w & st2' & Hres & [= -> ->]%ret_Ok).
    pose proof Hres as [_ Hw]%resolve_extends.
    rewrite (for_each_cached _ _ _ n Hw) in Hrest. injection Hrest as <- <-.
    exists w. split; [exact Hres | reflexivity].
  - apply Z.ltb_ge in Hcount. replace (Z.to_nat count) with 0%nat in Hws by lia.
    simpl in Hws. apply ret_Ok in Hws as [= -> ->]. split; reflexivity.
Qed.

Lemma for_each_signals (self : ast.Value -> M _ValueCompilerState string)
    (R : _ValueCompilerState -> ast.Signal -> string -> Prop) :
  (forall st st' signal w, extends st st' -> R st signal w -> R st' signal w) ->
  (forall signal st w st', self (ast.Sig signal) st = Ok (w, st') ->
     extends st st' ∧ R st' signal w) ->
  forall signals st ws st',
    for_each self (map ast.Sig signals) st = Ok (ws, st') ->
    extends st st' ∧ Forall2 (R st') signals ws.
Proof.
  intros Hmono Hself. induction signals as [|signal signals IH]; intros st ws st'; simpl.
  - intros [= -> ->]%ret_Ok. split; [apply extends_refl | constructor].
  - intros (w & st1 & [Hext Hw]%Hself & (ws' & st2 & [Hext' Hall]%IH & [= -> ->]%ret_Ok)%bind_Ok)%bind_Ok.
    split; [eapply extends_trans; eassumption|].
    constructor; [eapply Hmono; eassumption | exact Hall].
Qed.

(** X8.  A concatenation of signals is written with its operands in reverse
    order, the first operand last: on the read side each operand is the
    current wire of its signal, on the write side its next wire. *)
Theorem Cat_signals (signals : list ast.Signal) (st st' : _ValueCompilerState) (r : string) :
  (rhs_compiler (ast.Cat (map ast.Sig signals)) st = Ok (r, st') ->
   exists ws,
     Forall2 (fun signal w => exists wire_next,
                wires st' !! ast.sid signal = Some (w, wire_next)) signals ws
     ∧ r = "{ " +:+ Py.join " " (rev ws) +:+ " }")
  ∧ (lhs_compiler (ast.Cat (map ast.Sig signals)) st = Ok (r, st') ->
     exists ws,
       Forall2 (fun signal w => exists wire_curr,
                  wires st' !! ast.sid signal = Some (wire_curr, Some w)) signals ws
       ∧ r = "{ " +:+ Py.join " " (rev ws) +:+ " }").
Proof.
  split; simpl; unfold on_Cat; intros (ws & st1 & Hws & [= -> ->]%ret_Ok)%bind_Ok; exists ws;
    (split; [|reflexivity]).
  - eapply (for_each_signals rhs_compiler
              (fun st signal w => exists n, wires st !! ast.sid signal = Some (w, n)));
      [| |exact Hws].
    + intros s s' signal w Hext [n Hw]. exists n.
      eapply lookup_weaken; [exact Hw | apply Hext].
    + intros signal s w s'. apply rhs_signal_Ok.
  - eapply (for_each_signals lhs_compiler
              (fun st signal w => exists c, wires st !! ast.sid signal = Some (c, Some w)));
      [| |exact Hws].
    + intros s s' signal w Hext [c Hw]. exists c.
      eapply lookup_weaken; [exact Hw | apply Hext].
    + intros signal s w s'. apply lhs_signal_Ok.
Qed.

End Signals.

Lemma Repl_signal_witness :
  exists r st' w,
    rhs_compiler (H := Example.frontend) (ast.Repl (ast.Sig Example.S8) 3) (Example.driving [])
      = Ok (r, st')
    ∧ resolve Example.S8 (Example.driving []) = Ok (w, st')
    ∧ r = "{ " +:+ Py.join " " [fst w; fst w; fst w] +:+ " }".
Proof.
  destruct (rhs_compiler (H := Example.frontend) (ast.Repl (ast.Sig Example.S8) 3)
              (Example.driving [])) as [[r st']|e] eqn:Hrun; [|vm_compute in Hrun; discriminate].
  destruct (Repl_signal (H := Example.frontend) Example.S8 3 _ st' r Hrun) as (w & Hres & Hr).
  exists r, st', w. split; [reflexivity|]. split; [exact Hres | exact Hr].
Defined.

Lemma Cat_signals_witness :
  exists r st' ws,
    rhs_compiler (H := Example.frontend) (ast.Cat [ast.Sig Example.a4; ast.Sig Example.b8])
      (Example.driving []) = Ok (r, st')
    ∧ Forall2 (fun signal w => exists wire_next,
                 wires st' !! ast.sid signal = Some (w, wire_next))
        [Example.a4; Example.b8] ws
    ∧ r = "{ " +:+ Py.join " " (rev ws) +:+ " }".
Proof.
  destruct (rhs_compiler (H := Example.frontend)
              (ast.Cat [ast.Sig Example.a4; ast.Sig Example.b8]) (Example.driving []))
    as [[r st']|e] eqn:Hrun; [|vm_compute in Hrun; discriminate].
  destruct (proj1 (Cat_signals (H := Example.frontend) [Example.a4; Example.b8] _ st' r) Hrun)
    as (ws & Hall & Hr).
  exists r, st', ws. split; [reflexivity|]. split; [exact Hall | exact Hr].
Defined.
(** ** What lowers is supported *)

Lemma succeeds_bind {S A B} (m : M S A) (k : A -> M S B) :
  succeeds (bind m k) -> succeeds m ∧ exists a, succeeds (k a).
Proof.
  intros (s & b & s' & (a & s1 & Hm & Hk)%bind_Ok). split; [now exists s, a, s1|].
  exists a. now exists s1, b, s'.
Qed.

Lemma succeeds_raise {S A} (e : exn) : ¬ succeeds (@raise S A e).
Proof. intros (s & a & s' & []%raise_Ok). Qed.

Lemma succeeds_for_each {S A B} (body : A -> M S B) (l : list A) :
  succeeds (for_each body l) -> Forall (fun x => succeeds (body x)) l.
Proof.
  induction l as [|x l IH]; [constructor|]. rewrite for_each_cons.
  intros [Hx [y [Hl%IH _]%succeeds_bind]]%succeeds_bind. now constructor.
Qed.

Lemma known_operator_get arity op :
  succeeds (operator_map_get arity op) -> known_operator arity op = true.
Proof.
  unfold operator_map_get, known_operator.
  destruct (find _ operator_map) as [e|] eqn:Hfind; [|now intros ?%succeeds_raise].
  intros _. apply find_some in Hfind as [Hin He]. apply existsb_exists. eauto.
Qed.

Section Supported.
Context `{Frontend}.

Lemma succeeds_on_Slice self value start stop :
  succeeds (on_Slice self value start stop) -> succeeds (self value).
Proof.
  unfold on_Slice. destruct (_ && _); [tauto|].
  destruct (_ =? _); now intros [Hv _]%succeeds_bind.
Qed.

Lemma succeeds_match_shape self value new_bits new_sign :
  succeeds (match_shape self value new_bits new_sign) ->
  match value with
  | ast.Const _ _ _ => True
  | _ => succeeds (self value)
  end.
Proof.
  assert (Hgen :
    succeeds (let '(value_bits, value_sign) := shape value in
              if new_bits <=? value_bits then on_Slice self value 0 new_bits
              else
                let* res := on_rtlil (_ModuleBuilder_wire new_bits None None "") in
                let* a := self value in
                on_rtlil (_ModuleBuilder_cell "$pos" None
                            [("A_SIGNED", ParamBool value_sign);
                             ("A_WIDTH", ParamInt value_bits);
                             ("Y_WIDTH", ParamInt new_bits)]
                            [(port_A, a); (port_Y, res)] (src (value_src_loc value))) ;;
                ret res) ->
    succeeds (self value)).
  { destruct (shape value) as [value_bits value_sign].
    destruct (new_bits <=? value_bits); [apply succeeds_on_Slice|].
    now intros [_ [res [Hv _]%succeeds_bind]]%succeeds_bind. }
  unfold match_shape. destruct value; auto.
Qed.

Lemma succeeds_lowerable (value : ast.Value) :
  succeeds (rhs_compiler value) -> lowerable value = true.
Proof.
  induction value as [v n s|s|d|d|op operands IH|v start stop IH|v o w _ _|operands IH
                      |v count IH|elems index _ _] using Value_induction;
    intros Hrun; try reflexivity; simpl in Hrun; try (now apply succeeds_raise in Hrun).
  - unfold RHS_on_Operator in Hrun.
    destruct operands as [|a [|b [|c [|d l]]]]; try (now apply succeeds_raise in Hrun).
    + apply Forall_cons_1 in IH as [Ha _]. unfold on_Operator_unary in Hrun.
      destruct (shape a), (shape (ast.Operator op [a])).
      apply succeeds_bind in Hrun as [_ [res Hrun]].
      apply succeeds_bind in Hrun as [Hop%known_operator_get [kind Hrun]].
      apply succeeds_bind in Hrun as [Harg _].
      change (known_operator 1 op && (lowerable a && true) = true).
      rewrite Hop, (Ha Harg). reflexivity.
    + apply Forall_cons_1 in IH as [Ha [Hb _]%Forall_cons_1].
      unfold on_Operator_binary in Hrun.
      destruct (shape a) as [lhs_bits lhs_sign], (shape b) as [rhs_bits rhs_sign].
      apply succeeds_bind in Hrun
        as [Hops [[[[[[a_width a_sign] b_width] b_sign] lhs_wire] rhs_wire] Hcell]].
      destruct (shape (ast.Operator op [a; b])).
      apply succeeds_bind in Hcell as [_ [res [Hop%known_operator_get _]%succeeds_bind]].
      assert (Hab : (match a with ast.Const _ _ _ => True | _ => succeeds (rhs_compiler a) end)
                    ∧ (match b with ast.Const _ _ _ => True | _ => succeeds (rhs_compiler b) end)).
      { destruct (Bool.eqb lhs_sign rhs_sign).
        - apply succeeds_bind in Hops as [Hl [lw [Hr _]%succeeds_bind]].
          split; [destruct a | destruct b]; auto.
        - apply succeeds_bind in Hops
            as [Hl%succeeds_match_shape [lw [Hr%succeeds_match_shape _]%succeeds_bind]].
          auto. }
      destruct Hab as [Hl Hr].
      change (known_operator 2 op && (lowerable a && (lowerable b && true)) = true).
      assert (lowerable a = true) as -> by (destruct a; auto).
      assert (lowerable b = true) as -> by (destruct b; auto).
      rewrite Hop. reflexivity.
    + apply Forall_cons_1 in IH as [Ha [Hb [Hc _]%Forall_cons_1]%Forall_cons_1].
      change (String.eqb op "m" && (lowerable a && (lowerable b && (lowerable c && true)))
              = true).
      destruct (String.eqb op "m"); [|now apply succeeds_raise in Hrun].
      unfold on_Operator_mux in Hrun.
      destruct (shape b), (shape c), (shape (ast.Operator op [a; b; c])).
      apply succeeds_bind in Hrun as [Hl%succeeds_match_shape [lw Hrun]].
      apply succeeds_bind in Hrun as [Hr%succeeds_match_shape [rw Hrun]].
      apply succeeds_bind in Hrun as [_ [res [Hs _]%succeeds_bind]].
      rewrite (Ha Hs).
      assert (lowerable b = true) as -> by (destruct b; auto).
      assert (lowerable c = true) as -> by (destruct c; auto). reflexivity.
  - apply succeeds_on_Slice in Hrun. exact (IH Hrun).
  - unfold on_Cat in Hrun. apply succeeds_bind in Hrun as [Hall%succeeds_for_each _].
    change (forallb lowerable operands = true).
    apply forallb_forall. intros v Hv.
    rewrite Forall_forall in IH, Hall. apply list_elem_of_In in Hv. auto.
  - unfold RHS_on_Repl in Hrun. apply succeeds_bind in Hrun as [Hall%succeeds_for_each _].
    change ((count <=? 0) || lowerable v = true).
    destruct (count <=? 0) eqn:Hcount; [reflexivity|]. apply Z.leb_gt in Hcount.
    destruct (Z.to_nat count) as [|n] eqn:Hn; [lia|].
    apply Forall_cons_1 in Hall as [Hv _]. exact (IH Hv).
Qed.

(** X9.  The read side lowers only what it has a method for: an expression
    that lowers, from any state, holds no clock or reset reference, no part
    select and no array proxy among the operands that are lowered, and every
    operator in it is in [operator_map] at its arity, or is the mux. *)
Theorem rhs_compiler_lowerable (value : ast.Value) :
  succeeds (rhs_compiler value) -> lowerable value = true.
Proof. apply succeeds_lowerable. Qed.

End Supported.

Lemma rhs_compiler_lowerable_witness :
  succeeds (rhs_compiler (H := Example.frontend)
              (ast.Operator "+" [ast.Sig Example.a4; ast.Sig Example.b8]))
  ∧ lowerable (ast.Operator "+" [ast.Sig Example.a4; ast.Sig Example.b8]) = true.
Proof.
  assert (Hrun : succeeds (rhs_compiler (H := Example.frontend)
                             (ast.Operator "+" [ast.Sig Example.a4; ast.Sig Example.b8]))).
  { exists (Example.driving []).
    destruct (rhs_compiler (H := Example.frontend)
                (ast.Operator "+" [ast.Sig Example.a4; ast.Sig Example.b8]) (Example.driving []))
      as [[r st']|e] eqn:Hrun; [eauto | vm_compute in Hrun; discriminate]. }
  split; [exact Hrun|].
  exact (rhs_compiler_lowerable (H := Example.frontend) _ Hrun).
Defined.
(** ** What is assigned is driven *)

Lemma for__cons {S A} (body : A -> M S unit) (x : A) (l : list A) :
  for_ body (x :: l) = bind (body x) (fun _ => for_ body l).
Proof. reflexivity. Qed.

Lemma succeeds_for_ {S A} (body : A -> M S unit) (l : list A) :
  succeeds (for_ body l) -> Forall (fun x => succeeds (body x)) l.
Proof.
  induction l as [|x l IH]; [constructor|]. rewrite for__cons.
  intros [Hx [y Hl%IH]]%succeeds_bind. now constructor.
Qed.

Lemma succeeds_on_fst {S T A} (m : M S A) : succeeds (@on_fst S T A m) -> succeeds m.
Proof. intros (sc & a & sc' & (s' & Hm & _)%on_fst_Ok). now exists (fst sc), a, s'. Qed.

Section Targets.
Context `{Frontend}.

Lemma on_Slice_inv self value start stop st r st' :
  on_Slice self value start stop st = Ok (r, st') -> exists w, self value st = Ok (w, st').
Proof.
  unfold on_Slice. destruct (_ && _); [eauto|].
  destruct (_ =? _); intros (w & st1 & Hv & [= _ ->]%ret_Ok)%bind_Ok; eauto.
Qed.

Lemma lhs_compiler_assignable (value : ast.Value) :
  succeeds (lhs_compiler value) -> assignable value = true.
Proof.
  induction value as [v n s|s|d|d|op operands IH|v start stop IH|v o w _ _|operands IH
                      |v count IH|elems index _ _] using Value_induction;
    intros Hrun; try reflexivity; simpl in Hrun; try (now apply succeeds_raise in Hrun).
  - apply succeeds_on_Slice in Hrun. exact (IH Hrun).
  - unfold on_Cat in Hrun. apply succeeds_bind in Hrun as [Hall%succeeds_for_each _].
    change (forallb assignable operands = true).
    apply forallb_forall. intros v Hv.
    rewrite Forall_forall in IH, Hall. apply list_elem_of_In in Hv. auto.
Qed.

Lemma for_each_targets_driven (operands : list ast.Value) :
  Forall targets_driven operands ->
  forall st ws st', wf_state st -> for_each lhs_compiler operands st = Ok (ws, st') ->
    forall signal, signal ∈ flat_map target_signals operands ->
      is_Some (driven st !! ast.sid signal)
      ∧ exists wire_curr wire_next,
          wires st' !! ast.sid signal = Some (wire_curr, Some wire_next).
Proof.
  induction 1 as [|v operands Hv _ IH]; intros st ws st' Hwf; [intros _ signal Hs; inversion Hs|].
  rewrite for_each_cons.
  intros (w & st1 & Hfirst & (ws' & st2 & Hrest & [= _ <-]%ret_Ok)%bind_Ok)%bind_Ok.
  pose proof (extending_lhs_compiler _ _ _ _ Hfirst) as Hext.
  assert (Hext' : extends st1 st').
  { eapply (extending_for_each lhs_compiler operands); [|exact Hrest].
    apply Forall_forall. intros x _. apply extending_lhs_compiler. }
  intros signal Hs. simpl in Hs. apply elem_of_app in Hs as [Hs|Hs].
  - destruct (Hv _ _ _ Hwf Hfirst signal Hs) as [Hd (c & n & Hw)].
    split; [exact Hd|]. exists c, n. eapply lookup_weaken; [exact Hw | apply Hext'].
  - destruct (IH _ _ _ (ext_wf _ _ Hext Hwf) Hrest signal Hs) as [Hd Hw].
    rewrite (ext_driven _ _ Hext) in Hd. auto.
Qed.

Lemma lhs_compiler_targets_driven (value : ast.Value) : targets_driven value.
Proof.
  induction value as [v n s|s|d|d|op operands IH|v start stop IH|v o w _ _|operands IH
                      |v count IH|elems index _ _] using Value_induction;
    intros st r st' Hwf Hrun signal Hs; try (inversion Hs; fail).
  - simpl in Hs. apply list_elem_of_singleton in Hs as ->.
    apply lhs_signal_Ok in Hrun as [Hext [c Hw]].
    split; [|eauto]. rewrite <- (ext_driven _ _ Hext).
    apply (wf_next _ (ext_wf _ _ Hext Hwf) _ _ Hw). simpl. eauto.
  - simpl in Hrun, Hs. apply on_Slice_inv in Hrun as [w0 Hrun]. eapply IH; eassumption.
  - simpl in Hrun. unfold on_Cat in Hrun.
    apply bind_Ok in Hrun as (ws & st1 & Hrun & [= _ ->]%ret_Ok).
    eapply for_each_targets_driven; eassumption.
Qed.

(** X10.  On the write side only signals, and slices and concatenations of
    them, are lowered; from a state of [convert_fragment], every signal
    that the lowered target writes is registered as driven and ends with a
    current wire and a next wire. *)
Theorem lhs_compiler_targets (value : ast.Value) (st st' : _ValueCompilerState) (r : string) :
  wf_state st ->
  lhs_compiler value st = Ok (r, st') ->
  assignable value = true
  ∧ forall signal, signal ∈ target_signals value ->
      is_Some (driven st !! ast.sid signal)
      ∧ exists wire_curr wire_next,
          wires st' !! ast.sid signal = Some (wire_curr, Some wire_next).
Proof.
  intros Hwf Hrun. split.
  - apply lhs_compiler_assignable. now exists st, r, st'.
  - now apply (lhs_compiler_targets_driven value st r st').
Qed.

End Targets.
(** ** The statements *)

(** A loop over a compiler state and a process, whose body extends the
    compiler state: what holds of the registered drivers at every iteration
    holds of them at the start. *)
Lemma for_scope_driven {A} (body : A -> M Scope unit) (Q : gmap nat bool -> A -> Prop)
    (l : list A) :
  Forall (fun x => extending_scope (body x)) l ->
  Forall (fun x => forall sc u sc', wf_state (fst sc) -> body x sc = Ok (u, sc') ->
                     Q (driven (fst sc)) x) l ->
  forall sc u sc', wf_state (fst sc) -> for_ body l sc = Ok (u, sc') ->
    Forall (Q (driven (fst sc))) l.
Proof.
  induction l as [|x l IH]; intros Hext Hbody sc u sc' Hwf; [constructor|].
  apply Forall_cons_1 in Hext as [Hx Hext]. apply Forall_cons_1 in Hbody as [Hq Hbody].
  rewrite for__cons. intros (u1 & sc1 & Hfirst & Hrest)%bind_Ok.
  constructor; [eapply Hq; eassumption|].
  specialize (Hx _ _ _ Hfirst).
  rewrite <- (ext_driven _ _ Hx). eapply IH; [assumption | assumption | | exact Hrest].
  now apply Hx.
Qed.

Section Statements.
Context `{Frontend}.

Lemma convert_stmt_assigns_driven (stmt : ast.Statement) :
  forall indent sc u sc', wf_state (fst sc) -> _convert_stmt indent stmt sc = Ok (u, sc') ->
    assigns_driven (driven (fst sc)) stmt.
Proof.
  induction stmt as [lhs rhs|test cases IH|] using Statement_induction;
    intros indent sc u sc' Hwf Hrun; simpl in Hrun.
  - destruct (shape lhs) as [lhs_bits lhs_sign], (shape rhs) as [rhs_bits rhs_sign].
    apply bind_Ok in Hrun as (r & sc1 & Hrhs & Hrun).
    apply bind_Ok in Hrun as (l & sc2 & (st2 & Hlhs & _)%on_fst_Ok & _).
    assert (Hext : extends (fst sc) (fst sc1)).
    { destruct (lhs_bits =? rhs_bits);
        apply on_fst_Ok in Hrhs as (st1 & Hrhs & ->); simpl;
        [eapply extending_rhs_compiler | eapply extending_rhs_match_shape]; exact Hrhs. }
    intros signal Hs. rewrite <- (ext_driven _ _ Hext).
    eapply lhs_compiler_targets_driven; [apply Hext, Hwf | exact Hlhs | exact Hs].
  - apply bind_Ok in Hrun as (cond & sc1 & (st1 & Hcond & ->)%on_fst_Ok & Hrun).
    apply bind_Ok in Hrun as (u1 & sc2 & (p2 & _ & ->)%on_snd_Ok & Hrun).
    apply bind_Ok in Hrun as (u2 & sc3 & Hcases & _). simpl in *.
    pose proof (extending_rhs_compiler _ _ _ _ Hcond) as Hext.
    eapply (for_scope_driven _ (fun d c => Forall (assigns_driven d) (snd c))) in Hcases.
    + simpl in Hcases. rewrite (ext_driven _ _ Hext) in Hcases.
      intros signal Hs. simpl in Hs. apply list_elem_of_In, in_flat_map in Hs as (c & Hc & Hs).
      apply in_flat_map in Hs as (s & Hs & Hsig).
      rewrite Forall_forall in Hcases. specialize (Hcases c (proj2 (list_elem_of_In _ _) Hc)).
      rewrite Forall_forall in Hcases.
      apply (Hcases s (proj2 (list_elem_of_In _ _) Hs)). now apply list_elem_of_In.
    + apply Forall_forall. intros c _. apply extending_scope_bind; [apply extending_scope_on_snd|].
      intros n. apply extending_scope_for_, Forall_forall. intros s _.
      apply extending_convert_stmt.
    + eapply Forall_impl; [exact IH|]. intros c Hc sc0 u0 sc0' Hwf0.
      intros (n & sc4 & (p4 & _ & ->)%on_snd_Ok & Hstmts)%bind_Ok.
      eapply (for_scope_driven _ assigns_driven) in Hstmts; [exact Hstmts| | |exact Hwf0].
      * apply Forall_forall. intros s _. apply extending_convert_stmt.
      * eapply Forall_impl; [exact Hc|]. intros s Hs. apply Hs.
    + simpl. now apply Hext.
  - now apply raise_Ok in Hrun.
Qed.

Lemma convert_stmt_convertible (stmt : ast.Statement) : forall indent,
  succeeds (_convert_stmt indent stmt) -> convertible stmt = true.
Proof.
  induction stmt as [lhs rhs|test cases IH|] using Statement_induction;
    intros indent Hrun; simpl in Hrun.
  - destruct (shape lhs) as [lhs_bits lhs_sign], (shape rhs) as [rhs_bits rhs_sign].
    apply succeeds_bind in Hrun as [Hrhs [r Hrun]].
    apply succeeds_bind in Hrun as [Hlhs%succeeds_on_fst%lhs_compiler_assignable _].
    change (assignable lhs && lowerable rhs = true). rewrite Hlhs. simpl.
    destruct (lhs_bits =? rhs_bits); apply succeeds_on_fst in Hrhs;
      [now apply succeeds_lowerable|].
    apply succeeds_match_shape in Hrhs.
    destruct rhs; try reflexivity; now apply succeeds_lowerable.
  - apply succeeds_bind in Hrun as [Hcond%succeeds_on_fst%succeeds_lowerable [cond Hrun]].
    apply succeeds_bind in Hrun as [_ [u1 Hrun]].
    apply succeeds_bind in Hrun as [Hcases%succeeds_for_ _].
    change (lowerable test && forallb (fun c => forallb convertible (snd c)) cases = true).
    rewrite Hcond. simpl. apply forallb_forall. intros c Hc%list_elem_of_In.
    rewrite Forall_forall in IH, Hcases. specialize (IH c Hc). specialize (Hcases c Hc).
    apply succeeds_bind in Hcases as [_ [n Hstmts%succeeds_for_]].
    apply forallb_forall. intros s Hs%list_elem_of_In.
    rewrite Forall_forall in IH, Hstmts. eapply IH; [exact Hs | apply Hstmts, Hs].
  - now apply succeeds_raise in Hrun.
Qed.

Lemma convert_stmts_convertible (indent : Z) (stmts : list ast.Statement) :
  succeeds (_convert_stmts indent stmts) -> forallb convertible stmts = true.
Proof.
  unfold _convert_stmts. intros Hall%succeeds_for_.
  apply forallb_forall. intros s Hs%list_elem_of_In.
  rewrite Forall_forall in Hall. eapply convert_stmt_convertible, Hall, Hs.
Qed.

Lemma convert_stmts_assigns_driven (indent : Z) (stmts : list ast.Statement)
    (sc sc' : Scope) (u : unit) :
  wf_state (fst sc) ->
  _convert_stmts indent stmts sc = Ok (u, sc') ->
  forall signal, signal ∈ flat_map assigned_signals stmts ->
    is_Some (driven (fst sc) !! ast.sid signal).
Proof.
  unfold _convert_stmts. intros Hwf Hrun.
  eapply (for_scope_driven _ assigns_driven) in Hrun; [| | |exact Hwf].
  - intros signal Hs. apply list_elem_of_In, in_flat_map in Hs as (s & Hs & Hsig).
    rewrite Forall_forall in Hrun.
    apply (Hrun s (proj2 (list_elem_of_In _ _) Hs)). now apply list_elem_of_In.
  - apply Forall_forall. intros s _. apply extending_convert_stmt.
  - apply Forall_forall. intros s _ sc0 u0 sc0'. apply convert_stmt_assigns_driven.
Qed.

(** X11.  [_convert_stmts] converts only assignments and switches: if it
    returns, every statement, down the branches of the switches, is an
    assignment of a lowerable expression to an assignable target or a switch
    on a lowerable test. *)
Theorem _convert_stmts_convertible (indent : Z) (stmts : list ast.Statement) :
  succeeds (_convert_stmts indent stmts) -> forallb convertible stmts = true.
Proof. apply convert_stmts_convertible. Qed.

(** X12.  From a state of [convert_fragment], [_convert_stmts] returns only
    if every signal that the statements assign, down the branches of the
    switches, is registered as driven. *)
Theorem _convert_stmts_targets_driven (indent : Z) (stmts : list ast.Statement)
    (sc sc' : Scope) (u : unit) :
  wf_state (fst sc) ->
  _convert_stmts indent stmts sc = Ok (u, sc') ->
  forall signal, signal ∈ flat_map assigned_signals stmts ->
    is_Some (driven (fst sc) !! ast.sid signal).
Proof. apply convert_stmts_assigns_driven. Qed.

End Statements.
(** ** Unary operators *)

Section Unary.
Context `{Frontend}.

(** X13.  A unary operator is lowered to the cell that [operator_map] gives
    for it: the result wire is declared first, at the width of the operator
    node, then the operand is lowered as it is, and the cell declares the
    width and the signedness of the operand itself and the width of the
    result. *)
Theorem unary_operator_cell (op : string) (arg : ast.Value) (st st' : _ValueCompilerState)
    (res : string) :
  rhs_compiler (ast.Operator op [arg]) st = Ok (res, st') ->
  exists kind st1 a st2 name,
    In ((1, op), kind) operator_map
    ∧ module_buffer (rtlil st1)
      = module_buffer (rtlil st) ++ [wire_line (fst (shape (ast.Operator op [arg]))) res]
    ∧ rhs_compiler arg st1 = Ok (a, st2)
    ∧ module_buffer (rtlil st')
      = module_buffer (rtlil st2) ++ [src_line (value_src_loc (ast.Operator op [arg]))]
          ++ cell_lines kind name
               [("A_SIGNED", int_of_bool (snd (shape arg)));
                ("A_WIDTH", fst (shape arg));
                ("Y_WIDTH", fst (shape (ast.Operator op [arg])))]
               [(backslash +:+ "A", a); (backslash +:+ "Y", res)].
Proof.
  simpl. unfold on_Operator_unary.
  destruct (shape arg) as [arg_bits arg_sign].
  destruct (shape (ast.Operator op [arg])) as [res_bits res_sign]. simpl.
  intros (res' & st1 & Hres & (kind & st1' & Hkind & Hrest)%bind_Ok)%bind_Ok.
  apply bind_Ok in Hrest as (a & st2 & Harg & Hcell).
  apply bind_Ok in Hcell as (name & st3 & Hcell & [= <- <-]%ret_Ok).
  assert (In ((1, op), kind) operator_map ∧ st1' = st1) as [Hin ->].
  { unfold operator_map_get in Hkind.
    destruct (find _ operator_map) as [[[arity op'] kind']|] eqn:Hfind; [|discriminate].
    apply ret_Ok in Hkind as [= -> ->].
    apply find_some in Hfind as [Hin Hcond]. simpl in Hcond.
    apply andb_prop in Hcond as [->%Z.eqb_eq ->%String.eqb_eq].
    split; [exact Hin | reflexivity]. }
  apply on_rtlil_Ok in Hres as (m1 & (_ & _ & Hbuf1 & _)%wire_Ok & ->).
  apply on_rtlil_Ok in Hcell as (m3 & (_ & _ & Hbuf3 & _)%cell_Ok & ->).
  rewrite wire_text_line in Hbuf1. rewrite _src_line, cell_text_lines in Hbuf3.
  exists kind, (set_rtlil m1 st), a, st2, name.
  split; [exact Hin|]. split; [exact Hbuf1|]. split; [exact Harg | exact Hbuf3].
Qed.

End Unary.

Lemma unary_operator_cell_witness :
  exists res st' kind,
    rhs_compiler (H := Example.frontend) (ast.Operator "~" [ast.Sig Example.a4])
      (Example.driving []) = Ok (res, st')
    ∧ In ((1, "~"), kind) operator_map.
Proof.
  destruct (rhs_compiler (H := Example.frontend) (ast.Operator "~" [ast.Sig Example.a4])
              (Example.driving [])) as [[res st']|e] eqn:Hrun;
    [|vm_compute in Hrun; discriminate].
  destruct (unary_operator_cell (H := Example.frontend) "~" (ast.Sig Example.a4) _ st' res Hrun)
    as (kind & st1 & a & st2 & name & Hin & _).
  exists res, st', kind. split; [reflexivity | exact Hin].
Defined.
(** ** The [init] block and the registration of the drivers *)

Section Initial.
Context `{Frontend}.

(** X14.  The [init] block is its [sync init] line followed by one [update]
    per synchronous driven record, in order, that gives the current wire of
    the signal the literal of its reset value. *)
Theorem sync_init_updates (fragment : ir.Fragment) (sc sc' : Scope) (u : unit) :
  sync_init fragment sc = Ok (u, sc') ->
  extends (fst sc) (fst sc')
  ∧ exists chunks,
      process_buffer (snd sc') = process_buffer (snd sc) ++ sync_line ["init"] :: chunks
      ∧ Forall2 (init_chunk (fst sc')) (ir.iter_sync fragment) chunks.
Proof.
  unfold sync_init.
  intros (u1 & sc1 & (p1 & (Hbuf1 & _)%process_append_Ok & ->)%on_snd_Ok & Hrun)%bind_Ok.
  eapply (for_blocks _ (fun _ => True)
            (fun st ds block => exists chunk, block = [chunk] ∧ init_chunk st ds chunk))
    in Hrun as (Hext & blocks & Hbuf & HR); [| auto | | | exact I].
  - split; [exact Hext|]. apply Forall2_singletons in HR as (chunks & <- & HR).
    exists (concat blocks). split; [|exact HR].
    simpl in Hbuf. rewrite Hbuf, Hbuf1, <- app_assoc, sync_text_line. reflexivity.
  - intros st st' ds block Hst (chunk & -> & c & n & Hw & ->).
    eexists. split; [reflexivity|]. exists c, n. split; [|reflexivity].
    eapply lookup_weaken; [exact Hw | apply Hst].
  - intros [domain signal] sc0 u0 sc0' _ _. simpl.
    intros ([c n] & sc2 & (st2 & [Hext2 Hw2]%resolve_extends & ->)%on_fst_Ok & Hrest)%bind_Ok.
    apply bind_Ok in Hrest as (r & sc3 & (st3 & [= -> ->]%ret_Ok & ->)%on_fst_Ok & Hupd).
    apply on_snd_Ok in Hupd as (p' & (Hbuf & _)%process_append_Ok & ->). simpl in *.
    split; [exact Hext2|]. eexists. split; [exact Hbuf|].
    eexists. split; [reflexivity|]. exists c, n. split; [exact Hw2|].
    rewrite <- RHS_on_Const_literal. apply update_text_line.
Qed.

Lemma register_drivers_registers (fragment : ir.Fragment) (st : _ValueCompilerState) :
  exists st',
    register_drivers fragment st = Ok (tt, st')
    ∧ wires st' = wires st ∧ ports st' = ports st ∧ rtlil st' = rtlil st
    ∧ sub_name st' = sub_name st
    ∧ forall k, is_Some (driven st' !! k)
                <-> is_Some (driven st !! k)
                    ∨ exists ds, ds ∈ ir.iter_drivers fragment ∧ ast.sid (snd ds) = k.
Proof.
  unfold register_drivers. generalize (ir.iter_drivers fragment). intros l. revert st.
  induction l as [|ds l IH]; intros st.
  - exists st. split; [reflexivity|]. repeat (split; [reflexivity|]).
    intros k. split; [auto|]. intros [Hk|(ds & Hds & _)]; [exact Hk | inversion Hds].
  - rewrite for__cons. unfold bind, add_driven at 1, modify.
    destruct (IH (set_driven (<[ast.sid (snd ds) := match fst ds with
                                                     | Some _ => true
                                                     | None => false
                                                     end]> (driven st)) st))
      as (st' & -> & Hw & Hp & Hr & Hs & Hd).
    exists st'. split; [reflexivity|]. simpl in *. repeat (split; [assumption|]).
    intros k. rewrite Hd, lookup_insert. split.
    + intros [Hk|(ds' & Hds' & <-)].
      * case_decide as Heq; [|auto]. right. exists ds. split; [left | exact Heq].
      * right. exists ds'. split; [now right | reflexivity].
    + intros [Hk|(ds' & [->|Hds']%elem_of_cons & <-)].
      * left. case_decide; eauto.
      * left. rewrite decide_True by reflexivity. eauto.
      * right. eauto.
Qed.

(** X15.  [register_drivers] always returns; it registers as driven the
    signals of the driven records of the fragment and no other signal, and
    touches nothing else of the compiler state. *)
Theorem register_drivers_exact (fragment : ir.Fragment) (st : _ValueCompilerState) :
  exists st',
    register_drivers fragment st = Ok (tt, st')
    ∧ wires st' = wires st ∧ ports st' = ports st ∧ rtlil st' = rtlil st
    ∧ sub_name st' = sub_name st
    ∧ forall k, is_Some (driven st' !! k)
                <-> is_Some (driven st !! k)
                    ∨ exists ds, ds ∈ ir.iter_drivers fragment ∧ ast.sid (snd ds) = k.
Proof. apply register_drivers_registers. Qed.

End Initial.

Lemma sync_init_updates_witness :
  exists sc' chunks,
    sync_init (H := Example.frontend) Example.two_domains
      (Example.driving [Example.b8; Example.S8; Example.s4], Example.process0) = Ok (tt, sc')
    ∧ process_buffer (snd sc') = sync_line ["init"] :: chunks
    ∧ Forall2 (init_chunk (H := Example.frontend) (fst sc'))
        (ir.iter_sync Example.two_domains) chunks.
Proof.
  destruct (sync_init (H := Example.frontend) Example.two_domains
              (Example.driving [Example.b8; Example.S8; Example.s4], Example.process0))
    as [[[] sc']|e] eqn:Hrun; [|vm_compute in Hrun; discriminate].
  destruct (sync_init_updates (H := Example.frontend) Example.two_domains _ sc' tt Hrun)
    as (_ & chunks & Hbuf & Hall).
  exists sc', chunks. split; [reflexivity|]. split; [exact Hbuf | exact Hall].
Defined.
(** ** The process of a fragment that drives nothing *)

Section EmptyProcess.
Context `{Frontend}.

(** X16.  A fragment without driven signals and without statements still
    gets a process: it is given a fresh local name, and its text is the
    [process] line, the [sync init] line and the [end] line, flushed into the
    module as one chunk. *)
Theorem convert_process_empty (fragment : ir.Fragment) (st : _ValueCompilerState) :
  ir.drivers fragment = [] -> ir.statements fragment = [] ->
  exists name st',
    convert_process fragment st = Ok (tt, st')
    ∧ (name ∉ names_of st)
    ∧ names_of st' = {[ name ]} ∪ names_of st
    ∧ wires st' = wires st
    ∧ module_buffer (rtlil st')
      = module_buffer (rtlil st)
          ++ [process_line name +:+ sync_line ["init"] +:+ end_line 2].
Proof.
  intros Hd Hs.
  destruct (_make_name_total None true (module_namer (rtlil st))) as (name & namer' & Hname);
    [intros [[=] _]|].
  pose proof (_make_name_Ok _ _ _ _ _ Hname) as (Hfresh & Hnames & _).
  exists name. eexists. split; [|split; [exact Hfresh|]].
  - unfold convert_process, _ModuleBuilder_process, module_make_name, on_rtlil, zoom, bind.
    rewrite Hname. unfold ret at 1.
    unfold assign_defaults, _convert_stmts, sync_init, sync_domains, ir.iter_drivers,
      ir.iter_sync. rewrite Hd, Hs. reflexivity.
  - rewrite <- (process_text_line name), <- (sync_text_line "init" None),
      <- process_end_text_line.
    simpl. unfold names_of. simpl. split; [exact Hnames|]. split; reflexivity.
Qed.

End EmptyProcess.

Lemma convert_process_empty_witness :
  exists name st',
    convert_process (H := Example.frontend)
      Sample.idle (Example.driving []) = Ok (tt, st')
    ∧ module_buffer (rtlil st')
      = [process_line name +:+ sync_line ["init"] +:+ end_line 2].
Proof.
  destruct (convert_process_empty (H := Example.frontend) Sample.idle (Example.driving [])
              eq_refl eq_refl)
    as (name & st' & Hrun & _ & _ & _ & Hbuf).
  exists name, st'. split; [exact Hrun | exact Hbuf].
Defined.
(** ** The text of a switch *)

Lemma appending_ret {A} (a : A) : appending (ret a).
Proof. intros sc a' sc' [= -> ->]%ret_Ok. reflexivity. Qed.

Lemma appending_raise {A} e : appending (@raise _ A e).
Proof. intros sc a sc' []%raise_Ok. Qed.

Lemma appending_bind {A B} (m : M Scope A) (k : A -> M Scope B) :
  appending m -> (forall a, appending (k a)) -> appending (bind m k).
Proof.
  intros Hm Hk sc b sc' (a & sc1 & H1 & H2)%bind_Ok.
  etransitivity; [eapply Hm, H1 | eapply Hk, H2].
Qed.

Lemma appending_on_fst {A} (m : M _ValueCompilerState A) : appending (on_fst m).
Proof. intros sc a sc' (st' & _ & ->)%on_fst_Ok. reflexivity. Qed.

Lemma appending_process_append chunks : appending (on_snd (process_append chunks)).
Proof.
  intros sc a sc' (p' & (Hbuf & _)%process_append_Ok & ->)%on_snd_Ok. simpl.
  rewrite Hbuf. now apply prefix_app_r.
Qed.

Lemma appending_for_ {A} (body : A -> M Scope unit) l :
  Forall (fun x => appending (body x)) l -> appending (for_ body l).
Proof.
  induction 1 as [|x l Hx Hl IH]; [apply appending_ret|].
  rewrite for__cons. apply appending_bind; [assumption | intros _; assumption].
Qed.

Section Switches.
Context `{Frontend}.

Lemma appending_convert_stmt stmt : forall indent, appending (_convert_stmt indent stmt).
Proof.
  induction stmt as [lhs rhs|test cases IH|] using Statement_induction; intros indent; simpl.
  - destruct (shape lhs) as [lhs_bits lhs_sign], (shape rhs) as [rhs_bits rhs_sign].
    apply appending_bind; [destruct (lhs_bits =? rhs_bits); apply appending_on_fst|].
    intros r. apply appending_bind; [apply appending_on_fst|].
    intros l. apply appending_process_append.
  - apply appending_bind; [apply appending_on_fst|]. intros cond.
    apply appending_bind; [apply appending_process_append|]. intros _.
    apply appending_bind; [|intros _; apply appending_process_append].
    apply appending_for_. eapply Forall_impl; [exact IH|].
    intros [value stmts] Hstmts. simpl in *.
    apply appending_bind.
    + unfold _SwitchBuilder_case. intros sc a sc' (p' & Hcase & ->)%on_snd_Ok. simpl.
      apply bind_Ok in Hcase as (u & p1 & (Hbuf & _)%process_append_Ok & [= _ <-]%ret_Ok).
      rewrite Hbuf. now apply prefix_app_r.
    + intros n. apply appending_for_. eapply Forall_impl; [exact Hstmts|]. auto.
  - apply appending_raise.
Qed.

(** X17.  A switch is written as its [switch] line on the lowered test, then
    one block per branch in order, then its [end] line at the indentation of
    the [switch] line; the block of a branch is its [case] line followed by
    the text of the statements of the branch, converted two levels deeper. *)
Theorem switch_blocks (indent : Z) (test : ast.Value)
    (cases : list (option string * list ast.Statement)) (sc sc' : Scope) (u : unit) :
  _convert_stmt indent (ast.Switch test cases) sc = Ok (u, sc') ->
  exists cond st1 blocks,
    rhs_compiler test (fst sc) = Ok (cond, st1)
    ∧ process_buffer (snd sc')
      = process_buffer (snd sc) ++ [switch_line indent cond] ++ concat blocks
          ++ [end_line (2 * Z.to_nat indent)]
    ∧ Forall2 (case_block indent) cases blocks.
Proof.
  simpl.
  intros (cond & sc1 & (st1 & Hcond & ->)%on_fst_Ok & Hrun)%bind_Ok.
  apply bind_Ok in Hrun as (u1 & sc2 & (p2 & (Hbuf2 & _)%process_append_Ok & ->)%on_snd_Ok & Hrun).
  apply bind_Ok in Hrun as (u2 & sc3 & Hcases & (p4 & (Hbuf4 & _)%process_append_Ok & ->)%on_snd_Ok).
  simpl in *.
  eapply (for_blocks _ (fun _ => True) (fun _ c block => case_block indent c block))
    in Hcases as (_ & blocks & Hbuf3 & HR); [| auto | auto | | exact I].
  - exists cond, st1, blocks. split; [exact Hcond|]. split; [|exact HR].
    simpl in Hbuf3.
    rewrite Hbuf4, Hbuf3, Hbuf2, <- !app_assoc, switch_text_line, switch_end_text_line.
    reflexivity.
  - intros [value stmts] sc0 u0 sc0' _ _. simpl.
    intros (n & sc4 & (p5 & Hcase & ->)%on_snd_Ok & Hstmts)%bind_Ok.
    unfold _SwitchBuilder_case in Hcase.
    apply bind_Ok in Hcase as (u5 & p6 & (Hbuf6 & _)%process_append_Ok & [= -> ->]%ret_Ok).
    split.
    + apply (extending_convert_stmts (indent + 2) stmts _ _ _ Hstmts).
    + pose proof Hstmts as [rest Hrest]%(appending_for_ (_convert_stmt (indent + 2)) stmts).
      * simpl in Hrest. exists (case_line indent value :: rest).
        split; [rewrite Hrest, Hbuf6, <- app_assoc, case_text_line; reflexivity|].
        destruct u0. eexists _, _, rest.
        split; [exact Hstmts|]. split; [exact Hrest | reflexivity].
      * apply Forall_forall. intros s _. apply appending_convert_stmt.
Qed.

End Switches.
(** ** The attributes of a module *)

Lemma dict_get_set {V} (k : string) (v : V) (d : list (string * V)) (k' : string) :
  dict_get k' (dict_set k v d) = if String.eqb k' k then Ok v else dict_get k' d.
Proof.
  induction d as [|[k0 v0] d IH]; simpl; [reflexivity|].
  destruct (String.eqb k k0) eqn:Hk; simpl.
  - apply String.eqb_eq in Hk as <-. destruct (String.eqb k' k); reflexivity.
  - rewrite IH. destruct (String.eqb k' k0) eqn:Hk0; [|reflexivity].
    apply String.eqb_eq in Hk0 as ->. rewrite String.eqb_sym, Hk. reflexivity.
Qed.

Lemma dict_get_missing {V} (k : string) (d : list (string * V)) :
  k ∉ map fst d -> dict_get k d = Raise KeyError.
Proof.
  induction d as [|[k0 v0] d IH]; simpl; [reflexivity|].
  intros [Hne Hk]%not_elem_of_cons.
  destruct (String.eqb k k0) eqn:Heq; [apply String.eqb_eq in Heq; contradiction | auto].
Qed.

(** [d.update(e)] followed by a lookup: the value of [e] when it has the key,
    that of [d] otherwise. *)
Lemma dict_get_update {V} (e : list (string * V)) : forall (d : list (string * V)) (k : string),
  NoDup (map fst e) ->
  dict_get k (dict_update d e)
  = match dict_get k e with
    | Ok v => Ok v
    | Raise _ => dict_get k d
    end.
Proof.
  induction e as [|[k1 v1] e IH]; intros d k Hnd; [reflexivity|].
  apply NoDup_cons in Hnd as [Hk1 Hnd]. simpl in Hk1.
  change (dict_update d ((k1, v1) :: e)) with (dict_update (dict_set k1 v1 d) e).
  rewrite (IH _ _ Hnd), dict_get_set. simpl.
  destruct (String.eqb k k1) eqn:Hk; [|reflexivity].
  apply String.eqb_eq in Hk as ->. now rewrite (dict_get_missing _ _ Hk1).
Qed.

Lemma dict_update_first {V} (e : list (string * V)) : forall k0 v0 (d : list (string * V)),
  exists v rest, dict_update ((k0, v0) :: d) e = (k0, v) :: rest.
Proof.
  induction e as [|[k1 v1] e IH]; intros k0 v0 d; [eauto|].
  change (dict_update ((k0, v0) :: d) ((k1, v1) :: e))
    with (dict_update (dict_set k1 v1 ((k0, v0) :: d)) e).
  simpl. destruct (String.eqb k1 k0) eqn:Hk; [|apply IH].
  apply String.eqb_eq in Hk as ->. apply IH.
Qed.

(** X18.  The attributes of a new module are the [generator] attribute,
    always first, with the value [nMigen] unless the caller gives another
    one, and the attributes that the caller gives. *)
Theorem module_attrs_generator (name : option string) (attrs : list (string * attr_value))
    (b b' : _Builder) (m : _ModuleBuilder) :
  NoDup (map fst attrs) ->
  _Builder_module name attrs b = Ok (m, b') ->
  (forall k, dict_get k (module_attrs m)
             = match dict_get k attrs with
               | Ok v => Ok v
               | Raise _ => dict_get k [("generator", AttrStr "nMigen")]
               end)
  ∧ exists v rest, module_attrs m = ("generator", v) :: rest.
Proof.
  intros Hnd. unfold _Builder_module.
  intros (n & b1 & _ & [= -> _]%ret_Ok)%bind_Ok. cbn [module_attrs]. split.
  - intros k. now apply dict_get_update.
  - apply dict_update_first.
Qed.

Lemma module_attrs_generator_witness :
  exists m b',
    _Builder_module (Some "top") [("top", AttrInt 1)] _Builder_init = Ok (m, b')
    ∧ dict_get "generator" (module_attrs m) = Ok (AttrStr "nMigen")
    ∧ dict_get "top" (module_attrs m) = Ok (AttrInt 1).
Proof.
  destruct (_Builder_module (Some "top") [("top", AttrInt 1)] _Builder_init)
    as [[m b']|e] eqn:Hrun; [|vm_compute in Hrun; discriminate].
  exists m, b'. split; [reflexivity|].
  assert (Hnd : NoDup (map fst [("top", AttrInt 1)])) by (simpl; apply NoDup_singleton).
  destruct (module_attrs_generator (Some "top") [("top", AttrInt 1)] _ b' m Hnd Hrun)
    as [Hget _].
  split; [exact (Hget "generator") | exact (Hget "top")].
Defined.

(** ** The cell of a subfragment *)

Section Instances.
Context `{Frontend}.

Lemma for_each_port_wires (pm : list (string * ast.Signal)) : forall st cports st',
  for_each (fun ps : string * ast.Signal =>
              let* w := rhs_compiler (ast.Sig (snd ps)) in
              ret (fst ps, w)) pm st = Ok (cports, st') ->
  extends st st'
  ∧ sub_name st' = sub_name st
  ∧ Forall2 (fun ps cport =>
               fst cport = fst ps
               ∧ exists wire_next, wires st' !! ast.sid (snd ps) = Some (snd cport, wire_next))
      pm cports.
Proof.
  induction pm as [|ps pm IH]; intros st cports st'.
  - intros [= <- <-]. split; [apply extends_refl|]. split; [reflexivity | constructor].
  - rewrite for_each_cons.
    intros (cport & st1 & Hfirst & (cports' & st2 & Hrest & [= -> ->]%ret_Ok)%bind_Ok)%bind_Ok.
    apply bind_Ok in Hfirst as (w & st1' & Hw & [= -> ->]%ret_Ok).
    assert (Hsub : sub_name st1' = sub_name st).
    { simpl in Hw. unfold RHS_on_Signal in Hw.
      apply bind_Ok in Hw as (w' & st0 & Hres & [= _ ->]%ret_Ok).
      destruct (wires st !! ast.sid (snd ps)) as [w0|] eqn:Hcached.
      - rewrite (resolve_cached _ _ _ Hcached) in Hres. now injection Hres as _ <-.
      - apply resolve_first in Hres as (m' & -> & _); [reflexivity | exact Hcached]. }
    apply rhs_signal_Ok in Hw as [Hext [n Hwire]].
    apply IH in Hrest as (Hext' & Hsub' & Hall).
    split; [eapply extends_trans; eassumption|]. split; [congruence|].
    constructor; [|exact Hall]. split; [reflexivity|]. exists n. simpl.
    eapply lookup_weaken; [exact Hwire | apply Hext'].
Qed.

(** X19.  The cell that instantiates a subfragment has the name of the
    submodule as its kind and asks for it as its own name; it connects every
    port of the submodule, in the order of the port map, to the current wire
    that the port signal has in the parent module.  The prefix of the
    hierarchy is cleared once the cell is written. *)
Theorem instantiate_connects (sub : string) (pm : list (string * ast.Signal))
    (st st' : _ValueCompilerState) (u : unit) :
  NoDup (map fst pm) ->
  instantiate sub pm st = Ok (u, st') ->
  exists cports st1 name suffix,
    extends st st1
    ∧ Forall2 (fun ps cport =>
                 fst cport = fst ps
                 ∧ exists wire_next,
                     wires st' !! ast.sid (snd ps) = Some (snd cport, wire_next))
        pm cports
    ∧ module_buffer (rtlil st') = module_buffer (rtlil st1) ++ cell_lines sub name [] cports
    ∧ name = sub +:+ suffix
    ∧ (sub ∉ names_of st1 -> suffix = "")
    ∧ sub_name st' = None.
Proof.
  intros Hnd. unfold instantiate, hierarchy.
  intros (u0 & st0 & [= _ ->]%modify_Ok & Hrun)%bind_Ok.
  apply bind_Ok in Hrun as (u1 & st3 & Hbody & Hrun).
  apply bind_Ok in Hrun as (u2 & st4 & [= _ ->]%modify_Ok & [= _ ->]%ret_Ok).
  apply bind_Ok in Hbody as (cports & st1 & Hports & Hcell).
  apply bind_Ok in Hcell as (name & st2 & Hcell & [= _ ->]%ret_Ok).
  apply for_each_port_wires in Hports as (Hext & _ & Hall).
  apply on_rtlil_Ok in Hcell as (m2 & Hcell & ->).
  assert (Hkeys : map fst cports = map fst pm).
  { clear -Hall. induction Hall as [|ps cport pm cports [Hk _] _ IH]; simpl; congruence. }
  rewrite (dict_update_fresh cports []) in Hcell by (simpl; now rewrite Hkeys).
  pose proof Hcell as (_ & _ & Hbuf & _)%cell_Ok. rewrite cell_text_lines in Hbuf.
  unfold _ModuleBuilder_cell in Hcell.
  apply bind_Ok in Hcell as (u3 & m0 & ->%module_append_Ok & Hcell).
  apply bind_Ok in Hcell as (name' & m1 & Hname & Hcell).
  apply bind_Ok in Hcell as (u4 & m3 & _ & [= -> _]%ret_Ok).
  unfold module_make_name in Hname. apply zoom_Ok in Hname as (n' & t & Hname & [= <- _]).
  apply _make_name_Ok_suffix in Hname as (index & candidate & suffix & Hc & -> & Hfree & _).
  apply _make_name_candidate_named in Hc as [_ ->].
  exists cports, st1, (sub +:+ suffix), suffix. simpl in *.
  split; [eapply extends_trans; [apply extends_set_sub_name | exact Hext]|].
  split; [exact Hall|]. split; [exact Hbuf|]. split; [reflexivity|].
  split; [intros Hout; now apply Hfree | reflexivity].
Qed.

End Instances.
(** ** The conversion of a hierarchy *)

Lemma builder_grows_refl (b : _Builder) : builder_grows 0 b b.
Proof.
  split; [exists []; now rewrite app_nil_r|]. split; [reflexivity | lia].
Qed.

Lemma builder_grows_trans (n m : nat) (b1 b2 b3 : _Builder) :
  builder_grows n b1 b2 -> builder_grows m b2 b3 -> builder_grows (n + m) b1 b3.
Proof.
  intros ((c1 & Hb1 & Hl1) & Hn1 & Hs1) ((c2 & Hb2 & Hl2) & Hn2 & Hs2).
  split; [exists (c1 ++ c2); rewrite Hb2, Hb1, <- app_assoc, length_app; split; [reflexivity | lia]|].
  split; [etransitivity; eassumption | lia].
Qed.

Section Convert.
Context `{Frontend}.

(** [convert_fragment], step by step. *)
Lemma convert_fragment_Ok fragment name top b r b' :
  convert_fragment fragment name top b = Ok (r, b') ->
  exists module b1 b2 st,
    _Builder_module (Some (or_default name "anonymous"))
      (if top then [("top", AttrInt 1)] else []) b = Ok (module, b1)
    ∧ module_body (fun sub => convert_fragment (fst sub) (snd sub) false) fragment
        (b1, _ValueCompilerState_init module) = Ok (tt, (b2, st))
    ∧ fst r = module_name (rtlil st)
    ∧ builder_namer b' = builder_namer b2
    ∧ builder_buffer b'
      = builder_buffer b2 ++ [getvalue (module_buffer (rtlil st) ++ [module_end_text])].
Proof.
  intros Hrun. destruct fragment as [fports fdrivers fstmts fdomains fsubs].
  simpl in Hrun. apply bind_Ok in Hrun as (module & b1 & Hmod & Hrun).
  match type of Hrun with match ?run with _ => _ end = _ =>
    destruct run as [[[] [b2 st]]|e] eqn:Hbody; [|discriminate] end.
  match type of Hrun with match ?run with _ => _ end = _ =>
    destruct run as [[pm st']|e] eqn:Hpm; [|discriminate] end.
  injection Hrun as <- <-.
  exists module, b1, b2, st. auto.
Qed.

(** The body of a module, up to its process: the module text starts with
    the header, exactly the driven records are registered, and the process
    is converted in a state of [convert_fragment]. *)
Lemma module_body_phases convert_sub fragment b module u b' st' :
  module_body convert_sub fragment (b, _ValueCompilerState_init module) = Ok (u, (b', st')) ->
  exists st,
    wf_state st
    ∧ drivers_registered fragment st
    ∧ (forall k, is_Some (driven st !! k) ->
         exists ds, ds ∈ ir.iter_drivers fragment ∧ ast.sid (snd ds) = k)
    ∧ (module_buffer module ++ module_header module) `prefix_of` module_buffer (rtlil st)
    ∧ module_name (rtlil st) = module_name module
    ∧ convert_process fragment st = Ok (u, st').
Proof.
  unfold module_body.
  intros (u1 & sc1 & (st1 & Henter & ->)%on_snd_Ok & Hrun)%bind_Ok. simpl in *.
  apply on_rtlil_Ok in Henter as (m1 & Henter & ->).
  unfold _ModuleBuilder_enter in Henter.
  apply bind_Ok in Henter as (self & m0 & [= -> ->]%get_Ok & Henter).
  apply bind_Ok in Henter as (u0 & m2 & ->%module_append_Ok & ->%module_append_Ok).
  apply bind_Ok in Hrun as (u2 & sc2 & (st2 & Hreg & ->)%on_snd_Ok & Hrun). simpl in *.
  match type of Hreg with register_drivers _ ?s = _ =>
    destruct (register_drivers_registers fragment s)
      as (st2' & Hreg' & Hw2 & Hp2 & Hr2 & _ & Hd2) end.
  rewrite Hreg' in Hreg. injection Hreg as _ <-. simpl in *.
  assert (Hreg2 : drivers_registered fragment st2').
  { intros ds s Hds Hs. apply Hd2. right. exists (fst ds, s). split; [|reflexivity].
    apply list_elem_of_In, in_flat_map. exists ds. split; [now apply list_elem_of_In|].
    apply in_map_iff. exists s. split; [reflexivity | now apply list_elem_of_In]. }
  assert (Hwf2 : wf_state st2').
  { apply wf_state_no_wires; [assumption|]. intros sid p. rewrite Hp2, lookup_empty. discriminate. }
  apply bind_Ok in Hrun as (u3 & sc3 & (st3 & [Hext3 Hports]%lower_ports_Ok & ->)%on_snd_Ok & Hrun).
  apply bind_Ok in Hrun as (u4 & sc4 & (st4 & Hext4%extending_lower_clocks & ->)%on_snd_Ok & Hrun).
  apply bind_Ok in Hrun as (u5 & [b5 st5] & Hsubs & (st6 & Hproc & [= -> <-])%on_snd_Ok).
  simpl in *.
  assert (Hext5 : extends st4 st5).
  { change st4 with (snd (b, st4)). change st5 with (snd (b5, st5)).
    eapply (for_Ok_Forall _ (fun s s' => extends (snd s) (snd s'))) in Hsubs;
      [exact Hsubs | intros; apply extends_refl | intros; eapply extends_trans; eassumption |].
    intros sub s v s' _.
    intros (r & s1 & (b1 & _ & ->)%on_fst_Ok & (st1' & Hinst%extending_instantiate & ->)%on_snd_Ok)%bind_Ok.
    exact Hinst. }
  assert (Hext25 : extends st2' st5).
  { eapply extends_trans; [exact Hext3|]. eapply extends_trans; eassumption. }
  exists st5. split; [now apply Hext25|]. split; [|split; [|split; [|split; [|exact Hproc]]]].
  - intros ds s Hds Hs. rewrite (ext_driven _ _ Hext25). eauto.
  - intros k. rewrite (ext_driven _ _ Hext25), Hd2. simpl. rewrite lookup_empty.
    intros [[? [=]]|Hk]; exact Hk.
  - etransitivity; [|apply (ext_buffer _ _ Hext25)]. rewrite Hr2. simpl.
    unfold module_header. now rewrite app_assoc.
  - rewrite (ext_module_name _ _ Hext25), Hr2. reflexivity.
Qed.

(** The builder through the body of a module: it changes only where the
    subfragments are converted. *)
Lemma module_body_grows convert_sub fragment (n : ir.Fragment * option string -> nat)
    b st u b' st' :
  Forall (fun sub => forall b0 r b0', convert_sub sub b0 = Ok (r, b0') ->
                       builder_grows (n sub) b0 b0') (ir.subfragments fragment) ->
  module_body convert_sub fragment (b, st) = Ok (u, (b', st')) ->
  builder_grows (fold_right (fun sub acc => (n sub + acc)%nat) 0%nat (ir.subfragments fragment))
    b b'.
Proof.
  intros Hsubs. unfold module_body.
  intros (u1 & sc1 & (st1 & _ & ->)%on_snd_Ok & Hrun)%bind_Ok.
  apply bind_Ok in Hrun as (u2 & sc2 & (st2 & _ & ->)%on_snd_Ok & Hrun).
  apply bind_Ok in Hrun as (u3 & sc3 & (st3 & _ & ->)%on_snd_Ok & Hrun).
  apply bind_Ok in Hrun as (u4 & sc4 & (st4 & _ & ->)%on_snd_Ok & Hrun).
  apply bind_Ok in Hrun as (u5 & sc5 & Hloop & (st6 & _ & [= -> _])%on_snd_Ok).
  simpl in *. clear -Hsubs Hloop. revert b st4 u5 sc5 Hloop.
  induction Hsubs as [|sub subs Hsub _ IH]; intros b0 st0 u0 sc0.
  - intros [= _ <-]. apply builder_grows_refl.
  - rewrite for__cons.
    intros (u6 & [b1 st1'] & Hfirst & Hrest)%bind_Ok.
    apply bind_Ok in Hfirst
      as (r & sc6 & (b6 & Hconv & ->)%on_fst_Ok & (st7 & _ & [= -> _])%on_snd_Ok).
    simpl in *. eapply builder_grows_trans; [eapply Hsub, Hconv | eapply IH, Hrest].
Qed.

Lemma convert_fragment_grows (fragment : ir.Fragment) : forall name top b r b',
  convert_fragment fragment name top b = Ok (r, b') ->
  builder_grows (modules_of fragment) b b'
  ∧ (fst r ∉ _names (builder_namer b)) ∧ fst r ∈ _names (builder_namer b').
Proof.
  induction fragment as [fports fdrivers fstmts fdomains fsubs IH] using Fragment_induction.
  intros name top b r b' Hrun.
  apply convert_fragment_Ok in Hrun as (module & b1 & b2 & st & Hmod & Hbody & Hr & Hnamer & Hbuf).
  pose proof Hbody as (_ & Hname & _)%module_body_Ok.
  unfold _Builder_module in Hmod.
  apply bind_Ok in Hmod as (n & b0 & (n' & t & Hn & [= <- ->])%zoom_Ok & [= -> ->]%ret_Ok).
  apply _make_name_Ok in Hn as (Hfresh & Hnames & _).
  apply (module_body_grows _ _ (fun sub => modules_of (fst sub))) in Hbody
    as ((chunks & Hchunks & Hlen) & Hsub & Hsize).
  - simpl in *. rewrite Hr, Hname. split; [|split; [exact Hfresh|]].
    + split; [|split].
      * exists (chunks ++ [getvalue (module_buffer (rtlil st) ++ [module_end_text])]).
        rewrite Hbuf, Hchunks, <- app_assoc, length_app. simpl. split; [reflexivity | lia].
      * rewrite Hnamer. etransitivity; [|exact Hsub]. rewrite Hnames. set_solver.
      * rewrite Hnamer, Hsize, Hnames, size_union, size_singleton by set_solver. lia.
    + rewrite Hnamer. apply Hsub. rewrite Hnames. set_solver.
  - simpl. eapply Forall_impl; [exact IH|]. intros sub Hsub b0 r0 b0' Hconv.
    now apply Hsub in Hconv as [Hgrows _].
Qed.

(** X20.  Converting a fragment flushes into the builder one chunk of text
    per fragment of its hierarchy, the chunk of the fragment itself last,
    and registers in the builder one new name per fragment, that of the
    fragment itself among them; nothing is taken from the builder. *)
Theorem convert_fragment_modules (fragment : ir.Fragment) (name : option string) (top : bool)
    (b b' : _Builder) (r : string * list (string * ast.Signal)) :
  convert_fragment fragment name top b = Ok (r, b') ->
  builder_grows (modules_of fragment) b b'
  ∧ (fst r ∉ _names (builder_namer b)) ∧ fst r ∈ _names (builder_namer b').
Proof. apply convert_fragment_grows. Qed.

(** X21.  The text of a module is flushed into the builder as one chunk,
    after everything flushed before: it opens with the [generator]
    attribute, then the [top] attribute exactly when the module is the top,
    then the [module] line with the name that [convert_fragment] returns,
    and it closes with the [end] line. *)
Theorem convert_fragment_module_text (fragment : ir.Fragment) (name : option string)
    (top : bool) (b b' : _Builder) (r : string * list (string * ast.Signal)) :
  convert_fragment fragment name top b = Ok (r, b') ->
  exists earlier body,
    builder_buffer b'
    = earlier
        ++ [getvalue
              ([attribute_line 0 "generator" (AttrStr "nMigen")]
                 ++ (if top then [attribute_line 0 "top" (AttrInt 1)] else [])
                 ++ [module_line (fst r)] ++ body ++ [end_line 0])].
Proof.
  intros (module & b1 & b2 & st' & Hmod & Hbody & Hr & _ & Hbuf)%convert_fragment_Ok.
  pose proof Hbody as (st & Hwf & Hreg & _ & Hhead & Hname & Hproc)%module_body_phases.
  pose proof (convert_process_extends _ _ _ _ Hwf Hreg Hproc) as Hext.
  unfold _Builder_module in Hmod.
  apply bind_Ok in Hmod as (n & b0 & _ & [= -> _]%ret_Ok).
  assert (Hprefix : module_header
                      {| module_namer := _Namer_init; module_buffer := []; module_name := n;
                         module_attrs := dict_update [("generator", AttrStr "nMigen")]
                                           (if top then [("top", AttrInt 1)] else []) |}
                    `prefix_of` module_buffer (rtlil st')).
  { etransitivity; [exact Hhead | apply Hext]. }
  destruct Hprefix as [body Hbody']. exists (builder_buffer b2), body.
  rewrite Hbuf, Hbody', Hr, (ext_module_name _ _ Hext), Hname. simpl.
  rewrite <- !module_attribute_text_line, <- module_text_line, <- module_end_text_line.
  destruct top; unfold module_header; simpl; rewrite <- ?app_assoc; reflexivity.
Qed.

(** X22.  [convert_fragment] returns only if every statement of the
    fragment, down the branches of the switches, is one that
    [_convert_stmts] has a branch for, and every signal that the statements
    assign is the signal of a driven record of the fragment. *)
Theorem convert_fragment_assigns_drivers (fragment : ir.Fragment) (name : option string)
    (top : bool) (b b' : _Builder) (r : string * list (string * ast.Signal)) :
  convert_fragment fragment name top b = Ok (r, b') ->
  forallb convertible (ir.statements fragment) = true
  ∧ forall signal, signal ∈ flat_map assigned_signals (ir.statements fragment) ->
      exists ds, ds ∈ ir.iter_drivers fragment ∧ ast.sid (snd ds) = ast.sid signal.
Proof.
  intros (module & b1 & b2 & st' & _ & Hbody & _)%convert_fragment_Ok.
  apply module_body_phases in Hbody as (st & Hwf & Hreg & Hexact & _ & _ & Hproc).
  apply convert_process_phases in Hproc
    as (sc1 & sc2 & sc3 & sc4 & sc5 & Hext1 & _ & Hdef & Hstmts & _); [|assumption..].
  pose proof (proj1 (assign_defaults_Ok _ _ _ _ _ Hdef)) as Hext2.
  assert (Hext : extends st (fst sc2)) by (eapply extends_trans; eassumption).
  split.
  - apply (convert_stmts_convertible 2). exists sc2, tt, sc3. exact Hstmts.
  - intros signal Hs. apply Hexact. rewrite <- (ext_driven _ _ Hext).
    eapply convert_stmts_assigns_driven; [apply Hext, Hwf | exact Hstmts | exact Hs].
Qed.

(** X23.  [convert_fragment] returns only if every synchronous domain that
    drives signals is declared in the domains of the fragment, with a reset
    signal when its reset is asynchronous. *)
Theorem convert_fragment_domains_declared (fragment : ir.Fragment) (name : option string)
    (top : bool) (b b' : _Builder) (r : string * list (string * ast.Signal)) :
  convert_fragment fragment name top b = Ok (r, b') ->
  forall ds d, ds ∈ ir.drivers fragment -> fst ds = Some d ->
    exists cd,
      dict_get d (ir.domains fragment) = Ok cd
      ∧ (ir.async_reset cd = true -> is_Some (ir.rst cd)).
Proof.
  intros (module & b1 & b2 & st' & _ & Hbody & _)%convert_fragment_Ok.
  apply module_body_phases in Hbody as (st & Hwf & Hreg & _ & _ & _ & Hproc).
  apply convert_process_phases in Hproc
    as (sc1 & sc2 & sc3 & sc4 & sc5 & _ & _ & _ & _ & _ & Hwf4 & Hreg4 & Hsync & _);
    [|assumption..].
  apply sync_domains_Ok in Hsync as (_ & blocks & _ & Hall); [|assumption..].
  intros ds d Hds Hd. apply list_elem_of_lookup in Hds as [i Hi].
  destruct (Forall2_lookup_l _ _ _ _ _ Hall Hi) as (block & _ & triggers & _ & Htrig & _).
  rewrite Hd in Htrig. destruct Htrig as (cd & clk & clk_next & Hcd & _ & Hasync).
  exists cd. split; [exact Hcd|]. intros Ha. rewrite Ha in Hasync.
  destruct Hasync as (rst_signal & _ & _ & -> & _). eauto.
Qed.

End Convert.
(** ** The text that [convert] returns *)


Section ConvertText.
Context `{Frontend}.



End ConvertText.

(** ** The further properties at the examples *)

Lemma lhs_compiler_targets_witness :
  exists r st',
    lhs_compiler (H := Example.frontend)
      (ast.Cat [ast.Sig Example.S8; ast.Slice (ast.Sig Example.s4) 0 2])
      (Example.driving [Example.S8; Example.s4]) = Ok (r, st')
    ∧ is_Some (driven (Example.driving [Example.S8; Example.s4]) !! ast.sid Example.s4).
Proof.
  destruct (lhs_compiler (H := Example.frontend)
              (ast.Cat [ast.Sig Example.S8; ast.Slice (ast.Sig Example.s4) 0 2])
              (Example.driving [Example.S8; Example.s4])) as [[r st']|e] eqn:Hrun;
    [|vm_compute in Hrun; discriminate].
  exists r, st'. split; [reflexivity|].
  destruct (lhs_compiler_targets (H := Example.frontend) _ _ st' r
              (wf_state_driving [Example.S8; Example.s4]) Hrun) as [_ Hall].
  apply (Hall Example.s4).
  change (Example.s4 ∈ [Example.S8; Example.s4]).
  apply list_elem_of_further, list_elem_of_here.
Defined.

Lemma _convert_stmts_convertible_witness :
  succeeds (_convert_stmts (H := Example.frontend) 2 (ir.statements Sample.child))
  ∧ forallb convertible (ir.statements Sample.child) = true.
Proof.
  assert (Hrun : succeeds (_convert_stmts (H := Example.frontend) 2
                             (ir.statements Sample.child))).
  { exists (Example.driving [Example.P1], Example.process0).
    destruct (_convert_stmts (H := Example.frontend) 2 (ir.statements Sample.child)
                (Example.driving [Example.P1], Example.process0))
      as [[u sc']|e] eqn:Hrun; [eauto | vm_compute in Hrun; discriminate]. }
  split; [exact Hrun|].
  exact (_convert_stmts_convertible (H := Example.frontend) 2 _ Hrun).
Defined.

Lemma _convert_stmts_targets_driven_witness :
  exists sc',
    _convert_stmts (H := Example.frontend) 2 (ir.statements Sample.child)
      (Example.driving [Example.P1], Example.process0) = Ok (tt, sc')
    ∧ is_Some (driven (Example.driving [Example.P1]) !! ast.sid Example.P1).
Proof.
  destruct (_convert_stmts (H := Example.frontend) 2 (ir.statements Sample.child)
              (Example.driving [Example.P1], Example.process0))
    as [[[] sc']|e] eqn:Hrun; [|vm_compute in Hrun; discriminate].
  exists sc'. split; [reflexivity|].
  apply (_convert_stmts_targets_driven (H := Example.frontend) 2 _
           (Example.driving [Example.P1], Example.process0) sc' tt
           (wf_state_driving [Example.P1]) Hrun Example.P1).
  change (Example.P1 ∈ [Example.P1; Example.P1]). apply list_elem_of_here.
Defined.

Lemma switch_blocks_witness :
  exists sc' cond blocks,
    _convert_stmt (H := Example.frontend) 2
      (ast.Switch (ast.Sig Example.a4)
         [(Some "0000", [ast.Assign (ast.Sig Example.P1) (ast.Const (ast.ConstInt 0) 1 false)]);
          (None, [])])
      (Example.driving [Example.P1], Example.process0) = Ok (tt, sc')
    ∧ process_buffer (snd sc')
      = [switch_line 2 cond] ++ concat blocks ++ [end_line 4]
    ∧ length blocks = 2%nat.
Proof.
  destruct (_convert_stmt (H := Example.frontend) 2
              (ast.Switch (ast.Sig Example.a4)
                 [(Some "0000",
                   [ast.Assign (ast.Sig Example.P1) (ast.Const (ast.ConstInt 0) 1 false)]);
                  (None, [])])
              (Example.driving [Example.P1], Example.process0))
    as [[[] sc']|e] eqn:Hrun; [|vm_compute in Hrun; discriminate].
  destruct (switch_blocks (H := Example.frontend) 2 _ _ _ sc' tt Hrun)
    as (cond & st1 & blocks & _ & Hbuf & Hall).
  exists sc', cond, blocks. split; [reflexivity|]. split; [exact Hbuf|].
  apply Forall2_length in Hall. simpl in Hall. congruence.
Defined.

Lemma instantiate_connects_witness :
  exists st' (cports : list (string * string)),
    instantiate (H := Example.frontend) (backslash +:+ "child")
      [(backslash +:+ "a", Example.a4); (backslash +:+ "P", Example.P1)] (Example.driving [])
      = Ok (tt, st')
    ∧ map fst cports = [backslash +:+ "a"; backslash +:+ "P"]
    ∧ sub_name st' = None.
Proof.
  destruct (instantiate (H := Example.frontend) (backslash +:+ "child")
              [(backslash +:+ "a", Example.a4); (backslash +:+ "P", Example.P1)]
              (Example.driving [])) as [[[] st']|e] eqn:Hrun;
    [|vm_compute in Hrun; discriminate].
  assert (Hnd : NoDup (map (fst (B := ast.Signal))
                         [(backslash +:+ "a", Example.a4); (backslash +:+ "P", Example.P1)])).
  { apply NoDup_cons. split; [|apply NoDup_singleton].
    rewrite list_elem_of_singleton. discriminate. }
  destruct (instantiate_connects (H := Example.frontend) _ _ _ st' tt Hnd Hrun)
    as (cports & st1 & name & suffix & Hext & Hall & Hbuf & Hname & Hfree & Hsub).
  exists st', cports. split; [reflexivity|]. split; [|exact Hsub].
  clear -Hall. inversion Hall as [|? c1 ? l1 [Hk1 _] Hrest]; subst.
  inversion Hrest as [|? c2 ? l2 [Hk2 _] Hnil]; subst. inversion Hnil; subst.
  simpl in *. congruence.
Defined.

Lemma convert_fragment_modules_witness :
  exists r b',
    convert_fragment (H := Example.frontend) Sample.parent (Some "top") true _Builder_init
      = Ok (r, b')
    ∧ length (builder_buffer b') = 2%nat.
Proof.
  destruct (convert_fragment (H := Example.frontend) Sample.parent (Some "top") true
              _Builder_init) as [[r b']|e] eqn:Hrun; [|vm_compute in Hrun; discriminate].
  exists r, b'. split; [reflexivity|].
  destruct (convert_fragment_modules (H := Example.frontend) _ _ _ _ _ _ Hrun)
    as [[(chunks & Hbuf & Hlen) _] _].
  rewrite Hbuf. exact Hlen.
Defined.

Lemma convert_fragment_module_text_witness :
  exists r b' earlier body,
    convert_fragment (H := Example.frontend) Sample.parent (Some "top") true _Builder_init
      = Ok (r, b')
    ∧ builder_buffer b'
      = earlier
          ++ [getvalue
                ([attribute_line 0 "generator" (AttrStr "nMigen");
                  attribute_line 0 "top" (AttrInt 1); module_line (fst r)]
                   ++ body ++ [end_line 0])].
Proof.
  destruct (convert_fragment (H := Example.frontend) Sample.parent (Some "top") true
              _Builder_init) as [[r b']|e] eqn:Hrun; [|vm_compute in Hrun; discriminate].
  destruct (convert_fragment_module_text (H := Example.frontend) _ _ _ _ _ _ Hrun)
    as (earlier & body & Hbuf).
  exists r, b', earlier, body. split; [reflexivity | exact Hbuf].
Defined.

Lemma convert_fragment_assigns_drivers_witness :
  exists r b',
    convert_fragment (H := Example.frontend) Sample.child (Some "child") false _Builder_init
      = Ok (r, b')
    ∧ forallb convertible (ir.statements Sample.child) = true.
Proof.
  destruct (convert_fragment (H := Example.frontend) Sample.child (Some "child") false
              _Builder_init) as [[r b']|e] eqn:Hrun; [|vm_compute in Hrun; discriminate].
  exists r, b'. split; [reflexivity|].
  exact (proj1 (convert_fragment_assigns_drivers (H := Example.frontend) _ _ _ _ _ _ Hrun)).
Defined.

Lemma convert_fragment_domains_declared_witness :
  exists r b' cd,
    convert_fragment (H := Example.frontend) Sample.parent (Some "top") true _Builder_init
      = Ok (r, b')
    ∧ dict_get "sync" (ir.domains Sample.parent) = Ok cd.
Proof.
  destruct (convert_fragment (H := Example.frontend) Sample.parent (Some "top") true
              _Builder_init) as [[r b']|e] eqn:Hrun; [|vm_compute in Hrun; discriminate].
  destruct (convert_fragment_domains_declared (H := Example.frontend) _ _ _ _ _ _ Hrun
              (Some "sync", [Example.S8]) "sync" (list_elem_of_here _ _) eq_refl)
    as (cd & Hcd & _).
  exists r, b', cd. split; [reflexivity | exact Hcd].
Defined.
